(** * Trademark search server: the scraping, caching and scoring pipeline

    A shallow embedding of [server.js] (the cached variant: [loadCache],
    [saveCache], [fetchPage], [extractDetailLinks], [parseDetail],
    [processName] and the [/api/search] handler), and the properties of
    the pipeline proved over it.

    JavaScript strings are sequences of UTF-16 code units and are modelled
    as [list N]; values that travel through [JSON.parse]/[JSON.stringify]
    are modelled by the inductive type [json]; the network and the cache
    directory are an explicit [world] threaded through an error monad. *)

From Stdlib Require Import String Ascii DecimalString.
From stdpp Require Import list gmap.

Local Open Scope N_scope.

(** ** Strings *)

Abbreviation jsstring := (list N).

(** An ASCII literal as a sequence of code units. *)
Definition str (s : string) : jsstring :=
  (λ a, N_of_ascii a) <$> list_ascii_of_string s.

(** WhiteSpace and LineTerminator code units: what [\s] matches and what
    [String.prototype.trim] strips. *)
Definition is_space (c : N) : bool :=
  (c =? 9) || (c =? 10) || (c =? 11) || (c =? 12) || (c =? 13) || (c =? 32)
  || (c =? 160) || (c =? 5760) || ((8192 <=? c) && (c <=? 8202))
  || (c =? 8232) || (c =? 8233) || (c =? 8239) || (c =? 8287)
  || (c =? 12288) || (c =? 65279).

Definition is_digit (c : N) : bool := (48 <=? c) && (c <=? 57).

(** [Canonicalize] of the regular-expression semantics under the [i] flag.
    Every pattern character of this program is ASCII or U+2192, and for
    those the full rule (upper-case the code unit, unless that maps a
    non-ASCII unit into ASCII) relates exactly the same code units as
    upper-casing [a-z]. *)
Definition canonicalize (c : N) : N :=
  if (97 <=? c) && (c <=? 122) then c - 32 else c.

(** ** Regular expressions

    The patterns of [server.js] are built from pattern characters, classes,
    the escapes [\d], [\s] and [\S], concatenation, alternation, greedy and
    lazy stars, [+] and at most one capture group. None has an anchor, a
    word boundary or a look-around, so whether and how a pattern matches at
    a position depends only on the input from that position on: the
    matcher works on the rest of the input. *)

Module RegExp.

(** Class atoms: a pattern character, [\d], [\s], [\S]. *)
Inductive citem :=
| Ch (c : N)
| Digit
| Space
| NotSpace.

Inductive regex :=
| Eps
| One (x : citem)                         (* a character or class escape *)
| Class (negated : bool) (xs : list citem) (* [...] and [^...] *)
| Seq (r1 r2 : regex)
| Alt (r1 r2 : regex)                     (* r1|r2 *)
| Star (greedy : bool) (r : regex)        (* r* and r*? *)
| Group (r : regex).                      (* (r), capture group 1 *)

(** [r+] for a group-free [r]. *)
Definition Plus (r : regex) : regex := Seq r (Star true r).

(** A sequence of sub-patterns. *)
Definition cat (rs : list regex) : regex := foldr Seq Eps rs.

(** A literal run of pattern characters. *)
Definition Lit (s : string) : regex :=
  foldr (λ c r, Seq (One (Ch c)) r) Eps (str s).

(** The pattern character written as a literal. *)
Definition chr (s : string) : citem :=
  match str s with c :: _ => Ch c | [] => Ch 0 end.

(** Does the code unit [c] match the class atom, with or without the [i]
    flag. *)
Definition citem_mem (icase : bool) (x : citem) (c : N) : bool :=
  match x with
  | Ch p => if icase then canonicalize p =? canonicalize c else p =? c
  | Digit => is_digit c
  | Space => is_space c
  | NotSpace => negb (is_space c)
  end.

(** Captures: the text of group 1 when it took part in the match. *)
Abbreviation captures := (option jsstring).

(** One more iteration of a star whose body matches as [step] says, the
    further iterations being [loop]: an iteration that consumes nothing is
    rejected, as in RepeatMatcher. *)
Definition star_more (loop step : jsstring → captures → list (jsstring * captures))
  (s : jsstring) (c : captures) : list (jsstring * captures) :=
  flat_map (λ '(s', c'), if (length s' <? length s)%nat then loop s' c' else [])
    (step s c).

(** The iterations of a star. Each consumes input, so the length of the
    input bounds their number. A greedy star tries one more iteration
    before it stops, a lazy one stops first. *)
Fixpoint star_loop (step : jsstring → captures → list (jsstring * captures))
  (greedy : bool) (n : nat) (s : jsstring) (c : captures)
  : list (jsstring * captures) :=
  match n with
  | O => [(s, c)]
  | S n' =>
      let more := star_more (star_loop step greedy n') step s c in
      if greedy then more ++ [(s, c)] else (s, c) :: more
  end.

(** All the ways [r] matches a prefix of [s], as the remaining input and
    the captures, in the order the backtracking matcher tries them. *)
Fixpoint run (icase : bool) (r : regex) (s : jsstring) (c : captures)
  : list (jsstring * captures) :=
  match r with
  | Eps => [(s, c)]
  | One x =>
      match s with
      | a :: t => if citem_mem icase x a then [(t, c)] else []
      | [] => []
      end
  | Class neg xs =>
      match s with
      | a :: t =>
          if xorb neg (existsb (λ x, citem_mem icase x a) xs)
          then [(t, c)] else []
      | [] => []
      end
  | Seq r1 r2 =>
      flat_map (λ '(s', c'), run icase r2 s' c') (run icase r1 s c)
  | Alt r1 r2 => run icase r1 s c ++ run icase r2 s c
  | Star greedy r1 => star_loop (run icase r1) greedy (length s) s c
  | Group r1 =>
      (λ '(s', _), (s', Some (take (length s - length s')%nat s)))
        <$> run icase r1 s c
  end.

(** A compiled regular expression: the pattern and its [i] flag. *)
Record regexp := RegExp' { pattern : regex; ignoreCase : bool }.

(** One match attempt at the start of [s]: the matched text, the rest of
    the input and the captures of the first success. *)
Definition match_here (re : regexp) (s : jsstring)
  : option (jsstring * jsstring * captures) :=
  match run (ignoreCase re) (pattern re) s None with
  | (rest, c) :: _ => Some (take (length s - length rest)%nat s, rest, c)
  | [] => None
  end.

(** The leftmost match in [s]: the text before it, the matched text, the
    rest of the input and the captures (RegExpBuiltinExec from index 0). *)
Fixpoint exec (re : regexp) (s : jsstring)
  : option (jsstring * jsstring * jsstring * captures) :=
  match match_here re s with
  | Some (m, rest, c) => Some ([], m, rest, c)
  | None =>
      match s with
      | [] => None
      | a :: t =>
          match exec re t with
          | Some (pre, m, rest, c) => Some (a :: pre, m, rest, c)
          | None => None
          end
      end
  end.

(** [re.test(s)]. *)
Definition test (re : regexp) (s : jsstring) : bool :=
  match exec re s with Some _ => true | None => false end.

(** Successive matches of a global regular expression, each with its
    captures: the [lastIndex] loop of [String.prototype.match] and
    [replace] with the [g] flag. [skip] counts the code units of the
    previous match still to pass over; after an empty match the search
    resumes one code unit further. *)
Fixpoint scan (re : regexp) (s : jsstring) (skip : nat)
  : list (jsstring * captures) :=
  match s with
  | [] =>
      match skip, match_here re [] with
      | O, Some (m, _, c) => [(m, c)]
      | _, _ => []
      end
  | _ :: t =>
      match skip with
      | S k => scan re t k
      | O =>
          match match_here re s with
          | Some (m, _, c) => (m, c) :: scan re t (length m - 1)%nat
          | None => scan re t 0%nat
          end
      end
  end.

(** [s.match(re) || []] for a global [re]. *)
Definition matchAll (re : regexp) (s : jsstring) : list jsstring :=
  fst <$> scan re s 0%nat.

(** [s.replace(re, by)] for a global [re] and a plain replacement text. *)
Fixpoint replace_scan (re : regexp) (by_ : jsstring) (s : jsstring)
  (skip : nat) : jsstring :=
  match s with
  | [] =>
      match skip, match_here re [] with
      | O, Some _ => by_
      | _, _ => []
      end
  | a :: t =>
      match skip with
      | S k => replace_scan re by_ t k
      | O =>
          match match_here re s with
          | Some ([], _, _) => by_ ++ a :: replace_scan re by_ t 0%nat
          | Some (m, _, _) => by_ ++ replace_scan re by_ t (length m - 1)%nat
          | None => a :: replace_scan re by_ t 0%nat
          end
      end
  end.

Definition replace (re : regexp) (by_ : jsstring) (s : jsstring) : jsstring :=
  replace_scan re by_ s 0%nat.

(** [s.split(re)] for a group-free [re]: a sticky match attempt at every
    position [q]; a match that ends where the current piece begins is
    passed over. [piece] is the current piece, reversed. *)
Fixpoint split_scan (re : regexp) (s : jsstring) (piece : jsstring)
  (skip : nat) : list jsstring :=
  match s with
  | [] => [reverse piece]
  | a :: t =>
      match skip with
      | S k => split_scan re t piece k
      | O =>
          match match_here re s with
          | Some ([], _, _) =>
              match piece with
              | [] => split_scan re t [a] 0%nat
              | _ => reverse piece :: split_scan re t [a] 0%nat
              end
          | Some (m, _, _) =>
              reverse piece :: split_scan re t [] (length m - 1)%nat
          | None => split_scan re t (a :: piece) 0%nat
          end
      end
  end.

Definition split (re : regexp) (s : jsstring) : list jsstring :=
  match s with
  | [] => match match_here re [] with Some _ => [] | None => [[]] end
  | _ => split_scan re s [] 0%nat
  end.

End RegExp.

Import RegExp.

(** ** String helpers of the standard library *)

Fixpoint trimStart (s : jsstring) : jsstring :=
  match s with
  | a :: t => if is_space a then trimStart t else s
  | [] => []
  end.

(** [s.trim()]. *)
Definition trim (s : jsstring) : jsstring :=
  reverse (trimStart (reverse (trimStart s))).

(** [parts.join(sep)]. *)
Fixpoint join (sep : jsstring) (parts : list jsstring) : jsstring :=
  match parts with
  | [] => []
  | [p] => p
  | p :: ps => p ++ sep ++ join sep ps
  end.

(** [xs.filter(Boolean)] on strings: the empty string is falsy. *)
Definition filter_nonempty (xs : list jsstring) : list jsstring :=
  filter (λ x, x ≠ []) xs.

(** [Array.from(new Set(xs))]: a Set keeps the insertion order and ignores
    a value it already holds. *)
Definition set_add (seen : list jsstring) (x : jsstring) : list jsstring :=
  if decide (x ∈ seen) then seen else seen ++ [x].

Definition set_from (xs : list jsstring) : list jsstring :=
  foldl set_add [] xs.

(** ** The patterns of [server.js] *)

(** A pattern without and with the [i] flag. The [g] flag of a pattern is
    in the operation applied to it: [scan], [matchAll] and [replace] are
    the global ones, [exec], [test] and [split] are not. *)
Definition sensitive (r : regex) : regexp := RegExp' r false.
Definition insensitive (r : regex) : regexp := RegExp' r true.

(** [/\/australia\/trademark\/trademark-detail\/\d+\/[^Q'>]+/gi], where Q
    stands for the double quote, code unit 34. *)
Definition detailLinkRe : regexp :=
  insensitive (cat [Lit "/australia/trademark/trademark-detail/"; Plus (One Digit);
             Lit "/"; Plus (Class true [Ch 34; chr "'"; chr ">"])]).

(** [<th[^>]*>\s*LABEL\s*<\/th>\s*<td[^>]*>([\s\S]*?)<\/td>] with
    flag [i], for a pattern [label] in place of LABEL. *)
Definition cellRe (label : regex) : regexp :=
  insensitive (cat [Lit "<th"; Star true (Class true [chr ">"]); Lit ">";
             Star true (One Space); label; Star true (One Space);
             Lit "</th>"; Star true (One Space);
             Lit "<td"; Star true (Class true [chr ">"]); Lit ">";
             Group (Star false (Class false [Space; NotSpace]));
             Lit "</td>"]).

(** [Trademark\s*Owner] *)
Definition ownerLabel : regex :=
  cat [Lit "Trademark"; Star true (One Space); Lit "Owner"].

(** [/<[^>]*>/g] *)
Definition tagRe : regexp :=
  sensitive (cat [Lit "<"; Star true (Class true [chr ">"]); Lit ">"]).

(** [/&nbsp;/gi] *)
Definition nbspRe : regexp := insensitive (Lit "&nbsp;").

(** [/\s+/g] *)
Definition spacesRe : regexp := sensitive (Plus (One Space)).

(** [/\s*[-]+>\s*/g] *)
Definition arrow : regex :=
  cat [Star true (One Space); Plus (Class false [chr "-"]); Lit ">";
       Star true (One Space)].
Definition arrowRe : regexp := sensitive arrow.

(** [/<div[^>]*>([\s\S]*?)<\/div>/gi] *)
Definition divRe : regexp :=
  insensitive (cat [Lit "<div"; Star true (Class true [chr ">"]); Lit ">";
             Group (Star false (Class false [Space; NotSpace]));
             Lit "</div>"]).

(** [/\s*[-]+>\s*|\s*→\s*|\s*&gt;\s*/i]; U+2192 is code unit 8594. *)
Definition arrowSplitRe : regexp :=
  insensitive (Alt arrow
         (Alt (cat [Star true (One Space); One (Ch 8594); Star true (One Space)])
              (cat [Star true (One Space); Lit "&gt;"; Star true (One Space)]))).

(** [/\sLIVE\s/i] and [/\sDEAD\s/i] *)
Definition liveRe : regexp := insensitive (cat [One Space; Lit "LIVE"; One Space]).
Definition deadRe : regexp := insensitive (cat [One Space; Lit "DEAD"; One Space]).

(** [/Current\s+Status\s+([^<\n]+)/i] *)
Definition currentStatusRe : regexp :=
  insensitive (cat [Lit "Current"; Plus (One Space); Lit "Status"; Plus (One Space);
             Group (Plus (Class true [chr "<"; Ch 10]))]).

(** [/Class\s*(\d{3})/gi] *)
Definition classRe : regexp :=
  insensitive (cat [Lit "Class"; Star true (One Space);
             Group (cat [One Digit; One Digit; One Digit])]).

(** [/[\n,]+/] *)
Definition namesSplitRe : regexp :=
  sensitive (Plus (Class false [Ch 10; chr ","])).

(** ** Link Extractor *)

Definition extractDetailLinks (html : jsstring) : list jsstring :=
  set_from (matchAll detailLinkRe html).

(** ** Detail Parser *)

Record detail := Detail {
  applicationNumber : jsstring;
  wordMark : jsstring;
  ownerName : jsstring;
  ownerAddress : jsstring;
  owner : jsstring;
  filingDate : jsstring;
  status : jsstring;
  statusDesc : jsstring;
  classes : list jsstring
}.

(** [m[1]] *)
Definition group1 (c : captures) : jsstring := default [] c.

(** [.replace(/<[^>]*>/g, ' ').replace(/&nbsp;/gi, ' ')
     .replace(/\s+/g, ' ').trim()] *)
Definition cleanText (raw : jsstring) : jsstring :=
  trim (replace spacesRe (str " ")
         (replace nbspRe (str " ") (replace tagRe (str " ") raw))).

(** The first capture of [html.match(re)], when [re] matches. *)
Definition match1 (re : regexp) (html : jsstring) : option jsstring :=
  match exec re html with
  | Some (_, _, _, c) => Some (group1 c)
  | None => None
  end.

Definition extractTableValue (html : jsstring) (label : string) : jsstring :=
  match match1 (cellRe (Lit label)) html with
  | Some raw => cleanText raw
  | None => []
  end.

(** The [divRegex.exec] loop: the cleaned, non-empty texts of the [div]s. *)
Definition ownerParts (tdHtml : jsstring) : list jsstring :=
  filter_nonempty
    ((λ d, replace arrowRe (str " ") (cleanText (group1 d.2)))
       <$> scan divRe tdHtml 0).

(** The owner block of [parseDetail], from the captured cell. *)
Definition parseOwner (tdHtml : jsstring) : jsstring * jsstring :=
  match ownerParts tdHtml with
  | name :: rest =>
      (name, match rest with [] => [] | _ => join (str " ") rest end)
  | [] =>
      let cleaned := cleanText tdHtml in
      match filter_nonempty (split arrowSplitRe cleaned) with
      | name :: rest =>
          (trim name,
           match rest with [] => [] | _ => trim (join (str " ") rest) end)
      | [] => (trim (replace arrowRe (str " ") cleaned), [])
      end
  end.

(** The [if (/\sLIVE\s/i.test(html)) ... else if (/\sDEAD\s/i.test(html))]
    of [parseDetail]. *)
Definition parseStatus (html : jsstring) : jsstring :=
  if test liveRe html then str "LIVE"
  else if test deadRe html then str "DEAD"
  else [].

Definition parseDetail (html : jsstring) : detail :=
  let applicationNumber := extractTableValue html "Application Number" in
  let wordMark := extractTableValue html "Word Mark" in
  let filingDate := extractTableValue html "Filing Date" in
  let '(ownerName, ownerAddress) :=
    match match1 (cellRe ownerLabel) html with
    | Some tdHtml => parseOwner tdHtml
    | None => ([], [])
    end in
  let status := parseStatus html in
  let statusDesc :=
    match match1 currentStatusRe html with
    | Some d => trim d
    | None => []
    end in
  let classes := set_from ((λ m, group1 m.2) <$> scan classRe html 0) in
  let owner :=
    match ownerAddress with
    | [] => ownerName
    | _ => ownerName ++ str ", " ++ ownerAddress
    end in
  Detail applicationNumber wordMark ownerName ownerAddress owner filingDate
    status statusDesc classes.

(** ** JSON values *)

#[local] Set Warnings "-register-all".

(** What [JSON.parse] produces and [JSON.stringify] writes. A number is its
    binary64 bit pattern; an object is its own properties in order. *)
Inductive json :=
| JNull
| JBool (b : bool)
| JNum (bits : N)
| JStr (s : jsstring)
| JArr (xs : list json)
| JObj (fields : list (jsstring * json)).

(** The result of a property read: [None] is [undefined]. *)
Abbreviation jsvalue := (option json).

Fixpoint assoc (k : jsstring) (fs : list (jsstring * json)) : jsvalue :=
  match fs with
  | [] => None
  | (k', v) :: rest => if decide (k' = k) then Some v else assoc k rest
  end.

(** Writing an own property: in place when it exists, else appended. *)
Fixpoint set_field (k : jsstring) (v : json) (fs : list (jsstring * json))
  : list (jsstring * json) :=
  match fs with
  | [] => [(k, v)]
  | (k', v') :: rest =>
      if decide (k' = k) then (k, v) :: rest else (k', v') :: set_field k v rest
  end.

(** [v.k] and [v[k]] on a non-null [v], for the property names this program
    reads ([detailCache], [status], [classes], [detailUrl], [names] and
    absolute URLs): none of them is found on a prototype, so only an
    object's own properties answer. *)
Definition get (v : json) (k : jsstring) : jsvalue :=
  match v with
  | JObj fs => assoc k fs
  | _ => None
  end.

(** [v[k] = x] in sloppy mode, as far as [JSON.stringify] can tell: an
    object gains or updates the property, a primitive is left alone, and a
    named property put on an array is never serialised. *)
Definition assign (v : json) (k : jsstring) (x : json) : json :=
  match v with
  | JObj fs => JObj (set_field k x fs)
  | _ => v
  end.

(** ToBoolean. Apart from both zeros, NaN is the falsy number. *)
Definition truthy (v : jsvalue) : bool :=
  match v with
  | None | Some JNull => false
  | Some (JBool b) => b
  | Some (JNum bits) =>
      let m := bits mod 2 ^ 63 in (0 <? m) && (m <=? 2047 * 2 ^ 52)
  | Some (JStr s) => match s with [] => false | _ => true end
  | Some (JArr _) | Some (JObj _) => true
  end.

(** [JSON.parse(JSON.stringify(v))], what is read back from the text
    written for [v]. [JSON.stringify] writes [null] for NaN and for both
    infinities and [0] for both zeros; every other number is written with
    the digits that give the same binary64 value back. Strings, with a
    lone surrogate escaped, booleans and [null] come back as they are,
    lists and objects element by element, the properties in their
    order. *)
Fixpoint stringify_parse (v : json) : json :=
  match v with
  | JNum bits =>
      let m := bits mod 2 ^ 63 in
      if 2047 * 2 ^ 52 <=? m then JNull
      else if m =? 0 then JNum 0
      else JNum bits
  | JArr xs => JArr (stringify_parse <$> xs)
  | JObj fs => JObj ((λ kv, (kv.1, stringify_parse kv.2)) <$> fs)
  | _ => v
  end.

Fixpoint is_prefix (p s : jsstring) : bool :=
  match p, s with
  | [], _ => true
  | a :: p', b :: s' => (a =? b) && is_prefix p' s'
  | _ :: _, [] => false
  end.

(** [s.includes(x)] on strings. *)
Fixpoint is_substring (x s : jsstring) : bool :=
  is_prefix x s || match s with [] => false | _ :: t => is_substring x t end.

(** ** Outcomes and the world *)

(** A call returns or throws; an exception is known by its [message]. *)
Inductive outcome (A : Type) :=
| Ok (a : A)
| Throw (message : jsstring).
Arguments Ok {A} a.
Arguments Throw {A} message.

(** What the site answers to a GET: the request is rejected before
    a body is read, or it has a status and a body. *)
Inductive response :=
| NetFail (message : jsstring)          (* [fetch] or [res.text()] rejects *)
| Http (status : N) (body : jsstring).  (* [res.status], [res.text()] *)

(** A file of the cache directory: its text parses to [j], or reading or
    parsing it fails. *)
Inductive blob :=
| Unreadable
| Stored (j : json).

(** What a call did to the network and to the cache directory. *)
Inductive event :=
| Fetch (url : jsstring)
| ExistsFile (file : jsstring)
| ReadFile (file : jsstring)
| WriteFile (file : jsstring).

Record world := World {
  pages : jsstring → response;      (* the upstream site *)
  files : gmap jsstring blob;       (* the cache directory *)
  writable : jsstring → bool;       (* does [writeFileSync] succeed *)
  log : list event                  (* what was done so far, in order *)
}.

(** Code that fetches, reads or writes: from a world to an outcome and the
    world afterwards. *)
Definition M (A : Type) : Type := world → outcome A * world.

Definition ret {A} (a : A) : M A := λ w, (Ok a, w).
Definition throw {A} (msg : jsstring) : M A := λ w, (Throw msg, w).
Definition bind {A B} (m : M A) (k : A → M B) : M B := λ w,
  match m w with
  | (Ok a, w') => k a w'
  | (Throw msg, w') => (Throw msg, w')
  end.
(** [try { m } catch (err) { h(err.message) }] *)
Definition catch {A} (m : M A) (h : jsstring → M A) : M A := λ w,
  match m w with
  | (Ok a, w') => (Ok a, w')
  | (Throw msg, w') => h msg w'
  end.

#[export] Instance M_ret : MRet M := @ret.
#[export] Instance M_bind : MBind M := λ A B k m, bind m k.

(** Record an event. *)
Definition emit (e : event) : M unit := λ w,
  (Ok (), World (pages w) (files w) (writable w) (log w ++ [e])).

(** ** Name Cache Store *)

(** An upper-case hexadecimal digit. *)
Definition hex_digit (n : N) : N := if n <? 10 then 48 + n else 55 + n.

Definition pct (byte : N) : jsstring :=
  [37; hex_digit (byte / 16); hex_digit (byte mod 16)].

(** The UTF-8 octets of a code point, each percent-escaped. *)
Definition pct_utf8 (cp : N) : jsstring :=
  if cp <? 128 then pct cp
  else if cp <? 2048 then pct (192 + cp / 64) ++ pct (128 + cp mod 64)
  else if cp <? 65536 then
    pct (224 + cp / 4096) ++ pct (128 + cp / 64 mod 64) ++ pct (128 + cp mod 64)
  else
    pct (240 + cp / 262144) ++ pct (128 + cp / 4096 mod 64)
      ++ pct (128 + cp / 64 mod 64) ++ pct (128 + cp mod 64).

(** [A-Z a-z 0-9 - _ . ! ~ * ' ( )] *)
Definition uri_unreserved (c : N) : bool :=
  ((65 <=? c) && (c <=? 90)) || ((97 <=? c) && (c <=? 122)) || is_digit c
  || bool_decide (c ∈ [45; 95; 46; 33; 126; 42; 39; 40; 41]).

(** Surrogate code units. *)
Definition is_lead (c : N) : bool := (55296 <=? c) && (c <=? 56319).
Definition is_trail (c : N) : bool := (56320 <=? c) && (c <=? 57343).

(** [encodeURIComponent]; [None] is the URIError for a lone surrogate. *)
Fixpoint encodeURIComponent (s : jsstring) : option jsstring :=
  match s with
  | [] => Some []
  | c :: t =>
      if uri_unreserved c then (c ::.) <$> encodeURIComponent t
      else if is_trail c then None
      else if is_lead c then
        match t with
        | d :: t' =>
            if is_trail d then
              (pct_utf8 (65536 + (c - 55296) * 1024 + (d - 56320)) ++.)
                <$> encodeURIComponent t'
            else None
        | [] => None
        end
      else (pct_utf8 c ++.) <$> encodeURIComponent t
  end.

Definition uriError : jsstring := str "URI malformed".

Definition safeName (name : jsstring) : M jsstring :=
  match encodeURIComponent name with
  | Some enc => ret enc
  | None => throw uriError
  end.

(** The file of a name inside the cache directory. *)
Definition cacheFile (enc : jsstring) : jsstring := enc ++ str ".json".

(** [fs.existsSync(file)], then [JSON.parse(fs.readFileSync(file))] under
    its [try]. *)
Definition readCacheFile (file : jsstring) : M json := λ w,
  match files w !! file with
  | Some b =>
      (_ ← emit (ReadFile file);
       mret match b with Stored j => j | Unreadable => JObj [] end) w
  | None => (Ok (JObj []), w)
  end.

Definition loadCache (name : jsstring) : M json :=
  enc ← safeName name;
  let file := cacheFile enc in
  _ ← emit (ExistsFile file);
  readCacheFile file.

(** [fs.writeFileSync(file, JSON.stringify(data))] under its [try]: the
    file then holds the text of [data], which parses to
    [stringify_parse data]. *)
Definition writeCacheFile (file : jsstring) (data : json) : M unit := λ w,
  if writable w file
  then (Ok (), World (pages w)
                 (<[file := Stored (stringify_parse data)]> (files w))
                 (writable w) (log w))
  else (Ok (), w).

Definition saveCache (name : jsstring) (data : json) : M unit :=
  enc ← safeName name;
  let file := cacheFile enc in
  _ ← emit (WriteFile file);
  writeCacheFile file data.

(** ** Page Fetcher *)

Definition decimal (n : N) : jsstring :=
  str (NilZero.string_of_uint (N.to_uint n)).

(** What [fetchPage] makes of a response: the rejection of [fetch], the
    [!res.ok] error, or [res.text()]. *)
Definition read_response (url : jsstring) (r : response) : outcome jsstring :=
  match r with
  | NetFail msg => Throw msg
  | Http st body =>
      if (200 <=? st) && (st <=? 299) then Ok body
      else Throw (str "Failed to fetch " ++ url ++ str ": " ++ decimal st)
  end.

Definition respond (url : jsstring) : M jsstring := λ w,
  (read_response url (pages w url), w).

Definition fetchPage (url : jsstring) : M jsstring :=
  _ ← emit (Fetch url);
  respond url.

(** ** Risk Classifier and Search Orchestrator *)

Definition baseUrl : jsstring := str "https://www.trademarkelite.com".

Definition searchUrl (enc : jsstring) : jsstring :=
  baseUrl ++ str "/australia/trademark/trademark-search.aspx?sw=" ++ enc.

(** The object [parseDetail] returns, after [info.detailUrl = url]. *)
Definition detail_json (d : detail) (url : jsstring) : json :=
  JObj [(str "applicationNumber", JStr (applicationNumber d));
        (str "wordMark", JStr (wordMark d));
        (str "ownerName", JStr (ownerName d));
        (str "ownerAddress", JStr (ownerAddress d));
        (str "owner", JStr (owner d));
        (str "filingDate", JStr (filingDate d));
        (str "status", JStr (status d));
        (str "statusDesc", JStr (statusDesc d));
        (str "classes", JArr (JStr <$> classes d));
        (str "detailUrl", JStr url)].

(** [e === x] for a string [x]. *)
Definition is_str (x : jsstring) (e : json) : bool :=
  match e with
  | JStr s => bool_decide (s = x)
  | _ => false
  end.

(** [v.includes(x)] for a string [x]: array membership, substring search
    on a string, and a TypeError (with the message V8 gives it) for
    anything else. *)
Definition includes (v : jsvalue) (x : jsstring) : outcome bool :=
  match v with
  | Some (JArr xs) => Ok (existsb (is_str x) xs)
  | Some (JStr s) => Ok (is_substring x s)
  | None => Throw (str "Cannot read properties of undefined (reading 'includes')")
  | Some JNull => Throw (str "Cannot read properties of null (reading 'includes')")
  | Some _ => Throw (str "info.classes.includes is not a function")
  end.

(** [info.status === 'LIVE'] *)
Definition is_live (info : json) : bool :=
  match get info (str "status") with
  | Some e => is_str (str "LIVE") e
  | None => false
  end.

(** The variables of the loop of [processName]. *)
Record tally := Tally {
  details : list json;
  cached : json;
  hasLive : bool;
  hasRedMark : bool
}.

(** The [if (info.status === 'LIVE') { ... }] block, which both branches of
    the loop run on their record: the variables afterwards, and the
    message of the exception when [includes] throws. *)
Definition noteRisk (info : json) (st : tally) : tally * option jsstring :=
  if is_live info then
    let st1 := Tally (details st) (cached st) true (hasRedMark st) in
    let cls := get info (str "classes") in
    match includes cls (str "009") with
    | Throw msg => (st1, Some msg)
    | Ok includes009 =>
    match includes cls (str "028") with
    | Throw msg => (st1, Some msg)
    | Ok includes028 =>
    match includes cls (str "041") with
    | Throw msg => (st1, Some msg)
    | Ok includes041 =>
        if includes009 || includes028 || includes041
        then (Tally (details st) (cached st) true true, None)
        else (st1, None)
    end end end
  else (st, None).

(** [if (cached[url])]: the cached record when it is truthy. *)
Definition cachedInfo (cached : json) (url : jsstring) : option json :=
  match get cached url with
  | Some info => if truthy (Some info) then Some info else None
  | None => None
  end.

(** The reused record is pushed after [detailUrl] is filled in when it is
    missing; [info] is the object held by [cached], which therefore sees
    the same assignment. *)
Definition reuse (url : jsstring) (info : json) (st : tally) : json * tally :=
  if truthy (get info (str "detailUrl"))
  then (info, Tally (details st ++ [info]) (cached st) (hasLive st) (hasRedMark st))
  else
    let info' := assign info (str "detailUrl") (JStr url) in
    (info', Tally (details st ++ [info']) (assign (cached st) url info')
              (hasLive st) (hasRedMark st)).

(** [{ error: `Error processing detail page: ${err.message}` }] *)
Definition errorRecord (msg : jsstring) : json :=
  JObj [(str "error", JStr (str "Error processing detail page: " ++ msg))].

Definition pushError (msg : jsstring) (st : tally) : tally :=
  Tally (details st ++ [errorRecord msg]) (cached st) (hasLive st) (hasRedMark st).

(** The [try { fetch, parse, push, cache, note } catch { push error }] of
    one uncached link; what the [try] did before an exception stays done. *)
Definition fetchDetail (url : jsstring) (st : tally) : M tally := λ w,
  match fetchPage url w with
  | (Throw msg, w') => (Ok (pushError msg st), w')
  | (Ok html, w') =>
      let info := detail_json (parseDetail html) url in
      let st1 := Tally (details st ++ [info]) (assign (cached st) url info)
                   (hasLive st) (hasRedMark st) in
      match noteRisk info st1 with
      | (st2, None) => (Ok st2, w')
      | (st2, Some msg) => (Ok (pushError msg st2), w')
      end
  end.

(** The body of [for (const relLink of detailLinks)]: a TypeError in the
    cached branch is not caught. *)
Definition visitLink (relLink : jsstring) (st : tally) : M tally :=
  let url := baseUrl ++ relLink in
  match cachedInfo (cached st) url with
  | Some info0 =>
      let '(info, st1) := reuse url info0 st in
      match noteRisk info st1 with
      | (st2, None) => mret st2
      | (_, Some msg) => throw msg
      end
  | None => fetchDetail url st
  end.

Fixpoint visitLinks (detailLinks : list jsstring) (st : tally) : M tally :=
  match detailLinks with
  | [] => mret st
  | relLink :: rest =>
      st' ← visitLink relLink st;
      visitLinks rest st'
  end.

(** [cache && cache.detailCache ? cache.detailCache : {}] *)
Definition detailCacheOf (cache : json) : json :=
  if truthy (Some cache) && truthy (get cache (str "detailCache"))
  then default (JObj []) (get cache (str "detailCache"))
  else JObj [].

(** The [try { loadCache } catch { cached = {} }] of [processName]. *)
Definition loadCached (name : jsstring) : M json :=
  catch (cache ← loadCache name; mret (detailCacheOf cache))
        (λ _, mret (JObj [])).

(** [{ score, explanation, details }] *)
Record SearchResult := Result {
  score : jsstring;
  explanation : jsstring;
  result_details : list json
}.

(** The [if (!hasLive) ... else if (hasRedMark) ... else ...] that ends
    [processName]. *)
Definition summarise (st : tally) : SearchResult :=
  if negb (hasLive st) then
    Result (str "Green")
      (str "No live trademark registrations were found for this name.")
      (details st)
  else if hasRedMark st then
    Result (str "Red")
      (str "At least one live filing lists classes 009, 028 or 041.")
      (details st)
  else
    Result (str "Yellow")
      (str "Live filings exist, but none contain 009, 028 or 041.")
      (details st).

Definition processName (name : jsstring) : M SearchResult :=
  enc ← safeName name;
  searchHtml ← fetchPage (searchUrl enc);
  let detailLinks := extractDetailLinks searchHtml in
  cache ← loadCached name;
  st ← visitLinks detailLinks (Tally [] cache false false);
  _ ← saveCache name (JObj [(str "detailCache", cached st)]);
  mret (summarise st).

(** ** The [/api/search] handler *)

Definition result_json (r : SearchResult) : json :=
  JObj [(str "score", JStr (score r));
        (str "explanation", JStr (explanation r));
        (str "details", JArr (result_details r))].

(** The body of the batch loop: the value assigned to [result[n]]. *)
Definition nameEntry (n : jsstring) : M json :=
  catch (info ← processName n; mret (result_json info))
        (λ msg, mret (JObj [(str "error", JStr msg)])).

(** [result[n] = v] on the plain object [result], for an object [v]: the
    name [__proto__] reaches the setter of [Object.prototype], which
    replaces the prototype and adds no own property; [JSON.stringify]
    serialises own properties only. *)
Definition setResult (result : gmap jsstring json) (n : jsstring) (v : json)
  : gmap jsstring json :=
  if decide (n = str "__proto__") then result else <[n := v]> result.

Fixpoint searchAll (list : list jsstring) (result : gmap jsstring json)
  : M (gmap jsstring json) :=
  match list with
  | [] => mret result
  | n :: rest =>
      v ← nameEntry n;
      searchAll rest (setResult result n v)
  end.

(** [names.split(/[\n,]+/).map(s => s.trim()).filter(Boolean)] *)
Definition nameList (names : jsstring) : list jsstring :=
  filter_nonempty (trim <$> split namesSplitRe names).

Inductive reply :=
| BadRequest (error : jsstring)             (* status 400, [{error}] *)
| Results (result : gmap jsstring json).    (* status 200 *)

(** The message that [names] is missing or invalid; the quotes around
    [names] are code unit 34. *)
Definition missingNames : jsstring :=
  str "Missing or invalid " ++ [34] ++ str "names" ++ [34] ++ str " field.".

(** The POST handler, from [data = JSON.parse(body || '{}')]; [None] is a
    body that does not parse. *)
Definition apiSearch (data : option json) : M reply :=
  match data with
  | None | Some JNull => mret (BadRequest (str "Invalid JSON body."))
  | Some d =>
      match get d (str "names") with
      | Some (JStr (c :: names')) =>
          result ← searchAll (nameList (c :: names')) ∅;
          mret (Results result)
      | _ => mret (BadRequest missingNames)
      end
  end.

(** ** The server without a cache

    The second server of [server.js]: the same [fetchPage],
    [extractDetailLinks] and handler, a [processName] that fetches every
    detail page on every call, and a [parseDetail] whose owner pattern
    spells the arrow with other units. *)

Module NoCache.

(** [/\s*[-]+>\s*|\s*A\s*|\s*&gt;\s*/i], where A stands for the three
    units U+00E2 U+2020 U+2019. Under the [i] flag the first of them
    matches itself and its upper case U+00C2, which the ASCII
    [canonicalize] does not relate: the class lists both. The other two
    have no other case. *)
Definition arrowSplitRe : regexp :=
  insensitive
    (Alt arrow
       (Alt (cat [Star true (One Space); Class false [Ch 226; Ch 194];
                  One (Ch 8224); One (Ch 8217); Star true (One Space)])
            (cat [Star true (One Space); Lit "&gt;"; Star true (One Space)]))).

(** The owner block of [parseDetail], from the captured cell. *)
Definition parseOwner (tdHtml : jsstring) : jsstring * jsstring :=
  match ownerParts tdHtml with
  | name :: rest =>
      (name, match rest with [] => [] | _ => join (str " ") rest end)
  | [] =>
      let cleaned := cleanText tdHtml in
      match filter_nonempty (split arrowSplitRe cleaned) with
      | name :: rest =>
          (trim name,
           match rest with [] => [] | _ => trim (join (str " ") rest) end)
      | [] => (trim (replace arrowRe (str " ") cleaned), [])
      end
  end.

Definition parseDetail (html : jsstring) : detail :=
  let applicationNumber := extractTableValue html "Application Number" in
  let wordMark := extractTableValue html "Word Mark" in
  let filingDate := extractTableValue html "Filing Date" in
  let '(ownerName, ownerAddress) :=
    match match1 (cellRe ownerLabel) html with
    | Some tdHtml => parseOwner tdHtml
    | None => ([], [])
    end in
  let status := parseStatus html in
  let statusDesc :=
    match match1 currentStatusRe html with
    | Some d => trim d
    | None => []
    end in
  let classes := set_from ((λ m, group1 m.2) <$> scan classRe html 0) in
  let owner :=
    match ownerAddress with
    | [] => ownerName
    | _ => ownerName ++ str ", " ++ ownerAddress
    end in
  Detail applicationNumber wordMark ownerName ownerAddress owner filingDate
    status statusDesc classes.

(** The variables of the loop of [processName]. *)
Record tally := Tally {
  details : list json;
  hasLive : bool;
  hasRedMark : bool
}.

(** The [if (info.status === 'LIVE') { ... }] block: the variables
    afterwards, and the message of the exception when [includes] throws. *)
Definition noteRisk (info : json) (st : tally) : tally * option jsstring :=
  if is_live info then
    let st1 := Tally (details st) true (hasRedMark st) in
    let cls := get info (str "classes") in
    match includes cls (str "009") with
    | Throw msg => (st1, Some msg)
    | Ok includes009 =>
    match includes cls (str "028") with
    | Throw msg => (st1, Some msg)
    | Ok includes028 =>
    match includes cls (str "041") with
    | Throw msg => (st1, Some msg)
    | Ok includes041 =>
        if includes009 || includes028 || includes041
        then (Tally (details st) true true, None)
        else (st1, None)
    end end end
  else (st, None).

Definition pushError (msg : jsstring) (st : tally) : tally :=
  Tally (details st ++ [errorRecord msg]) (hasLive st) (hasRedMark st).

(** The body of [for (const relLink of detailLinks)], all of it under the
    [try]; what the [try] did before an exception stays done. *)
Definition visitLink (relLink : jsstring) (st : tally) : M tally := λ w,
  let url := baseUrl ++ relLink in
  match fetchPage url w with
  | (Throw msg, w') => (Ok (pushError msg st), w')
  | (Ok html, w') =>
      let info := detail_json (parseDetail html) url in
      let st1 := Tally (details st ++ [info]) (hasLive st) (hasRedMark st) in
      match noteRisk info st1 with
      | (st2, None) => (Ok st2, w')
      | (st2, Some msg) => (Ok (pushError msg st2), w')
      end
  end.

Fixpoint visitLinks (detailLinks : list jsstring) (st : tally) : M tally :=
  match detailLinks with
  | [] => mret st
  | relLink :: rest =>
      st' ← visitLink relLink st;
      visitLinks rest st'
  end.

(** The [if (!hasLive) ... else if (hasRedMark) ... else ...] that ends
    [processName]. *)
Definition summarise (st : tally) : SearchResult :=
  if negb (hasLive st) then
    Result (str "Green")
      (str "No live trademark registrations were found for this name.")
      (details st)
  else if hasRedMark st then
    Result (str "Red")
      (str "At least one live filing lists classes 009, 028 or 041.")
      (details st)
  else
    Result (str "Yellow")
      (str "Live filings exist, but none contain 009, 028 or 041.")
      (details st).

Definition processName (name : jsstring) : M SearchResult :=
  enc ← safeName name;
  searchHtml ← fetchPage (searchUrl enc);
  let detailLinks := extractDetailLinks searchHtml in
  st ← visitLinks detailLinks (Tally [] false false);
  mret (summarise st).

End NoCache.

(** * Specification vocabulary *)

(** ** Patterns as languages *)
(** The language of a pattern: the strings it matches, regardless of the
    order in which the matcher finds them. An iteration of a star is never
    empty: such iterations add nothing to the language and the matcher
    rejects them. *)
Inductive lang (icase : bool) : regex → jsstring → Prop :=
| lang_eps : lang icase Eps []
| lang_one x a : citem_mem icase x a = true → lang icase (One x) [a]
| lang_class neg xs a :
    xorb neg (existsb (λ x, citem_mem icase x a) xs) = true →
    lang icase (Class neg xs) [a]
| lang_seq r1 r2 w1 w2 :
    lang icase r1 w1 → lang icase r2 w2 → lang icase (Seq r1 r2) (w1 ++ w2)
| lang_alt_l r1 r2 w : lang icase r1 w → lang icase (Alt r1 r2) w
| lang_alt_r r1 r2 w : lang icase r2 w → lang icase (Alt r1 r2) w
| lang_star_stop g r : lang icase (Star g r) []
| lang_star_more g r w1 w2 :
    w1 ≠ [] → lang icase r w1 → lang icase (Star g r) w2 →
    lang icase (Star g r) (w1 ++ w2)
| lang_group r w : lang icase r w → lang icase (Group r) w.

(** The language of a compiled regular expression. *)
Definition langOf (re : regexp) : jsstring → Prop :=
  lang (ignoreCase re) (pattern re).

(** A pattern that matches exactly the single code units satisfying [P]. *)
Definition one_of (i : bool) (r : regex) (P : N → bool) : Prop :=
  ∀ w, lang i r w ↔ ∃ a, w = [a] ∧ P a = true.

(** Equality up to the case of ASCII letters. *)
Definition ci_equal (w word : jsstring) : Prop :=
  canonicalize <$> w = canonicalize <$> word.

(** ** Deduplication and detail links *)
(** What a Set-based deduplication is meant to compute: every value once,
    at the place of its first occurrence. *)
Fixpoint first_occurrences (xs : list jsstring) : list jsstring :=
  match xs with
  | [] => []
  | x :: t => x :: filter (λ y, y ≠ x) (first_occurrences t)
  end.

(** [x] occurs in [xs] at index [i] and nowhere before. *)
Definition first_at (xs : list jsstring) (i : nat) (x : jsstring) : Prop :=
  xs !! i = Some x ∧ ∀ k y, xs !! k = Some y → (k < i)%nat → y ≠ x.

Definition occurs_in (p html : jsstring) : Prop :=
  ∃ pre post, html = pre ++ p ++ post.

(** [/australia/trademark/trademark-detail/] in any letter case, one or
    more digits, a slash, and one or more code units that are no double
    quote, single quote or [>]. *)
Definition detail_path (p : jsstring) : Prop :=
  ∃ pre ds slug,
    p = pre ++ ds ++ 47 :: slug
    ∧ ci_equal pre (str "/australia/trademark/trademark-detail/")
    ∧ ds ≠ [] ∧ Forall (λ c, is_digit c = true) ds
    ∧ slug ≠ [] ∧ Forall (λ c, c ∉ [34; 39; 62]) slug.

(** ** Status words *)
(** [word], in any letter case, with a whitespace code unit right before
    it and right after it. *)
Definition ws_delimited (word html : jsstring) : Prop :=
  ∃ pre a w b post,
    html = pre ++ a :: w ++ b :: post
    ∧ is_space a = true ∧ is_space b = true ∧ ci_equal w word.

Definition is_word_char (c : N) : bool :=
  is_digit c || ((65 <=? c) && (c <=? 90)) || ((97 <=? c) && (c <=? 122))
  || (c =? 95).

(** [word], in any letter case, as a whole word: no word character right
    before it or right after it. *)
Definition whole_word (word html : jsstring) : Prop :=
  ∃ pre w post,
    html = pre ++ w ++ post ∧ ci_equal w word
    ∧ (∀ c, last pre = Some c → is_word_char c = false)
    ∧ (∀ c, head post = Some c → is_word_char c = false).

(** ** Worlds, records and visits *)
(** [w] after the events [es]. *)
Definition logged (es : list event) (w : world) : world :=
  World (pages w) (files w) (writable w) (log w ++ es).

(** The value of [cached] that [processName] starts from. *)
Definition parsedCache (b : option blob) : json :=
  match b with
  | Some (Stored j) => j
  | _ => JObj []
  end.

Definition storedCache (w : world) (enc : jsstring) : json :=
  detailCacheOf (parsedCache (files w !! cacheFile enc)).

(** What [loadCache] does to the cache directory. *)
Definition loadEvents (w : world) (enc : jsstring) : list event :=
  ExistsFile (cacheFile enc)
    :: match files w !! cacheFile enc with
       | Some _ => [ReadFile (cacheFile enc)]
       | None => []
       end.

(** [w] after [saveCache] of [data] for the name encoded as [enc]. *)
Definition saved (w : world) (enc : jsstring) (data : json) : world :=
  if writable w (cacheFile enc)
  then World (pages w)
         (<[cacheFile enc := Stored (stringify_parse data)]> (files w))
         (writable w) (log w ++ [WriteFile (cacheFile enc)])
  else logged [WriteFile (cacheFile enc)] w.

(** What the [if (info.status === 'LIVE')] block finds in a record: is it
    live, and does a live record list a flagged class; or the TypeError. *)
Definition risk (info : json) : outcome (bool * bool) :=
  if is_live info then
    let cls := get info (str "classes") in
    match includes cls (str "009"), includes cls (str "028"),
          includes cls (str "041") with
    | Ok a, Ok b, Ok c => Ok (true, a || b || c)
    | Throw msg, _, _ | Ok _, Throw msg, _ | Ok _, Ok _, Throw msg => Throw msg
    end
  else Ok (false, false).

(** The two flags a record raises. *)
Definition live (d : json) : bool := is_live d.
Definition red (d : json) : bool :=
  match risk d with Ok (_, r) => r | Throw _ => false end.

(** The loop variables after the record [d] was pushed and noted, with the
    cache mapping [c]. *)
Definition noted (d : json) (c : json) (st : tally) : tally :=
  Tally (details st ++ [d]) c (hasLive st || live d) (hasRedMark st || red d).

(** [baseUrl + relLink] *)
Definition linkUrl (relLink : jsstring) : jsstring := baseUrl ++ relLink.

(** [if (!info.detailUrl) info.detailUrl = url] *)
Definition backfill (url : jsstring) (info : json) : json :=
  if truthy (get info (str "detailUrl")) then info
  else assign info (str "detailUrl") (JStr url).

(** What visiting one link yields: the record pushed to [details], whether
    the detail page was fetched, and the value assigned into the cache
    mapping under the URL, if any. *)
Record visit := Visit {
  v_detail : json;
  v_fetched : bool;
  v_store : option json
}.

(** A cached value the loop reuses: a truthy one. *)
Definition usable (v : jsvalue) : option json :=
  match v with
  | Some info => if truthy (Some info) then Some info else None
  | None => None
  end.

(** The visit of [url] when the cache mapping holds [v] under it and the
    site answers as [pg] says. *)
Definition visitOf (pg : jsstring → response) (url : jsstring) (v : jsvalue)
  : outcome visit :=
  match usable v with
  | Some info0 =>
      let info := backfill url info0 in
      match risk info with
      | Throw msg => Throw msg
      | Ok _ =>
          Ok (Visit info false
                (if truthy (get info0 (str "detailUrl")) then None else Some info))
      end
  | None =>
      match read_response url (pg url) with
      | Throw msg => Ok (Visit (errorRecord msg) true None)
      | Ok html =>
          let info := detail_json (parseDetail html) url in
          Ok (Visit info true (Some info))
      end
  end.

(** The cache mapping after a visit. *)
Definition store (c : json) (url : jsstring) (upd : option json) : json :=
  match upd with
  | Some x => assign c url x
  | None => c
  end.

(** A value that takes property assignments. *)
Definition is_object (c : json) : bool :=
  match c with JObj _ => true | _ => false end.

(** The cache mapping after the visits [vs] of [links]. *)
Fixpoint stores (c : json) (links : list jsstring) (vs : list visit) : json :=
  match links, vs with
  | rel :: links', v :: vs' => stores (store c (linkUrl rel) (v_store v)) links' vs'
  | _, _ => c
  end.

(** The detail URLs the loop fetched. *)
Fixpoint fetchedUrls (links : list jsstring) (vs : list visit) : list jsstring :=
  match links, vs with
  | rel :: links', v :: vs' =>
      (if v_fetched v then [linkUrl rel] else []) ++ fetchedUrls links' vs'
  | _, _ => []
  end.

Definition fetchEvents (links : list jsstring) (vs : list visit) : list event :=
  Fetch <$> fetchedUrls links vs.

(** [vs] are the visits of [links] when every URL is looked up in [c]. *)
Definition visited (pg : jsstring → response) (c : json)
  (links : list jsstring) (vs : list visit) : Prop :=
  Forall2 (λ rel v, visitOf pg (linkUrl rel) (get c (linkUrl rel)) = Ok v) links vs.

(** The loop variables after the records [ds], with the cache mapping [c]. *)
Definition tallied (st : tally) (ds : list json) (c : json) : tally :=
  Tally (details st ++ ds) c
    (hasLive st || existsb live ds) (hasRedMark st || existsb red ds).

(** [v] is read back as it was written: it holds no NaN, no infinity and
    no negative zero. *)
Definition round_trips (v : json) : Prop := stringify_parse v = v.

(** ** The classification, in the words of the specification *)
(** [code] is an element of the list [xs]. *)
Definition lists (xs : list json) (code : string) : bool :=
  existsb (is_str (str code)) xs.

(** The record's [classes] is a list containing 009, 028 or 041. *)
Definition has_flagged_class (d : json) : bool :=
  match get d (str "classes") with
  | Some (JArr xs) => lists xs "009" || lists xs "028" || lists xs "041"
  | _ => false
  end.

(** Green when no record is live, Red when a live record lists a flagged
    class, Yellow otherwise, each with its sentence. *)
Definition spec_summary (ds : list json) : jsstring * jsstring :=
  if negb (existsb is_live ds) then
    (str "Green", str "No live trademark registrations were found for this name.")
  else if existsb (λ d, is_live d && has_flagged_class d) ds then
    (str "Red", str "At least one live filing lists classes 009, 028 or 041.")
  else
    (str "Yellow", str "Live filings exist, but none contain 009, 028 or 041.").

(** A live record's [classes] is a list, as [parseDetail] makes it. *)
Definition classes_ok (d : json) : Prop :=
  is_live d = true → ∃ xs, get d (str "classes") = Some (JArr xs).

(** Every record of a cache mapping is so. *)
Definition cache_ok (c : json) : Prop :=
  ∀ url info, get c url = Some info → classes_ok info.

(** The risk block of the loop run over a list of records, then the
    summary: the classification as a function of the records alone. *)
Fixpoint tallyAll (ds : list json) (st : tally) : tally * option jsstring :=
  match ds with
  | [] => (st, None)
  | d :: rest =>
      match noteRisk d st with
      | (st1, None) => tallyAll rest st1
      | thrown => thrown
      end
  end.

Definition classify (ds : list json) : outcome (jsstring * jsstring) :=
  match tallyAll ds (Tally ds (JObj []) false false) with
  | (st, None) => Ok (score (summarise st), explanation (summarise st))
  | (_, Some msg) => Throw msg
  end.

(** The score and explanation [summarise] gives for two flags. *)
Definition summary_of (hl hr : bool) : jsstring * jsstring :=
  let r := summarise (Tally [] JNull hl hr) in (score r, explanation r).

(** The risk block does not throw on [d]. *)
Definition risk_ok (d : json) : Prop := ∃ lr, risk d = Ok lr.

(** ** A call of [processName] *)
(** The loop variables, the cache mapping and the world of a call of
    [processName] that fetched its search page and visited [links] as
    [vs]. *)
Definition startTally (w : world) (enc : jsstring) : tally :=
  Tally [] (storedCache w enc) false false.

Definition endCache (w : world) (enc : jsstring) (links : list jsstring)
  (vs : list visit) : json :=
  stores (storedCache w enc) links vs.

Definition endWorld (w : world) (enc : jsstring) (links : list jsstring)
  (vs : list visit) : world :=
  saved (logged (Fetch (searchUrl enc) :: loadEvents w enc ++ fetchEvents links vs) w)
    enc (JObj [(str "detailCache", endCache w enc links vs)]).

(** ** The batch and sample worlds *)
(** [{ error: err.message }] *)
Definition errorEntry (msg : jsstring) : json := JObj [(str "error", JStr msg)].

(** A site that cannot be reached, with an empty cache directory. *)
Definition deadSite : world :=
  World (λ _, NetFail (str "fetch failed")) ∅ (λ _, true) [].

(** A site with two filings for one name: the first page is live in class
    028, the second answers 404. *)
Definition demoSearch : jsstring :=
  str "<a href='/australia/trademark/trademark-detail/1/a'>A</a> <a href='/australia/trademark/trademark-detail/2/b'>B</a>".

Definition demoPages (url : jsstring) : response :=
  if decide (url = searchUrl (str "acme%20toys")) then Http 200 demoSearch
  else if decide (url = linkUrl (str "/australia/trademark/trademark-detail/1/a"))
  then Http 200 (str "<th>Word Mark</th><td>ACME</td> status: LIVE , Class 028")
  else if decide (url = linkUrl (str "/australia/trademark/trademark-detail/2/b"))
  then Http 404 []
  else NetFail (str "fetch failed").

Definition demoSite : world := World demoPages ∅ (λ _, true) [].

(** Two records, one live in a flagged class. *)
Definition liveToy : json :=
  JObj [(str "status", JStr (str "LIVE")); (str "classes", JArr [JStr (str "028")])].
Definition deadToy : json :=
  JObj [(str "status", JStr (str "DEAD")); (str "classes", JArr [JStr (str "009")])].

(** The same site with a cache file whose record has no [classes]. *)
Definition staleCache : json :=
  JObj [(str "detailCache",
         JObj [(linkUrl (str "/australia/trademark/trademark-detail/1/a"),
                JObj [(str "status", JStr (str "LIVE"))])])].

Definition staleSite : world :=
  World demoPages {[ str "acme%20toys.json" := Stored staleCache ]} (λ _, true) [].

(** The values the batch loop assigns, in list order, each name processed
    in the world the previous one left. *)
Fixpoint entries (names : list jsstring) (w : world) : list json * world :=
  match names with
  | [] => ([], w)
  | n :: rest =>
      match nameEntry n w with
      | (Ok v, w1) => let '(vs, w2) := entries rest w1 in (v :: vs, w2)
      | (Throw _, w1) => ([], w1)
      end
  end.

(** The value of the last occurrence of [n] among the processed names. *)
Definition lastEntry (n : jsstring) (names : list jsstring) (vs : list json)
  : option json :=
  snd <$> last (filter (λ p, p.1 = n) (zip names vs)).

(** A site whose pages link to no filing. *)
Definition emptySite : world :=
  World (λ _, Http 200 (str "<html>no results</html>")) ∅ (λ _, true) [].

(** Every number in [v] is finite and no negative zero. *)
Fixpoint exact_numbers (v : json) : bool :=
  match v with
  | JNum bits =>
      (bits mod 2 ^ 63 <? 2047 * 2 ^ 52)
      && ((bits =? 0) || negb (bits mod 2 ^ 63 =? 0))
  | JArr xs => forallb exact_numbers xs
  | JObj fs => forallb (λ kv, exact_numbers kv.2) fs
  | _ => true
  end.

(** ** Runs of code units *)
(** The longest prefix of [s] whose code units satisfy [P], and what
    follows it. *)
Fixpoint leading (P : N → bool) (s : jsstring) : jsstring :=
  match s with
  | a :: t => if P a then a :: leading P t else []
  | [] => []
  end.

Fixpoint beyond (P : N → bool) (s : jsstring) : jsstring :=
  match s with
  | a :: t => if P a then beyond P t else s
  | [] => []
  end.

(** A pattern that consumes exactly one code unit, any that satisfies
    [P]. *)
Definition char_step (i : bool) (r : regex) (P : N → bool) : Prop :=
  ∀ s c, run i r s c
         = match s with
           | a :: t => if P a then [(t, c)] else []
           | [] => []
           end.

(** ** Splitting at separators *)
(** The pieces of [s] between the code units that satisfy [sep], each such
    unit a separator of its own: two in a row enclose an empty piece. *)
Fixpoint fields (sep : N → bool) (s : jsstring) : list jsstring :=
  match s with
  | [] => [[]]
  | a :: t =>
      if sep a then [] :: fields sep t
      else match fields sep t with
           | f :: fs => (a :: f) :: fs
           | [] => [[a]]
           end
  end.

(** [p] put in front of the first piece. *)
Definition glue (p : jsstring) (fs : list jsstring) : list jsstring :=
  match fs with
  | f :: fs' => (p ++ f) :: fs'
  | [] => [p]
  end.

(** A comma or a line feed. *)
Definition is_separator (c : N) : bool := (c =? 10) || (c =? 44).

(** No white space at either end. *)
Definition trimmed (s : jsstring) : Prop :=
  (∀ a, head s = Some a → is_space a = false)
  ∧ (∀ a, last s = Some a → is_space a = false).

(** A name as the batch loop receives it: not empty, without white space
    at either end, and free of commas and line feeds. *)
Definition clean_name (n : jsstring) : Prop :=
  n ≠ [] ∧ trimmed n ∧ Forall (λ c, is_separator c = false) n.

(** White space, a comma or a line feed. *)
Definition is_blank (c : N) : bool := is_space c || is_separator c.

(** ** Class codes *)
(** [code] is three digits that follow the word Class, in any letter case,
    and any white space after it, somewhere in the markup. *)
Definition class_code_in (code html : jsstring) : Prop :=
  ∃ pre kw ws post,
    html = pre ++ kw ++ ws ++ code ++ post
    ∧ ci_equal kw (str "Class")
    ∧ Forall (λ a, is_space a = true) ws
    ∧ length code = 3%nat ∧ Forall (λ a, is_digit a = true) code.

(** ** Clean text *)
(** Runs of white space replaced by one U+0020 each; [in_run] says that the
    unit before was white space. *)
Fixpoint collapse (in_run : bool) (s : jsstring) : jsstring :=
  match s with
  | [] => []
  | a :: t =>
      if is_space a then (if in_run then [] else [32]) ++ collapse true t
      else a :: collapse false t
  end.

(** Every white-space unit is a U+0020 with no white space after it. *)
Definition single_spaced (s : jsstring) : Prop :=
  ∀ u a v, s = u ++ a :: v → is_space a = true →
    a = 32 ∧ ∀ b, head v = Some b → is_space b = false.

(** No [<] has a [>] after it: the text holds no complete tag. *)
Definition tagless (s : jsstring) : Prop :=
  ∀ u v w, s ≠ u ++ 60 :: v ++ 62 :: w.

(** Text as the cells of a filing are reported. *)
Definition clean_text (s : jsstring) : Prop :=
  trimmed s ∧ single_spaced s ∧ tagless s.

(** [y] is [x] with units left out and U+0020 units put in. *)
Inductive thinned : jsstring → jsstring → Prop :=
| thinned_nil : thinned [] []
| thinned_drop a y x : thinned y x → thinned y (a :: x)
| thinned_keep a y x : thinned y x → thinned (a :: y) (a :: x)
| thinned_space y x : thinned y x → thinned (32 :: y) x.

(** ** Labels *)
(** [word] occurs in the markup, in any letter case. *)
Definition mentions (html : jsstring) (word : string) : bool :=
  is_substring (canonicalize <$> str word) (canonicalize <$> html).

(** ** What a call touches *)
(** The events of a call of [processName] for the name encoded as [enc]:
    the search page, detail pages of the site, and the cache file of the
    name. *)
Definition own_event (enc : jsstring) (e : event) : Prop :=
  e = Fetch (searchUrl enc)
  ∨ (∃ rel, detail_path rel ∧ e = Fetch (baseUrl ++ rel))
  ∨ e ∈ [ExistsFile (cacheFile enc); ReadFile (cacheFile enc);
         WriteFile (cacheFile enc)].

(** The record that [details] holds for a link: the cached record when
    the cache mapping the call started from has a truthy value under the
    URL, else the parsed page or the error of its fetch. *)
Definition row (pg : jsstring → response) (c : json) (relLink : jsstring)
  (d : json) : Prop :=
  let url := baseUrl ++ relLink in
  match usable (get c url) with
  | Some info => d = backfill url info
  | None =>
      match read_response url (pg url) with
      | Ok page => d = detail_json (parseDetail page) url
      | Throw msg => d = errorRecord msg
      end
  end.

(** Surrogates come in pairs, a lead followed by a trail; [after_lead]
    says that the unit before was a lead. *)
Fixpoint paired (after_lead : bool) (s : jsstring) : bool :=
  match s with
  | [] => negb after_lead
  | c :: t =>
      if after_lead then is_trail c && paired false t
      else if is_trail c then false
      else paired (is_lead c) t
  end.

Definition well_formed (s : jsstring) : bool := paired false s.

(** A cache file whose [detailCache] is an empty list. *)
Definition stuckSite : world :=
  World demoPages
    {[ str "acme%20toys.json" := Stored (JObj [(str "detailCache", JArr [])]) ]}
    (λ _, true) [].

(** The visits of the links when none is cached. *)
Definition fetchVisit (pg : jsstring → response) (rel : jsstring) : visit :=
  match read_response (linkUrl rel) (pg (linkUrl rel)) with
  | Ok page =>
      let info := detail_json (parseDetail page) (linkUrl rel) in
      Visit info true (Some info)
  | Throw msg => Visit (errorRecord msg) true None
  end.

(** An infinity or NaN, which [JSON.stringify] writes as [null]. *)
Definition infinite (v : json) : bool :=
  match v with
  | JNum bits => 2047 * 2 ^ 52 <=? bits mod 2 ^ 63
  | _ => false
  end.

(** ** Cache file names *)
(** A JavaScript string: every unit is a 16-bit code unit. *)
Definition code_units (s : jsstring) : Prop := Forall (λ c, c < 65536) s.

(** The units [encodeURIComponent] writes: the unreserved ones and the
    percent sign. *)
Definition uri_safe (c : N) : bool := uri_unreserved c || (c =? 37).

(** ** The server without a cache *)
(** A page whose owner cell spells the arrow with U+2192. *)
Definition arrowPage : jsstring :=
  str "<th>Trademark Owner</th><td>Acme Pty Ltd " ++ [8594] ++ str " Sydney</td>".

(** The record the cache-less loop pushes for a link: the parsed page, or
    the error of its fetch. *)
Definition plainRow (pg : jsstring → response) (relLink : jsstring) : json :=
  let url := baseUrl ++ relLink in
  match read_response url (pg url) with
  | Ok page => detail_json (NoCache.parseDetail page) url
  | Throw msg => errorRecord msg
  end.

(** ** Owner cells *)
(** Plain text: words with single U+0020 units between them, free of
    [<], [>], [&], the arrow U+2192 and the dagger U+2020. *)
Definition plain (s : jsstring) : Prop :=
  s ≠ [] ∧ trimmed s ∧ single_spaced s
  ∧ Forall (λ c, c ∉ [60; 62; 38; 8594; 8224]) s.

Fixpoint spacedb (s : jsstring) : bool :=
  match s with
  | [] => true
  | c :: t =>
      (negb (is_space c)
       || ((c =? 32)
           && match head t with Some d => negb (is_space d) | None => true end))
      && spacedb t
  end.

Definition plainb (s : jsstring) : bool :=
  match s with
  | [] => false
  | _ =>
      match head s with Some a => negb (is_space a) | None => true end
      && match last s with Some a => negb (is_space a) | None => true end
      && spacedb s
      && forallb (λ c, negb (bool_decide (c ∈ [60; 62; 38; 8594; 8224]))) s
  end.

(** Does an arrow of the owner pattern begin at the start of [t]: after
    any white space, the arrow U+2192, an ampersand, or hyphens and then
    [>]. *)
Definition arrow_start (t : jsstring) : bool :=
  match beyond is_space t with
  | c :: t1 =>
      (c =? 8594) || (c =? 38)
      || ((c =? 45)
          && match beyond (λ a, a =? 45) t1 with
             | d :: _ => d =? 62
             | [] => false
             end)
  | [] => false
  end.

(** ** Links in the markup *)
(** The link that begins at unit [p] of the markup: a detail path that
    runs up to the next double quote, single quote or [>], or to the end
    of the markup. *)
Definition link_at (html : jsstring) (p : nat) (l : jsstring) : Prop :=
  ∃ pre post,
    html = pre ++ l ++ post ∧ length pre = p ∧ detail_path l
    ∧ ∀ c, head post = Some c → c ∈ [34; 39; 62].

(** Unit [p] lies inside a link that begins before it. *)
Definition inside_link (html : jsstring) (p : nat) : Prop :=
  ∃ q l, link_at html q l ∧ (q < p < q + length l)%nat.

(** The links a reading of the markup from left to right reports: a link
    that begins inside an earlier one is part of that one. *)
Definition link_found (html : jsstring) (p : nat) (l : jsstring) : Prop :=
  link_at html p l ∧ ¬ inside_link html p.

(** The matches of [scan], each with the index where it begins; [at_] is
    the index of the first unit of [s]. *)
Fixpoint scan_at (re : regexp) (s : jsstring) (skip at_ : nat)
  : list (nat * jsstring) :=
  match s with
  | [] =>
      match skip, match_here re [] with
      | O, Some (m, _, _) => [(at_, m)]
      | _, _ => []
      end
  | _ :: t =>
      match skip with
      | S k => scan_at re t k (S at_)
      | O =>
          match match_here re s with
          | Some (m, _, _) => (at_, m) :: scan_at re t (length m - 1)%nat (S at_)
          | None => scan_at re t 0%nat (S at_)
          end
      end
  end.

(** The units a link may hold after its last slash. *)
Definition slug_unit (a : N) : bool :=
  xorb true (existsb (λ x, citem_mem true x a) [Ch 34; chr "'"; chr ">"]).

(** ** Cached records of another shape *)
(** A cache file whose record is live and holds its classes as one text. *)
Definition textCache : json :=
  JObj [(str "detailCache",
         JObj [(linkUrl (str "/australia/trademark/trademark-detail/1/a"),
                JObj [(str "status", JStr (str "LIVE"));
                      (str "classes", JStr (str "x041y"))])])].

Definition textSite : world :=
  World demoPages {[ str "acme%20toys.json" := Stored textCache ]} (λ _, true) [].

(** A live record without [classes]. *)
Definition staleRecord : json := JObj [(str "status", JStr (str "LIVE"))].

(** A cache file that holds a record live in class 028 under the first
    link and a live record without [classes] under the second. *)
Definition mixedSite : world :=
  World demoPages
    {[ str "acme%20toys.json" :=
         Stored (JObj [(str "detailCache",
           JObj [(linkUrl (str "/australia/trademark/trademark-detail/1/a"), liveToy);
                 (linkUrl (str "/australia/trademark/trademark-detail/2/b"),
                  staleRecord)])]) ]}
    (λ _, true) [].

(** A site whose search page answers and whose detail pages do not, with
    a live record without [classes] cached under the second link. *)
Definition lostPages (url : jsstring) : response :=
  if decide (url = searchUrl (str "acme%20toys")) then Http 200 demoSearch
  else NetFail (str "fetch failed").

Definition lostSite : world :=
  World lostPages
    {[ str "acme%20toys.json" :=
         Stored (JObj [(str "detailCache",
           JObj [(linkUrl (str "/australia/trademark/trademark-detail/2/b"),
                  staleRecord)])]) ]}
    (λ _, true) [].

(** A cache file that holds, under the first link, the number that the
    text [1e999] parses to: positive infinity. *)
Definition infiniteSite : world :=
  World demoPages
    {[ str "acme%20toys.json" :=
         Stored (JObj [(str "detailCache",
           JObj [(linkUrl (str "/australia/trademark/trademark-detail/1/a"),
                  JNum (2047 * 2 ^ 52))])]) ]}
    (λ _, true) [].

(** * Properties *)

#[local] Arguments risk : simpl never.
#[local] Arguments is_live : simpl never.

(** ** The matcher finds exactly the language *)

Section Matcher.

Variable i : bool.

Lemma star_more_In loop step s c x :
  In x (star_more loop step s c) ↔
  ∃ s1 c1, In (s1, c1) (step s c) ∧ (length s1 < length s)%nat ∧ In x (loop s1 c1).
Proof.
  unfold star_more. rewrite in_flat_map. split.
  - intros ([s1 c1] & H1 & H2).
    destruct (Nat.ltb_spec (length s1) (length s)); [|done]. by exists s1, c1.
  - intros (s1 & c1 & H1 & Hlt & H2). exists (s1, c1). split; [done|].
    by destruct (Nat.ltb_spec (length s1) (length s)); [|lia].
Qed.

Lemma star_more_ext loop1 loop2 step s c :
  (∀ s1 c1, (length s1 < length s)%nat → loop1 s1 c1 = loop2 s1 c1) →
  star_more loop1 step s c = star_more loop2 step s c.
Proof.
  intros Hext. unfold star_more. apply flat_map_ext. intros [s1 c1].
  destruct (Nat.ltb_spec (length s1) (length s)); [by apply Hext|done].
Qed.

Lemma star_more_nil loop step s c : length s = 0%nat → star_more loop step s c = [].
Proof.
  intros Hs. destruct (star_more loop step s c) as [|x l] eqn:E; [done|].
  assert (In x (star_more loop step s c)) as Hin by (rewrite E; by left).
  apply star_more_In in Hin as (s1 & c1 & _ & Hlt & _). lia.
Qed.

Lemma star_loop_In step g n s c x :
  In x (star_loop step g (S n) s c) ↔
  In x (star_more (star_loop step g n) step s c) ∨ x = (s, c).
Proof.
  simpl. destruct g; [rewrite in_app_iff|]; simpl; intuition.
Qed.

Lemma star_loop_fuel step g n : ∀ m s c,
  (length s ≤ n)%nat → (length s ≤ m)%nat →
  star_loop step g n s c = star_loop step g m s c.
Proof.
  induction n as [|n IH]; intros m s c Hn Hm.
  - destruct m as [|m]; [done|]. simpl.
    rewrite star_more_nil by lia. by destruct g.
  - destruct m as [|m]; simpl.
    + rewrite star_more_nil by lia. by destruct g.
    + rewrite (star_more_ext (star_loop step g n) (star_loop step g m)); [done|].
      intros s1 c1 Hlt. apply IH; lia.
Qed.

Lemma star_loop_sound (P : jsstring → Prop) step g
  (Hstep : ∀ s c s' c', In (s', c') (step s c) → ∃ w, s = w ++ s' ∧ P w) :
  ∀ n s c s' c', In (s', c') (star_loop step g n s c) →
    ∃ ws, s = concat ws ++ s' ∧ Forall (λ w, w ≠ [] ∧ P w) ws.
Proof.
  induction n as [|n IH]; intros s c s' c' Hin.
  - simpl in Hin. destruct Hin as [[= <- <-]|[]]. exists []. by split.
  - apply star_loop_In in Hin as [Hm|[= -> ->]]; [|exists []; by split].
    apply star_more_In in Hm as (s1 & c1 & H1 & Hlt & H2).
    apply Hstep in H1 as (w & -> & Hw).
    apply IH in H2 as (ws & -> & Hws).
    exists (w :: ws). split; [simpl; by rewrite <- app_assoc|].
    constructor; [|done]. split; [|done]. intros ->. simpl in *. lia.
Qed.

Lemma lang_star_concat g r ws :
  Forall (λ w, w ≠ [] ∧ lang i r w) ws → lang i (Star g r) (concat ws).
Proof.
  induction 1 as [|w ws [? ?] _ IH]; simpl; [constructor|by constructor].
Qed.

Lemma run_sound r : ∀ s c s' c',
  In (s', c') (run i r s c) → ∃ w, s = w ++ s' ∧ lang i r w.
Proof.
  induction r as [|x|neg xs|r1 IH1 r2 IH2|r1 IH1 r2 IH2|g r IH|r IH];
    intros s c s' c' Hin; simpl in Hin.
  - destruct Hin as [[= <- <-]|[]]. exists []. split; [done|constructor].
  - destruct s as [|a t]; [done|].
    destruct (citem_mem i x a) eqn:E; [|done].
    destruct Hin as [[= <- <-]|[]]. exists [a]. split; [done|by constructor].
  - destruct s as [|a t]; [done|].
    destruct (xorb _ _) eqn:E; [|done].
    destruct Hin as [[= <- <-]|[]]. exists [a]. split; [done|by constructor].
  - apply in_flat_map in Hin as ([s1 c1] & H1 & H2).
    apply IH1 in H1 as (w1 & -> & L1). apply IH2 in H2 as (w2 & -> & L2).
    exists (w1 ++ w2). split; [by rewrite <- app_assoc|by constructor].
  - apply in_app_iff in Hin as [H|H].
    + apply IH1 in H as (w & -> & L). exists w. split; [done|by apply lang_alt_l].
    + apply IH2 in H as (w & -> & L). exists w. split; [done|by apply lang_alt_r].
  - apply (star_loop_sound (lang i r)) in Hin as (ws & -> & Hws); [|exact IH].
    exists (concat ws). split; [done|]. by apply lang_star_concat.
  - apply in_map_iff in Hin as ([s1 c1] & [= <- <-] & H).
    apply IH in H as (w & -> & L). exists w. split; [done|by constructor].
Qed.

Lemma run_complete r w : lang i r w →
  ∀ s' c, ∃ c', In (s', c') (run i r (w ++ s') c).
Proof.
  induction 1 as [|x a Hx|neg xs a Hx|r1 r2 w1 w2 _ IH1 _ IH2|r1 r2 w _ IH
                 |r1 r2 w _ IH|g r|g r w1 w2 Hne _ IH1 _ IH2|r w _ IH];
    intros s' c; simpl.
  - eauto.
  - rewrite Hx. simpl. eauto.
  - rewrite Hx. simpl. eauto.
  - destruct (IH1 (w2 ++ s') c) as [c1 H1]. destruct (IH2 s' c1) as [c2 H2].
    exists c2. rewrite <- app_assoc. apply in_flat_map. by exists (w2 ++ s', c1).
  - destruct (IH s' c) as [c1 H1]. exists c1. apply in_app_iff. auto.
  - destruct (IH s' c) as [c1 H1]. exists c1. apply in_app_iff. auto.
  - exists c. destruct (length s'); [by left|]. apply star_loop_In. by right.
  - destruct (IH1 (w2 ++ s') c) as [c1 H1]. destruct (IH2 s' c1) as [c2 H2].
    exists c2. simpl in H2. rewrite <- app_assoc.
    assert (length (w2 ++ s') < length (w1 ++ w2 ++ s'))%nat as Hlt.
    { rewrite (length_app w1). destruct w1; [done|]. simpl. lia. }
    destruct (length (w1 ++ w2 ++ s')) as [|n] eqn:E; [lia|].
    apply star_loop_In. left. apply star_more_In.
    exists (w2 ++ s'), c1. split; [done|]. split; [lia|].
    rewrite (star_loop_fuel _ _ n (length (w2 ++ s'))); [done|lia|done].
  - destruct (IH s' c) as [c1 H1]. eexists. apply in_map_iff.
    exists (s', c1). split; [reflexivity|done].
Qed.

End Matcher.

Lemma match_here_Some re s m rest c :
  match_here re s = Some (m, rest, c) → s = m ++ rest ∧ langOf re m.
Proof.
  unfold match_here. destruct (run _ _ s None) as [|[rest' c'] l] eqn:E; [done|].
  intros [= <- <- <-].
  destruct (run_sound (ignoreCase re) (pattern re) s None rest' c') as (w & -> & L).
  { rewrite E. by left. }
  rewrite length_app, Nat.add_sub, take_app_length. done.
Qed.

Lemma match_here_None re s w rest :
  match_here re s = None → s = w ++ rest → ¬ langOf re w.
Proof.
  unfold match_here. intros E -> L.
  destruct (run_complete _ _ _ L rest None) as [c' Hin].
  destruct (run _ _ _ None) as [|[??] ?]; [done|done].
Qed.

Lemma exec_Some re s : ∀ pre m rest c,
  exec re s = Some (pre, m, rest, c) → s = pre ++ m ++ rest ∧ langOf re m.
Proof.
  induction s as [|a t IH]; intros pre m rest c; simpl.
  - destruct (match_here re []) as [[[m' rest'] c']|] eqn:E; [|done].
    intros [= <- <- <- <-]. by apply match_here_Some in E.
  - destruct (match_here re (a :: t)) as [[[m' rest'] c']|] eqn:E.
    + intros [= <- <- <- <-]. by apply match_here_Some in E.
    + destruct (exec re t) as [[[[pre' m'] rest'] c']|]; [|done].
      intros [= <- <- <- <-]. by destruct (IH _ _ _ _ eq_refl) as [-> L].
Qed.

Lemma exec_None re s : ∀ pre m rest,
  exec re s = None → s = pre ++ m ++ rest → ¬ langOf re m.
Proof.
  induction s as [|a t IH]; intros pre m rest; simpl.
  - destruct (match_here re []) as [[[m' rest'] c']|] eqn:E; [done|].
    intros _ Hs. symmetry in Hs. apply app_eq_nil in Hs as [-> Hs].
    apply app_eq_nil in Hs as [-> ->].
    by apply (match_here_None re [] [] []).
  - destruct (match_here re (a :: t)) as [[[m' rest'] c']|] eqn:E; [done|].
    destruct (exec re t) as [[[[pre' m'] rest'] c']|]; [done|].
    intros _ Hs. destruct pre as [|b pre].
    + by apply (match_here_None re (a :: t) m rest).
    + injection Hs as -> ->. by apply (IH pre m rest).
Qed.

(** [test] decides whether some substring is in the language. *)
Lemma test_true re s :
  test re s = true ↔ ∃ pre m rest, s = pre ++ m ++ rest ∧ langOf re m.
Proof.
  unfold test. split.
  - destruct (exec re s) as [[[[pre m] rest] c]|] eqn:E; [|done].
    intros _. apply exec_Some in E. eauto.
  - intros (pre & m & rest & Hs & L).
    destruct (exec re s) eqn:E; [done|].
    by destruct (exec_None re s pre m rest E Hs).
Qed.

Lemma scan_In re s : ∀ k m c,
  In (m, c) (scan re s k) → langOf re m ∧ ∃ pre rest, s = pre ++ m ++ rest.
Proof.
  induction s as [|a t IH]; intros k m c; simpl.
  - destruct k; [|done].
    destruct (match_here re []) as [[[m' rest'] c']|] eqn:E; [|done].
    intros [[= <- <-]|[]]. apply match_here_Some in E as [Hs L].
    split; [done|]. exists [], rest'. done.
  - destruct k as [|k].
    + destruct (match_here re (a :: t)) as [[[m' rest'] c']|] eqn:E.
      * intros [[= <- <-]|Hin].
        -- apply match_here_Some in E as [Hs L]. split; [done|].
           exists [], rest'. done.
        -- apply IH in Hin as (L & pre & rest & ->). split; [done|].
           by exists (a :: pre), rest.
      * intros Hin. apply IH in Hin as (L & pre & rest & ->). split; [done|].
        by exists (a :: pre), rest.
    + intros Hin. apply IH in Hin as (L & pre & rest & ->). split; [done|].
      by exists (a :: pre), rest.
Qed.

Lemma scan_nil re s : scan re s 0 = [] ↔ exec re s = None.
Proof.
  induction s as [|a t IH]; simpl.
  - destruct (match_here re []) as [[[m' rest'] c']|]; split; done.
  - destruct (match_here re (a :: t)) as [[[m' rest'] c']|]; [split; done|].
    rewrite IH. destruct (exec re t) as [[[[??]?]?]|]; split; done.
Qed.

(** *** Languages of the building blocks *)

Section Languages.

Variable i : bool.

Lemma lang_Eps w : lang i Eps w ↔ w = [].
Proof. split; [by inversion 1|intros ->; constructor]. Qed.

Lemma lang_Seq r1 r2 w :
  lang i (Seq r1 r2) w ↔ ∃ w1 w2, w = w1 ++ w2 ∧ lang i r1 w1 ∧ lang i r2 w2.
Proof.
  split.
  - inversion 1; subst. eauto.
  - intros (w1 & w2 & -> & ? & ?). by constructor.
Qed.

Lemma lang_One x w :
  lang i (One x) w ↔ ∃ a, w = [a] ∧ citem_mem i x a = true.
Proof.
  split.
  - inversion 1; subst. eauto.
  - intros (a & -> & ?). by constructor.
Qed.

Lemma lang_Class neg xs w :
  lang i (Class neg xs) w ↔
  ∃ a, w = [a] ∧ xorb neg (existsb (λ x, citem_mem i x a) xs) = true.
Proof.
  split.
  - inversion 1; subst. eauto.
  - intros (a & -> & ?). by constructor.
Qed.

Lemma lang_Star_chars g r P w :
  one_of i r P → lang i (Star g r) w ↔ Forall (λ a, P a = true) w.
Proof.
  intros Hr. split.
  - remember (Star g r) as r' eqn:Er. induction 1; try done.
    injection Er as -> ->. apply Hr in H0 as (a & -> & Ha).
    constructor; [done|]. by apply IHlang2.
  - induction 1 as [|a w Ha _ IH]; [constructor|].
    apply (lang_star_more i g r [a] w); [done| |done]. apply Hr. eauto.
Qed.

Lemma lang_Plus_chars r P w :
  one_of i r P → lang i (Plus r) w ↔ w ≠ [] ∧ Forall (λ a, P a = true) w.
Proof.
  intros Hr. unfold Plus. rewrite lang_Seq. split.
  - intros (w1 & w2 & -> & L1 & L2). apply Hr in L1 as (a & -> & Ha).
    split; [done|]. constructor; [done|]. by apply (lang_Star_chars true r P).
  - intros [Hne Hall]. destruct Hall as [|a w Ha Hw]; [done|].
    exists [a], w. split; [done|]. split; [apply Hr; eauto|].
    by apply (lang_Star_chars true r P).
Qed.

Lemma lang_Lit_chars l w :
  lang i (foldr (λ c r, Seq (One (Ch c)) r) Eps l) w ↔
  Forall2 (λ p a, citem_mem i (Ch p) a = true) l w.
Proof.
  revert w. induction l as [|p l IH]; intros w; simpl.
  - rewrite lang_Eps. split; [intros ->; constructor|by inversion 1].
  - rewrite lang_Seq. split.
    + intros (w1 & w2 & -> & L1 & L2). apply lang_One in L1 as (a & -> & Ha).
      constructor; [done|]. by apply IH.
    + inversion 1 as [|? a ? w' Ha Hw]; subst. exists [a], w'.
      split; [done|]. split; [apply lang_One; eauto|by apply IH].
Qed.

End Languages.

Lemma lang_Lit s w : lang true (Lit s) w ↔ ci_equal w (str s).
Proof.
  unfold Lit, ci_equal. rewrite lang_Lit_chars. generalize (str s) as l.
  intros l. revert w. induction l as [|p l IH]; intros w.
  - split; [by inversion 1|]. destruct w; [constructor|done].
  - split.
    + inversion 1 as [|? a ? w' Ha Hw]; subst. simpl in *.
      apply N.eqb_eq in Ha. rewrite Ha. f_equal. by apply IH.
    + destruct w as [|a w]; [done|]. simpl. intros [= Ha Hw].
      constructor; [simpl; by apply N.eqb_eq|by apply IH].
Qed.

Lemma foldl_set_add xs : ∀ acc,
  foldl set_add acc xs = acc ++ filter (λ y, y ∉ acc) (first_occurrences xs).
Proof.
  induction xs as [|x t IH]; intros acc; simpl.
  - by rewrite app_nil_r.
  - rewrite IH. unfold set_add. destruct (decide (x ∈ acc)) as [Hin|Hout].
    + rewrite filter_cons_False by auto. f_equal.
      rewrite list_filter_filter. apply list_filter_iff. intros y.
      split; [|by intros [? _]]. intros Hy. split; [done|]. by intros ->.
    + rewrite filter_cons_True by done. rewrite <- app_assoc. simpl. do 2 f_equal.
      rewrite list_filter_filter. apply list_filter_iff. intros y.
      rewrite elem_of_app, list_elem_of_singleton. tauto.
Qed.

Lemma set_from_first_occurrences xs : set_from xs = first_occurrences xs.
Proof.
  unfold set_from. rewrite foldl_set_add. simpl.
  induction (first_occurrences xs) as [|y l IH]; [done|].
  rewrite filter_cons_True; [by f_equal|]. apply not_elem_of_nil.
Qed.

Lemma first_occurrences_elem xs x : x ∈ first_occurrences xs ↔ x ∈ xs.
Proof.
  induction xs as [|y t IH]; simpl; [done|].
  rewrite !elem_of_cons, list_elem_of_filter, IH.
  destruct (decide (x = y)); tauto.
Qed.

Lemma first_occurrences_NoDup xs : NoDup (first_occurrences xs).
Proof.
  induction xs as [|y t IH]; simpl; [constructor|].
  apply NoDup_cons. split; [|by apply NoDup_filter].
  rewrite list_elem_of_filter. tauto.
Qed.

Lemma first_at_exists xs x : x ∈ xs → ∃ i, first_at xs i x.
Proof.
  induction xs as [|y t IH]; [by intros ?%elem_of_nil|].
  destruct (decide (y = x)) as [->|Hne].
  - intros _. exists 0%nat. split; [done|]. intros; lia.
  - intros [?|Hin]%elem_of_cons; [done|].
    destruct (IH Hin) as (i & Hi & Hbefore). exists (S i). split; [done|].
    intros [|k] z Hz Hk; simpl in Hz; [by injection Hz as <-|].
    apply (Hbefore k); [done|lia].
Qed.

Lemma first_at_cons xs y i x : y ≠ x → first_at xs i x → first_at (y :: xs) (S i) x.
Proof.
  intros Hne [Hi Hbefore]. split; [done|].
  intros [|k] z Hz Hk; simpl in Hz; [by injection Hz as <-|].
  apply (Hbefore k); [done|lia].
Qed.

Lemma filter_lookup_mono (P : jsstring → Prop) `{∀ x, Decision (P x)}
  (l : list jsstring) :
  ∀ i j p q, filter P l !! i = Some p → filter P l !! j = Some q → (i < j)%nat →
    ∃ i' j', l !! i' = Some p ∧ l !! j' = Some q ∧ (i' < j')%nat.
Proof.
  induction l as [|y l IH]; intros i j p q; [done|].
  destruct (decide (P y)) as [Hy|Hy].
  - rewrite filter_cons_True by done. destruct i as [|i], j as [|j]; simpl; try lia.
    + intros [= ->] Hq _. apply list_elem_of_lookup_2, list_elem_of_filter in Hq as [_ Hq].
      apply list_elem_of_lookup_1 in Hq as [j' Hj']. exists 0%nat, (S j').
      repeat split; [done|lia].
    + intros Hp Hq Hlt. destruct (IH i j p q Hp Hq) as (i' & j' & ? & ? & ?); [lia|].
      exists (S i'), (S j'). repeat split; [done..|lia].
  - rewrite filter_cons_False by done. intros Hp Hq Hlt.
    destruct (IH i j p q Hp Hq Hlt) as (i' & j' & ? & ? & ?).
    exists (S i'), (S j'). repeat split; [done..|lia].
Qed.

(** The order of [first_occurrences] is the order of first occurrence. *)
Lemma first_occurrences_order xs : ∀ i j p q,
  first_occurrences xs !! i = Some p → first_occurrences xs !! j = Some q →
  (i < j)%nat →
  ∃ a b, first_at xs a p ∧ first_at xs b q ∧ (a < b)%nat.
Proof.
  induction xs as [|x t IH]; intros i j p q; [done|]. simpl.
  destruct i as [|i], j as [|j]; simpl; try lia.
  - intros [= ->] Hq _.
    apply list_elem_of_lookup_2, list_elem_of_filter in Hq as [Hne Hq].
    apply (proj1 (first_occurrences_elem _ _)) in Hq.
    apply first_at_exists in Hq as [b Hb].
    exists 0%nat, (S b). split; [|split; [apply first_at_cons; [congruence|done]|lia]].
    split; [done|]. intros; lia.
  - intros Hp Hq Hlt.
    assert (p ≠ x ∧ q ≠ x) as [Hpx Hqx].
    { apply list_elem_of_lookup_2, list_elem_of_filter in Hp, Hq. tauto. }
    destruct (filter_lookup_mono _ _ i j p q Hp Hq) as (i' & j' & Hi' & Hj' & Hlt'); [lia|].
    destruct (IH i' j' p q Hi' Hj' Hlt') as (a & b & Ha & Hb & Hab).
    exists (S a), (S b). split; [apply first_at_cons; [congruence|done]|].
    split; [apply first_at_cons; [congruence|done]|lia].
Qed.

(** *** The shape of a detail link *)

Lemma canonicalize_eqb_other p a :
  (p < 65 ∨ 122 < p ∨ (90 < p ∧ p < 97)) →
  (canonicalize p =? canonicalize a) = (p =? a).
Proof.
  intros Hp. unfold canonicalize.
  destruct (N.leb_spec 97 p), (N.leb_spec p 122), (N.leb_spec 97 a),
    (N.leb_spec a 122); simpl; try lia;
    destruct (N.eqb_spec p a), (N.eqb_spec p (a - 32)); try lia; done.
Qed.

Lemma one_of_Digit i : one_of i (One Digit) is_digit.
Proof. intros w. by rewrite lang_One. Qed.

Lemma one_of_Space i : one_of i (One Space) is_space.
Proof. intros w. by rewrite lang_One. Qed.

Lemma one_of_slug :
  one_of true (Class true [Ch 34; chr "'"; chr ">"])
    (λ a, bool_decide (a ∉ [34; 39; 62])).
Proof.
  intros w. rewrite lang_Class. apply exist_proper. intros a.
  apply and_iff_compat_l. change (chr "'") with (Ch 39).
  change (chr ">") with (Ch 62). cbn [existsb citem_mem].
  rewrite !canonicalize_eqb_other by lia.
  rewrite bool_decide_eq_true, !not_elem_of_cons.
  destruct (N.eqb_spec 34 a), (N.eqb_spec 39 a), (N.eqb_spec 62 a); simpl;
    (split; [try done|try (intros (? & ? & ? & ?); congruence)]); try done.
  intros _. repeat split; try congruence. apply not_elem_of_nil.
Qed.

Lemma ci_equal_slash w : ci_equal w (str "/") ↔ w = [47].
Proof.
  unfold ci_equal. change (canonicalize <$> str "/") with [47].
  split; [|by intros ->].
  destruct w as [|a [|??]]; try done. intros H. injection H as Ha. f_equal.
  unfold canonicalize in Ha.
  destruct ((97 <=? a) && (a <=? 122)) eqn:E; [|done].
  apply andb_true_iff in E as [?%N.leb_le ?%N.leb_le]. lia.
Qed.

Lemma lang_cat_nil i w : lang i (cat []) w ↔ w = [].
Proof. apply lang_Eps. Qed.

Lemma lang_cat_cons i r rs w :
  lang i (cat (r :: rs)) w ↔
  ∃ w1 w2, w = w1 ++ w2 ∧ lang i r w1 ∧ lang i (cat rs) w2.
Proof. apply lang_Seq. Qed.

Lemma detailLinkRe_lang w : langOf detailLinkRe w ↔ detail_path w.
Proof.
  unfold langOf, detail_path, detailLinkRe, insensitive. cbn [pattern ignoreCase].
  split.
  - intros L. apply lang_cat_cons in L as (pre & w1 & -> & Lpre & L).
    apply lang_cat_cons in L as (ds & w2 & -> & Lds & L).
    apply lang_cat_cons in L as (sl & w3 & -> & Lsl & L).
    apply lang_cat_cons in L as (slug & w4 & -> & Lslug & L).
    apply lang_cat_nil in L as ->. apply lang_Lit in Lpre.
    apply (lang_Plus_chars true _ _ _ (one_of_Digit true)) in Lds as [Hds1 Hds2].
    apply lang_Lit, ci_equal_slash in Lsl as ->.
    apply (lang_Plus_chars true _ _ _ one_of_slug) in Lslug as [Hs1 Hs2].
    exists pre, ds, slug. rewrite app_nil_r. repeat split; try done.
    eapply Forall_impl; [exact Hs2|]. simpl. intros a. by rewrite bool_decide_eq_true.
  - intros (pre & ds & slug & -> & Hpre & Hds1 & Hds2 & Hs1 & Hs2).
    apply lang_cat_cons. exists pre, (ds ++ 47 :: slug).
    split; [done|]. split; [by apply lang_Lit|].
    apply lang_cat_cons. exists ds, (47 :: slug). split; [done|].
    split; [by apply (lang_Plus_chars true _ _ _ (one_of_Digit true))|].
    apply lang_cat_cons. exists [47], slug. split; [done|].
    split; [by apply lang_Lit, ci_equal_slash|].
    apply lang_cat_cons. exists slug, []. split; [by rewrite app_nil_r|].
    split; [|by apply lang_cat_nil].
    apply (lang_Plus_chars true _ _ _ one_of_slug). split; [done|].
    eapply Forall_impl; [exact Hs2|]. simpl. intros a. by rewrite bool_decide_eq_true.
Qed.

Lemma matchAll_nil re html :
  matchAll re html = [] ↔ ∀ p, occurs_in p html → ¬ langOf re p.
Proof.
  unfold matchAll. split.
  - intros H%fmap_nil_inv%scan_nil p (pre & post & Hs). by eapply exec_None.
  - intros H.
    destruct (exec re html) as [[[[pre m] rest] c]|] eqn:E.
    + apply exec_Some in E as [Hs L]. destruct (H m); [by exists pre, rest|done].
    + apply scan_nil in E. by rewrite E.
Qed.

Lemma matchAll_elem re html p :
  p ∈ matchAll re html → langOf re p ∧ occurs_in p html.
Proof.
  unfold matchAll. intros ([m c] & -> & Hin%list_elem_of_In)%list_elem_of_fmap.
  by apply scan_In in Hin.
Qed.

(** *** Status *)

Lemma test_delimited (word : string) html :
  test (insensitive (cat [One Space; Lit word; One Space])) html = true
  ↔ ws_delimited (str word) html.
Proof.
  rewrite test_true. unfold langOf, insensitive, ws_delimited. cbn [pattern ignoreCase].
  split.
  - intros (pre & m & post & -> & L).
    apply lang_cat_cons in L as (a' & w1 & -> & La & L).
    apply lang_cat_cons in L as (w & w2 & -> & Lw & L).
    apply lang_cat_cons in L as (b' & w3 & -> & Lb & L).
    apply lang_cat_nil in L as ->.
    apply lang_One in La as (a & -> & Ha). apply lang_One in Lb as (b & -> & Hb).
    apply lang_Lit in Lw. exists pre, a, w, b, post.
    split; [|done]. rewrite app_nil_r. simpl. by rewrite <- !app_assoc.
  - intros (pre & a & w & b & post & -> & Ha & Hb & Hw).
    exists pre, (a :: w ++ [b]), post. split.
    { simpl. by rewrite <- !app_assoc. }
    apply lang_cat_cons. exists [a], (w ++ [b]). split; [done|].
    split; [apply lang_One; eauto|].
    apply lang_cat_cons. exists w, [b]. split; [done|].
    split; [by apply lang_Lit|].
    apply lang_cat_cons. exists [b], []. split; [done|].
    split; [apply lang_One; eauto|by apply lang_cat_nil].
Qed.

Lemma parseDetail_status html : status (parseDetail html) = parseStatus html.
Proof.
  unfold parseDetail. destruct (match1 (cellRe ownerLabel) html) as [td|]; [|done].
  by destruct (parseOwner td).
Qed.

(** C5, amended. [parseDetail] sets [status] by a case-insensitive search
    for the word between two whitespace code units: LIVE when the markup
    has such an occurrence of LIVE, otherwise DEAD when it has one of DEAD,
    otherwise the empty string. *)
Theorem parseDetail_status_whitespace_delimited (html : jsstring) :
  let live := ws_delimited (str "LIVE") html in
  let dead := ws_delimited (str "DEAD") html in
  (live ↔ status (parseDetail html) = str "LIVE")
  ∧ (¬ live ∧ dead ↔ status (parseDetail html) = str "DEAD")
  ∧ (¬ live ∧ ¬ dead ↔ status (parseDetail html) = []).
Proof.
  intros live dead. rewrite parseDetail_status. unfold parseStatus, live, dead.
  rewrite <- !test_delimited. fold liveRe deadRe.
  destruct (test liveRe html), (test deadRe html); split_and!; split;
    try done; try (intros [? ?]; done); try (intros _; split; done).
Qed.

(** C5 as stated fails: the markup of a table cell holds LIVE as a whole
    word, and [status] stays empty. *)
Lemma parseDetail_status_not_whole_word :
  whole_word (str "LIVE") (str "<td>LIVE</td>")
  ∧ status (parseDetail (str "<td>LIVE</td>")) = [].
Proof.
  split; [|by vm_compute].
  exists (str "<td>"), (str "LIVE"), (str "</td>"). split; [done|].
  split; [done|]. split; intros c [= <-]; done.
Qed.

(** *** The [exec] loops advance *)

Lemma ci_equal_nonempty w (s : string) : str s ≠ [] → ci_equal w (str s) → w ≠ [].
Proof. unfold ci_equal. intros Hs H ->. by destruct (str s). Qed.

(** A match of the [div] pattern or of the class pattern is never empty,
    so each [exec] of the two [while] loops moves [lastIndex] forward, as
    [scan] does. *)
Lemma exec_loops_advance m :
  (langOf divRe m → m ≠ []) ∧ (langOf classRe m → m ≠ []).
Proof.
  unfold langOf, divRe, classRe, insensitive. cbn [pattern ignoreCase].
  split; intros (w1 & w2 & -> & L1%lang_Lit & _)%lang_cat_cons;
    apply (ci_equal_nonempty _ _) in L1; try done; by destruct w1.
Qed.

Lemma scan_advances re s k m c :
  (∀ m', langOf re m' → m' ≠ []) → In (m, c) (scan re s k) → m ≠ [].
Proof. intros Hre [L _]%scan_In. by apply Hre. Qed.

(** *** The world after a call *)

(** Unfolding the monad. *)
Ltac step_bind := unfold mbind at 1, M_bind at 1, bind at 1.
Ltac unfold_M :=
  unfold mbind, M_bind, bind, mret, M_ret, ret, emit, readCacheFile,
    writeCacheFile.

Lemma logged_nil w : logged [] w = w.
Proof. destruct w. unfold logged. simpl. by rewrite app_nil_r. Qed.

Lemma logged_logged es es' w : logged es' (logged es w) = logged (es ++ es') w.
Proof. unfold logged. simpl. by rewrite app_assoc. Qed.

Lemma fetchPage_eq url w :
  fetchPage url w = (read_response url (pages w url), logged [Fetch url] w).
Proof. reflexivity. Qed.

Lemma loadCached_eq name enc w :
  encodeURIComponent name = Some enc →
  loadCached name w = (Ok (storedCache w enc), logged (loadEvents w enc) w).
Proof.
  intros Henc. unfold loadCached, catch, loadCache, safeName, storedCache, loadEvents.
  rewrite Henc. unfold_M. simpl.
  destruct (files w !! cacheFile enc) as [b|]; simpl; [|done].
  unfold logged. simpl. by rewrite <- app_assoc.
Qed.

Lemma saveCache_eq name enc data w :
  encodeURIComponent name = Some enc →
  saveCache name data w = (Ok (), saved w enc data).
Proof.
  intros Henc. unfold saveCache, safeName, saved. rewrite Henc.
  unfold_M. simpl.
  by destruct (writable w (cacheFile enc)).
Qed.

Lemma processName_eq name enc w :
  encodeURIComponent name = Some enc →
  processName name w =
    let w1 := logged [Fetch (searchUrl enc)] w in
    match read_response (searchUrl enc) (pages w (searchUrl enc)) with
    | Throw msg => (Throw msg, w1)
    | Ok searchHtml =>
        match visitLinks (extractDetailLinks searchHtml)
                (Tally [] (storedCache w enc) false false)
                (logged (loadEvents w enc) w1) with
        | (Throw msg, w3) => (Throw msg, w3)
        | (Ok st, w3) =>
            (Ok (summarise st),
             saved w3 enc (JObj [(str "detailCache", cached st)]))
        end
    end.
Proof.
  intros Henc. unfold processName, safeName. rewrite Henc.
  step_bind. unfold mret at 1, M_ret at 1, ret at 1.
  step_bind. rewrite fetchPage_eq.
  cbv zeta. destruct (read_response _ _) as [searchHtml|msg]; [|done].
  step_bind.
  rewrite (loadCached_eq name enc) by done.
  step_bind.
  change (storedCache (logged [Fetch (searchUrl enc)] w) enc) with (storedCache w enc).
  change (loadEvents (logged [Fetch (searchUrl enc)] w) enc) with (loadEvents w enc).
  destruct (visitLinks _ _ _) as [[st|msg] w3]; [|done].
  step_bind.
  rewrite (saveCache_eq name enc) by done. done.
Qed.

(** *** One record's contribution to the score *)

Lemma noteRisk_risk info st :
  noteRisk info st =
    match risk info with
    | Ok (l, r) =>
        (Tally (details st) (cached st) (hasLive st || l) (hasRedMark st || r), None)
    | Throw msg => (Tally (details st) (cached st) true (hasRedMark st), Some msg)
    end.
Proof.
  unfold noteRisk, risk. destruct st as [ds c hl hr]. simpl.
  destruct (is_live info); [|by rewrite !orb_false_r].
  destruct (includes _ (str "009")) as [a|]; [|done].
  destruct (includes _ (str "028")) as [b|]; [|done].
  destruct (includes _ (str "041")) as [c'|]; [|done].
  rewrite orb_true_r. destruct (a || b || c'); by rewrite ?orb_true_r, ?orb_false_r.
Qed.

Lemma risk_live info l r : risk info = Ok (l, r) → l = is_live info.
Proof.
  unfold risk. destruct (is_live info); [|by intros [= <- <-]].
  repeat destruct (includes _ _); by intros [= <- <-].
Qed.

(** *** One link of the loop, by the cached value of its URL *)

Lemma get_detail_json d url k :
  get (detail_json d url) k =
    assoc k [(str "applicationNumber", JStr (applicationNumber d));
        (str "wordMark", JStr (wordMark d));
        (str "ownerName", JStr (ownerName d));
        (str "ownerAddress", JStr (ownerAddress d));
        (str "owner", JStr (owner d));
        (str "filingDate", JStr (filingDate d));
        (str "status", JStr (status d));
        (str "statusDesc", JStr (statusDesc d));
        (str "classes", JArr (JStr <$> classes d));
        (str "detailUrl", JStr url)].
Proof. reflexivity. Qed.

Lemma detail_json_classes d url :
  get (detail_json d url) (str "classes") = Some (JArr (JStr <$> classes d)).
Proof. reflexivity. Qed.

Lemma detail_json_detailUrl d url :
  get (detail_json d url) (str "detailUrl") = Some (JStr url).
Proof. reflexivity. Qed.

Lemma risk_fresh d url : ∃ l r, risk (detail_json d url) = Ok (l, r).
Proof.
  unfold risk. rewrite detail_json_classes. simpl.
  destruct (is_live _); eauto.
Qed.

Lemma errorRecord_not_live msg : is_live (errorRecord msg) = false.
Proof. reflexivity. Qed.

Lemma risk_errorRecord msg : risk (errorRecord msg) = Ok (false, false).
Proof. reflexivity. Qed.

Lemma visitLink_eq relLink st w :
  visitLink relLink st w =
    match visitOf (pages w) (linkUrl relLink) (get (cached st) (linkUrl relLink)) with
    | Throw msg => (Throw msg, w)
    | Ok v =>
        (Ok (noted (v_detail v) (store (cached st) (linkUrl relLink) (v_store v)) st),
         if v_fetched v then logged [Fetch (linkUrl relLink)] w else w)
    end.
Proof.
  unfold visitLink, visitOf, cachedInfo, usable, linkUrl.
  set (url := baseUrl ++ relLink).
  destruct (get (cached st) url) as [info0|] eqn:Hget.
  2: { unfold fetchDetail. rewrite fetchPage_eq.
       destruct (read_response url (pages w url)) as [html|msg]; simpl.
       - rewrite noteRisk_risk.
         destruct (risk_fresh (parseDetail html) url) as (l & r & Hr).
         unfold noted, red, live. rewrite Hr. simpl.
         by rewrite (risk_live _ _ _ Hr).
       - unfold noted, pushError, red, live. rewrite risk_errorRecord.
         rewrite errorRecord_not_live. simpl. by rewrite !orb_false_r. }
  destruct (truthy (Some info0)) eqn:Ht.
  2: { unfold fetchDetail. rewrite fetchPage_eq.
       destruct (read_response url (pages w url)) as [html|msg]; simpl.
       - rewrite noteRisk_risk.
         destruct (risk_fresh (parseDetail html) url) as (l & r & Hr).
         unfold noted, red, live. rewrite Hr. simpl.
         by rewrite (risk_live _ _ _ Hr).
       - unfold noted, pushError, red, live. rewrite risk_errorRecord.
         rewrite errorRecord_not_live. simpl. by rewrite !orb_false_r. }
  unfold reuse, backfill.
  destruct (truthy (get info0 (str "detailUrl"))); rewrite noteRisk_risk; simpl.
  - destruct (risk info0) as [[l r]|msg] eqn:Hr; [|done].
    unfold noted, red, live. cbn [v_detail v_fetched v_store store].
    rewrite Hr. by rewrite (risk_live _ _ _ Hr).
  - destruct (risk (assign info0 _ _)) as [[l r]|msg] eqn:Hr; [|done].
    unfold noted, red, live. cbn [v_detail v_fetched v_store store].
    rewrite Hr. by rewrite (risk_live _ _ _ Hr).
Qed.

(** *** Own properties *)

Lemma assoc_set_field k v fs k' :
  assoc k' (set_field k v fs) = if decide (k = k') then Some v else assoc k' fs.
Proof.
  induction fs as [|[k0 v0] fs IH]; simpl.
  - by destruct (decide (k = k')).
  - destruct (decide (k0 = k)) as [->|Hne]; simpl.
    + by destruct (decide (k = k')).
    + destruct (decide (k0 = k')) as [->|Hne'].
      * by rewrite decide_False by done.
      * done.
Qed.

Lemma set_field_same k v fs : assoc k fs = Some v → set_field k v fs = fs.
Proof.
  induction fs as [|[k0 v0] fs IH]; simpl; [done|].
  destruct (decide (k0 = k)) as [->|Hne]; [by intros [= ->]|].
  intros H. by rewrite IH.
Qed.

Lemma get_assign c k x k' :
  get (assign c k x) k' =
    if is_object c && bool_decide (k = k') then Some x else get c k'.
Proof.
  destruct c; simpl; try done. rewrite assoc_set_field.
  by destruct (decide (k = k')); [rewrite bool_decide_true|rewrite bool_decide_false].
Qed.

Lemma get_assign_ne c k x k' : k ≠ k' → get (assign c k x) k' = get c k'.
Proof. intros H. rewrite get_assign, bool_decide_false by done. by rewrite andb_false_r. Qed.

Lemma assign_same c k x : get c k = Some x → assign c k x = c.
Proof. destruct c; simpl; try done. intros H. by rewrite set_field_same. Qed.

Lemma is_object_assign c k x : is_object (assign c k x) = is_object c.
Proof. by destruct c. Qed.

Lemma get_store_ne c url upd u : url ≠ u → get (store c url upd) u = get c u.
Proof. intros H. destruct upd; [by apply get_assign_ne|done]. Qed.

Lemma is_object_store c url upd : is_object (store c url upd) = is_object c.
Proof. destruct upd; [apply is_object_assign|done]. Qed.

Lemma linkUrl_inj a b : linkUrl a = linkUrl b → a = b.
Proof. apply app_inv_head. Qed.

(** *** The whole loop *)

Lemma tallied_noted st d c1 ds c :
  tallied (noted d c1 st) ds c = tallied st (d :: ds) c.
Proof.
  unfold tallied, noted. simpl. by rewrite <- app_assoc, <- !orb_assoc.
Qed.

Lemma step_world (f : bool) url es w :
  logged es (if f then logged [Fetch url] w else w)
  = logged ((if f then [Fetch url] else []) ++ es) w.
Proof. destruct f; [apply logged_logged|done]. Qed.

Lemma step_pages (f : bool) url w :
  pages (if f then logged [Fetch url] w else w) = pages w.
Proof. by destruct f. Qed.

Lemma visitLinks_cons rel rest st w :
  visitLinks (rel :: rest) st w =
    match visitLink rel st w with
    | (Ok st1, w1) => visitLinks rest st1 w1
    | (Throw msg, w1) => (Throw msg, w1)
    end.
Proof. reflexivity. Qed.

Lemma visitLinks_visited links : NoDup links → ∀ c0 st w vs,
  (∀ rel, rel ∈ links → get (cached st) (linkUrl rel) = get c0 (linkUrl rel)) →
  visited (pages w) c0 links vs →
  visitLinks links st w =
    (Ok (tallied st (v_detail <$> vs) (stores (cached st) links vs)),
     logged (fetchEvents links vs) w).
Proof.
  induction 1 as [|rel rest Hnotin Hnodup IH]; intros c0 st w vs Hagree Hvs.
  - inversion Hvs; subst. simpl. unfold tallied. simpl.
    rewrite app_nil_r, !orb_false_r, logged_nil. by destruct st.
  - inversion Hvs as [|? v ? vs' Hv Hvs']; subst.
    rewrite visitLinks_cons, visitLink_eq, Hagree, Hv by left.
    rewrite (IH c0 _ _ vs').
    + simpl. rewrite tallied_noted, step_world. unfold fetchEvents. simpl.
      rewrite fmap_app. by destruct (v_fetched v).
    + intros rel' Hin. simpl. rewrite get_store_ne; [apply Hagree; by right|].
      intros ?%linkUrl_inj. by subst.
    + by rewrite step_pages.
Qed.

Lemma visitLinks_Ok links : NoDup links → ∀ c0 st w st' w',
  (∀ rel, rel ∈ links → get (cached st) (linkUrl rel) = get c0 (linkUrl rel)) →
  visitLinks links st w = (Ok st', w') →
  ∃ vs, visited (pages w) c0 links vs.
Proof.
  induction 1 as [|rel rest Hnotin Hnodup IH]; intros c0 st w st' w' Hagree Hrun.
  - exists []. constructor.
  - rewrite visitLinks_cons, visitLink_eq, Hagree in Hrun by left.
    destruct (visitOf _ _ _) as [v|msg] eqn:Hv; [|done].
    apply (IH c0) in Hrun as [vs Hvs].
    + exists (v :: vs). constructor; [done|]. by rewrite step_pages in Hvs.
    + intros rel' Hin. simpl. rewrite get_store_ne; [apply Hagree; by right|].
      intros ?%linkUrl_inj. by subst.
Qed.

Lemma visited_length pg c links vs : visited pg c links vs → length vs = length links.
Proof. intros H. symmetry. by eapply Forall2_length. Qed.

(** *** Values through [JSON.stringify] and [JSON.parse] *)

Lemma json_induction (P : json → Prop) :
  P JNull → (∀ b, P (JBool b)) → (∀ bits, P (JNum bits)) → (∀ s, P (JStr s)) →
  (∀ xs, Forall P xs → P (JArr xs)) →
  (∀ fs, Forall (λ kv, P kv.2) fs → P (JObj fs)) →
  ∀ v, P v.
Proof.
  intros Hnull Hbool Hnum Hstr Harr Hobj. fix IH 1. intros [|b|bits|s|xs|fs].
  - exact Hnull.
  - apply Hbool.
  - apply Hnum.
  - apply Hstr.
  - apply Harr. induction xs as [|x xs IHxs]; constructor; [apply IH|exact IHxs].
  - apply Hobj. induction fs as [|[k x] fs IHfs]; constructor; [apply IH|exact IHfs].
Qed.

Lemma stringify_parse_num bits :
  stringify_parse (stringify_parse (JNum bits)) = stringify_parse (JNum bits).
Proof.
  cbn [stringify_parse]. cbv zeta.
  destruct (2047 * 2 ^ 52 <=? bits mod 2 ^ 63) eqn:E1; [done|].
  destruct (bits mod 2 ^ 63 =? 0) eqn:E2; [done|].
  cbn [stringify_parse]. cbv zeta. by rewrite E1, E2.
Qed.

(** What was written once is read back as it is from then on. *)
Lemma stringify_parse_idemp v : round_trips (stringify_parse v).
Proof.
  unfold round_trips. induction v as [|b|bits|s|xs IH|fs IH] using json_induction;
    try done.
  - apply stringify_parse_num.
  - cbn [stringify_parse]. f_equal. rewrite <- list_fmap_compose.
    apply Forall_fmap_ext_1. eapply Forall_impl; [exact IH|]. by intros x Hx.
  - cbn [stringify_parse]. f_equal. rewrite <- list_fmap_compose.
    apply Forall_fmap_ext_1. eapply Forall_impl; [exact IH|].
    intros [k x] Hx. simpl in *. by rewrite Hx.
Qed.

Lemma is_object_stringify_parse v : is_object (stringify_parse v) = is_object v.
Proof.
  destruct v as [|b|bits|s|xs|fs]; try done. cbn [stringify_parse]. cbv zeta.
  by repeat case_match.
Qed.

Lemma truthy_stringify_parse_object v :
  is_object v = true → truthy (Some (stringify_parse v)) = true.
Proof. by destruct v. Qed.

Lemma assoc_stringify_parse k fs :
  assoc k ((λ kv, (kv.1, stringify_parse kv.2)) <$> fs)
  = stringify_parse <$> assoc k fs.
Proof.
  induction fs as [|[k' x] fs IH]; [done|]. cbn [fmap list_fmap assoc fst snd].
  by destruct (decide (k' = k)).
Qed.

Lemma get_stringify_parse v k :
  is_object v = true → get (stringify_parse v) k = stringify_parse <$> get v k.
Proof. destruct v; try done. intros _. apply assoc_stringify_parse. Qed.

Lemma set_field_stringify_parse k x fs :
  (λ kv, (kv.1, stringify_parse kv.2)) <$> set_field k x fs
  = set_field k (stringify_parse x) ((λ kv, (kv.1, stringify_parse kv.2)) <$> fs).
Proof.
  induction fs as [|[k' x'] fs IH]; [done|]. cbn [set_field fmap list_fmap fst snd].
  destruct (decide (k' = k)); [done|]. cbn [fmap list_fmap fst snd]. by rewrite <- IH.
Qed.

Lemma assign_round_trips c k x :
  round_trips c → round_trips x → round_trips (assign c k x).
Proof.
  unfold round_trips. destruct c as [| | | | |fs]; try done. intros Hc Hx.
  cbn [assign stringify_parse]. rewrite set_field_stringify_parse, Hx.
  cbn [stringify_parse] in Hc. injection Hc as Hc. by rewrite Hc.
Qed.

Lemma get_round_trips c k x : round_trips c → get c k = Some x → round_trips x.
Proof.
  unfold round_trips. intros Hc Hx. destruct (is_object c) eqn:Hobj.
  - pose proof (get_stringify_parse c k Hobj) as H. rewrite Hc, Hx in H.
    simpl in H. by injection H.
  - by destruct c.
Qed.

(** A record made from a page holds texts only. *)
Lemma detail_json_round_trips d url : round_trips (detail_json d url).
Proof.
  assert (stringify_parse <$> (JStr <$> classes d) = JStr <$> classes d) as H.
  { rewrite <- list_fmap_compose. by apply list_fmap_ext. }
  unfold round_trips, detail_json. cbn [stringify_parse fmap list_fmap fst snd].
  fold (@fmap list _ _ _ stringify_parse (JStr <$> classes d)). by rewrite H.
Qed.

Lemma backfill_round_trips url info : round_trips info → round_trips (backfill url info).
Proof.
  intros H. unfold backfill. destruct (truthy _); [done|]. by apply assign_round_trips.
Qed.

Lemma visitOf_round_trips pg c url vis x :
  round_trips c → visitOf pg url (get c url) = Ok vis → v_store vis = Some x →
  round_trips x.
Proof.
  intros Hc. unfold visitOf. destruct (usable (get c url)) as [info0|] eqn:Hu.
  - destruct (risk _); [|done]. intros [= <-]. cbn [v_store].
    destruct (truthy (get info0 _)); [done|]. intros [= <-].
    apply backfill_round_trips, (get_round_trips c url); [done|].
    unfold usable in Hu. destruct (get c url) as [i|]; [|done].
    destruct (truthy (Some i)); [|done]. by injection Hu as ->.
  - destruct (read_response _ _); intros [= <-]; [|done]. intros [= <-].
    apply detail_json_round_trips.
Qed.

Lemma summarise_summary st :
  (score (summarise st), explanation (summarise st))
  = summary_of (hasLive st) (hasRedMark st).
Proof.
  unfold summary_of, summarise. simpl.
  by destruct (hasLive st), (hasRedMark st).
Qed.

Lemma tallyAll_ok ds : ∀ st, Forall risk_ok ds →
  tallyAll ds st =
    (Tally (details st) (cached st) (hasLive st || existsb live ds)
       (hasRedMark st || existsb red ds), None).
Proof.
  induction ds as [|d ds IH]; intros st Hok; simpl.
  - rewrite !orb_false_r. by destruct st.
  - inversion Hok as [|?? [[l r] Hr] Hok']; subst.
    rewrite noteRisk_risk, Hr, IH by done. simpl.
    unfold red, live. rewrite Hr, (risk_live _ _ _ Hr). by rewrite !orb_assoc.
Qed.

Lemma tallyAll_throws ds : ∀ st, ¬ Forall risk_ok ds →
  ∃ st' msg, tallyAll ds st = (st', Some msg).
Proof.
  induction ds as [|d ds IH]; intros st Hnot; simpl.
  - destruct Hnot. constructor.
  - rewrite noteRisk_risk. destruct (risk d) as [[l r]|msg] eqn:Hr; [|eauto].
    apply IH. intros Hok. apply Hnot. constructor; [by exists (l, r)|done].
Qed.

#[local] Instance risk_ok_dec d : Decision (risk_ok d).
Proof.
  unfold risk_ok. destruct (risk d) as [lr|msg]; [left; eauto|right].
  by intros [? ?].
Defined.

Lemma classify_Ok ds r :
  classify ds = Ok r ↔
  Forall risk_ok ds ∧ r = summary_of (existsb live ds) (existsb red ds).
Proof.
  unfold classify.
  destruct (decide (Forall risk_ok ds)) as [Hok|Hnot].
  - rewrite tallyAll_ok by done. rewrite summarise_summary. simpl.
    split; [intros [= <-]; done|intros [_ ->]; done].
  - destruct (tallyAll_throws ds (Tally ds (JObj []) false false) Hnot)
      as (st' & msg & ->).
    split; [done|]. by intros [? _].
Qed.

Lemma existsb_Permutation {A} (f : A → bool) (l l' : list A) :
  l ≡ₚ l' → existsb f l = existsb f l'.
Proof.
  induction 1; simpl; [done| |by rewrite !orb_assoc, (orb_comm (f y))|congruence].
  by f_equal.
Qed.

Lemma lists_elem xs code : lists xs code = true ↔ JStr (str code) ∈ xs.
Proof.
  unfold lists. rewrite existsb_exists. split.
  - intros (e & Hin%list_elem_of_In & He). destruct e; try done. simpl in He.
    apply bool_decide_eq_true in He. by subst.
  - intros Hin%list_elem_of_In. exists (JStr (str code)). split; [done|].
    simpl. by apply bool_decide_eq_true.
Qed.

Lemma risk_classes_ok d :
  classes_ok d → risk d = Ok (is_live d, is_live d && has_flagged_class d).
Proof.
  unfold classes_ok, risk, has_flagged_class.
  destruct (is_live d); [|done]. intros H. destruct (H eq_refl) as [xs ->]. done.
Qed.

Lemma red_classes_ok d : classes_ok d → red d = is_live d && has_flagged_class d.
Proof. intros H. unfold red. by rewrite risk_classes_ok. Qed.

Lemma classify_spec ds : Forall classes_ok ds → classify ds = Ok (spec_summary ds).
Proof.
  intros Hok. apply classify_Ok. split.
  - eapply Forall_impl; [exact Hok|]. intros d Hd. eexists. by apply risk_classes_ok.
  - unfold summary_of, spec_summary, summarise. simpl.
    assert (existsb red ds = existsb (λ d, is_live d && has_flagged_class d) ds) as ->.
    { induction Hok as [|d ds Hd _ IH]; [done|]. simpl. by rewrite IH, red_classes_ok. }
    unfold live. fold (existsb is_live ds).
    by destruct (existsb is_live ds), (existsb _ ds).
Qed.

Lemma spec_summary_Red ds :
  Exists (λ d, is_live d = true ∧ has_flagged_class d = true) ds →
  spec_summary ds =
    (str "Red", str "At least one live filing lists classes 009, 028 or 041.").
Proof.
  intros (d & Hin%list_elem_of_In & Hl & Hf)%Exists_exists. unfold spec_summary.
  assert (existsb is_live ds = true) as ->.
  { apply existsb_exists. eauto. }
  assert (existsb (λ d, is_live d && has_flagged_class d) ds = true) as ->.
  { apply existsb_exists. exists d. by rewrite Hl, Hf. }
  done.
Qed.

Lemma extractDetailLinks_NoDup html : NoDup (extractDetailLinks html).
Proof.
  unfold extractDetailLinks. rewrite set_from_first_occurrences.
  apply first_occurrences_NoDup.
Qed.

(** *** [processName], when the search page was fetched *)

Lemma processName_visited name enc html w vs :
  encodeURIComponent name = Some enc →
  read_response (searchUrl enc) (pages w (searchUrl enc)) = Ok html →
  visited (pages w) (storedCache w enc) (extractDetailLinks html) vs →
  processName name w =
    (Ok (summarise (tallied (startTally w enc) (v_detail <$> vs)
                      (endCache w enc (extractDetailLinks html) vs))),
     endWorld w enc (extractDetailLinks html) vs).
Proof.
  intros Henc Hhtml Hvs. rewrite (processName_eq name enc) by done.
  cbv zeta. rewrite Hhtml.
  rewrite (visitLinks_visited _ (extractDetailLinks_NoDup html) (storedCache w enc)
             _ _ vs); [|done|done].
  unfold endWorld, endCache, startTally. simpl. by rewrite !logged_logged.
Qed.

Lemma processName_Ok name w res w' :
  processName name w = (Ok res, w') →
  ∃ enc html vs,
    encodeURIComponent name = Some enc
    ∧ read_response (searchUrl enc) (pages w (searchUrl enc)) = Ok html
    ∧ visited (pages w) (storedCache w enc) (extractDetailLinks html) vs
    ∧ res = summarise (tallied (startTally w enc) (v_detail <$> vs)
                         (endCache w enc (extractDetailLinks html) vs))
    ∧ w' = endWorld w enc (extractDetailLinks html) vs.
Proof.
  intros Hrun. destruct (encodeURIComponent name) as [enc|] eqn:Henc.
  2: { unfold processName, safeName in Hrun. rewrite Henc in Hrun. done. }
  pose proof Hrun as Hrun'. rewrite (processName_eq name enc) in Hrun' by done.
  cbv zeta in Hrun'.
  destruct (read_response _ _) as [html|msg] eqn:Hhtml; [|done].
  destruct (visitLinks _ _ _) as [[st|msg] w3] eqn:Hloop; [|done].
  apply (visitLinks_Ok _ (extractDetailLinks_NoDup html) (storedCache w enc))
    in Hloop as [vs Hvs]; [|done].
  rewrite (processName_visited name enc html w vs) in Hrun by done.
  injection Hrun as <- <-. by exists enc, html, vs.
Qed.

Lemma result_details_summarise st : result_details (summarise st) = details st.
Proof. unfold summarise. by destruct (hasLive st), (hasRedMark st). Qed.

Lemma summarise_tallied w enc ds c :
  let res := summarise (tallied (startTally w enc) ds c) in
  result_details res = ds
  ∧ (score res, explanation res) = summary_of (existsb live ds) (existsb red ds).
Proof.
  intros res. unfold res. by rewrite result_details_summarise, summarise_summary.
Qed.

(** *** Records of visits *)

Lemma str_detailUrl_status : str "detailUrl" ≠ str "status".
Proof. by vm_compute. Qed.
Lemma str_detailUrl_classes : str "detailUrl" ≠ str "classes".
Proof. by vm_compute. Qed.

Lemma is_live_backfill url info : is_live (backfill url info) = is_live info.
Proof.
  unfold backfill. destruct (truthy _); [done|]. unfold is_live.
  by rewrite get_assign_ne by apply str_detailUrl_status.
Qed.

Lemma classes_backfill url info :
  get (backfill url info) (str "classes") = get info (str "classes").
Proof.
  unfold backfill. destruct (truthy _); [done|].
  by rewrite get_assign_ne by apply str_detailUrl_classes.
Qed.

Lemma classes_ok_backfill url info : classes_ok info → classes_ok (backfill url info).
Proof. unfold classes_ok. by rewrite is_live_backfill, classes_backfill. Qed.

Lemma classes_ok_fresh d url : classes_ok (detail_json d url).
Proof. intros _. eexists. apply detail_json_classes. Qed.

Lemma classes_ok_error msg : classes_ok (errorRecord msg).
Proof. intros H. by rewrite errorRecord_not_live in H. Qed.

Lemma usable_Some v info : usable v = Some info → v = Some info.
Proof.
  destruct v as [i|]; [|done]. unfold usable.
  by destruct (truthy (Some i)); intros [= ->].
Qed.

Lemma visitOf_risk_ok pg url v vis : visitOf pg url v = Ok vis → risk_ok (v_detail vis).
Proof.
  unfold visitOf. destruct (usable v) as [info0|].
  - destruct (risk (backfill url info0)) as [lr|] eqn:Hr; [|done].
    intros [= <-]. by exists lr.
  - destruct (read_response _ _) as [html|msg]; intros [= <-]; simpl.
    + destruct (risk_fresh (parseDetail html) url) as (l & r & Hr). by exists (l, r).
    + exists (false, false). apply risk_errorRecord.
Qed.

Lemma visitOf_classes_ok pg url v vis :
  (∀ info, v = Some info → classes_ok info) →
  visitOf pg url v = Ok vis → classes_ok (v_detail vis).
Proof.
  intros Hv. unfold visitOf. destruct (usable v) as [info0|] eqn:Hu.
  - destruct (risk _); [|done]. intros [= <-]. simpl.
    apply classes_ok_backfill, Hv. by apply usable_Some.
  - destruct (read_response _ _) as [html|msg]; intros [= <-]; simpl.
    + apply classes_ok_fresh.
    + apply classes_ok_error.
Qed.

Lemma visitOf_total pg url v :
  (∀ info, v = Some info → classes_ok info) → ∃ vis, visitOf pg url v = Ok vis.
Proof.
  intros Hv. unfold visitOf. destruct (usable v) as [info0|] eqn:Hu.
  - rewrite risk_classes_ok; [eauto|]. apply classes_ok_backfill, Hv.
    by apply usable_Some.
  - destruct (read_response _ _); eauto.
Qed.

Lemma visited_total pg c links :
  cache_ok c → ∃ vs, visited pg c links vs ∧ Forall classes_ok (v_detail <$> vs).
Proof.
  intros Hc. induction links as [|rel links (vs & Hvs & Hok)].
  - exists []. split; constructor.
  - destruct (visitOf_total pg (linkUrl rel) (get c (linkUrl rel))) as [v Hv].
    { intros info. apply Hc. }
    exists (v :: vs). split; [by constructor|]. constructor; [|done].
    eapply visitOf_classes_ok; [|exact Hv]. intros info. apply Hc.
Qed.

Lemma visited_risk_ok pg c links vs :
  visited pg c links vs → Forall risk_ok (v_detail <$> vs).
Proof.
  induction 1 as [|rel v links vs Hv _ IH]; [constructor|].
  constructor; [by eapply visitOf_risk_ok|done].
Qed.

(** The score and the explanation of a returned result are the
    classification of its [details]. *)
Lemma processName_classify name w res w' :
  processName name w = (Ok res, w') →
  classify (result_details res) = Ok (score res, explanation res).
Proof.
  intros (enc & html & vs & _ & _ & Hvs & -> & _)%processName_Ok.
  destruct (summarise_tallied w enc (v_detail <$> vs)
              (endCache w enc (extractDetailLinks html) vs)) as [-> ->].
  apply classify_Ok. split; [by eapply visited_risk_ok|done].
Qed.

(** Whenever [processName] returns, and the live records among the
    assembled [details] carry a list of classes, the score is Green when no
    record is live, Red when a live record lists 009, 028 or 041, and Yellow
    otherwise, with the fixed explanation of that case. It does return
    such a result when the search page is fetched and the live records of
    the cache carry a list of classes. *)
Theorem processName_score (name : jsstring) (w : world) :
  (∀ res w', processName name w = (Ok res, w') →
     Forall classes_ok (result_details res) →
     (score res, explanation res) = spec_summary (result_details res))
  ∧ (∀ enc html,
       encodeURIComponent name = Some enc →
       read_response (searchUrl enc) (pages w (searchUrl enc)) = Ok html →
       cache_ok (storedCache w enc) →
       ∃ res w', processName name w = (Ok res, w')
                 ∧ Forall classes_ok (result_details res)).
Proof.
  split.
  - intros res w' Hrun%processName_classify Hok.
    rewrite classify_spec in Hrun by done. by injection Hrun.
  - intros enc html Henc Hhtml Hc.
    destruct (visited_total (pages w) (storedCache w enc)
                (extractDetailLinks html) Hc) as (vs & Hvs & Hok).
    eexists _, _. split; [by apply (processName_visited name enc html w vs)|].
    by rewrite result_details_summarise.
Qed.

(** Classifying a permutation of a list of records yields the same
    score and explanation; a list whose live records carry a list of
    classes, one of them listing 009, 028 or 041, is Red in every order. *)
Theorem classify_permutation (ds ds' : list json) :
  ds ≡ₚ ds' →
  (∀ r, classify ds = Ok r ↔ classify ds' = Ok r)
  ∧ (Forall classes_ok ds →
     Exists (λ d, is_live d = true ∧ has_flagged_class d = true) ds →
     classify ds' =
       Ok (str "Red", str "At least one live filing lists classes 009, 028 or 041.")).
Proof.
  intros Hperm. split.
  - intros r. rewrite !classify_Ok.
    rewrite (existsb_Permutation live ds ds'), (existsb_Permutation red ds ds') by done.
    by rewrite Hperm.
  - intros Hok Hred. rewrite classify_spec by by rewrite <- Hperm.
    f_equal. apply spec_summary_Red. by rewrite <- Hperm.
Qed.

(** *** The batch loop *)

Lemma nameEntry_eq n w :
  nameEntry n w =
    match processName n w with
    | (Ok info, w') => (Ok (result_json info), w')
    | (Throw msg, w') => (Ok (errorEntry msg), w')
    end.
Proof.
  unfold nameEntry, catch. unfold_M.
  by destruct (processName n w) as [[info|msg] w'].
Qed.

Lemma searchAll_cons n rest result w :
  searchAll (n :: rest) result w =
    match nameEntry n w with
    | (Ok v, w') => searchAll rest (setResult result n v) w'
    | (Throw msg, w') => (Throw msg, w')
    end.
Proof. reflexivity. Qed.



(** *** The cache after a call *)

Lemma detailCacheOf_truthy j : truthy (Some (detailCacheOf j)) = true.
Proof.
  unfold detailCacheOf. destruct (truthy (Some j)); cbn [andb]; [|done].
  destruct (get j (str "detailCache")) as [c|]; [|done].
  by destruct (truthy (Some c)) eqn:Ht.
Qed.

Lemma truthy_assign c k x : truthy (Some (assign c k x)) = truthy (Some c).
Proof. by destruct c. Qed.

Lemma truthy_stores links : ∀ c vs,
  truthy (Some (stores c links vs)) = truthy (Some c).
Proof.
  induction links as [|rel links IH]; intros c [|v vs]; cbn [stores]; try done.
  rewrite IH. unfold store. destruct (v_store v); [apply truthy_assign|done].
Qed.

Lemma is_object_stores links : ∀ c vs,
  is_object (stores c links vs) = is_object c.
Proof.
  induction links as [|rel links IH]; intros c [|v vs]; simpl; try done.
  by rewrite IH, is_object_store.
Qed.

Lemma storedCache_logged es w enc : storedCache (logged es w) enc = storedCache w enc.
Proof. done. Qed.

Lemma detailCacheOf_wrap c :
  truthy (Some c) = true → detailCacheOf (JObj [(str "detailCache", c)]) = c.
Proof.
  intros H. unfold detailCacheOf.
  change (get (JObj [(str "detailCache", c)]) (str "detailCache")) with (Some c).
  by rewrite H.
Qed.

Lemma storedCache_saved w enc c :
  storedCache (saved w enc (JObj [(str "detailCache", c)])) enc
  = if writable w (cacheFile enc)
    then detailCacheOf (JObj [(str "detailCache", stringify_parse c)])
    else storedCache w enc.
Proof.
  unfold saved, storedCache.
  destruct (writable w (cacheFile enc)); [|done]. simpl.
  by rewrite lookup_insert_eq.
Qed.

Lemma storedCache_endWorld w enc links vs :
  storedCache (endWorld w enc links vs) enc
  = if writable w (cacheFile enc)
    then detailCacheOf
           (JObj [(str "detailCache", stringify_parse (endCache w enc links vs))])
    else storedCache w enc.
Proof. unfold endWorld. by rewrite storedCache_saved. Qed.

(** After a call the cache file holds, under every URL, what the loop left
    there, as [JSON.stringify] writes it. *)
Lemma get_endWorld w enc links vs url :
  get (storedCache (endWorld w enc links vs) enc) url
  = if writable w (cacheFile enc)
    then stringify_parse <$> get (endCache w enc links vs) url
    else get (storedCache w enc) url.
Proof.
  rewrite storedCache_endWorld. destruct (writable _ _); [|done].
  set (e := endCache w enc links vs). destruct (is_object e) eqn:He.
  - rewrite detailCacheOf_wrap by by apply truthy_stringify_parse_object.
    by apply get_stringify_parse.
  - assert (get e url = None) as -> by by destruct e.
    unfold detailCacheOf.
    change (get (JObj [(str "detailCache", stringify_parse e)]) (str "detailCache"))
      with (Some (stringify_parse e)).
    change (truthy (Some (JObj [(str "detailCache", stringify_parse e)]))) with true.
    cbn [andb default]. destruct (truthy (Some (stringify_parse e))); [|done].
    pose proof (is_object_stringify_parse e) as H. rewrite He in H.
    by destruct (stringify_parse e).
Qed.

Lemma stores_round_trips pg c0 links vs :
  round_trips c0 → visited pg c0 links vs →
  ∀ c, round_trips c → round_trips (stores c links vs).
Proof.
  intros Hc0. induction 1 as [|rel v links vs Hv _ IH]; intros c Hc; [exact Hc|].
  cbn [stores]. apply IH. unfold store. destruct (v_store v) as [x|] eqn:Hx; [|done].
  apply assign_round_trips; [done|].
  exact (visitOf_round_trips _ _ _ _ _ Hc0 Hv Hx).
Qed.

(** When the cache mapping the call began with is read back as written,
    so is the one it leaves, and the file holds exactly that. *)
Lemma storedCache_endWorld_kept w enc links vs :
  round_trips (storedCache w enc) →
  visited (pages w) (storedCache w enc) links vs →
  round_trips (endCache w enc links vs)
  ∧ storedCache (endWorld w enc links vs) enc
    = if writable w (cacheFile enc) then endCache w enc links vs
      else storedCache w enc.
Proof.
  intros Hc Hvs.
  assert (round_trips (endCache w enc links vs)) as He
    by by apply (stores_round_trips (pages w) (storedCache w enc)).
  split; [done|]. rewrite storedCache_endWorld, He.
  destruct (writable _ _); [|done]. apply detailCacheOf_wrap.
  unfold endCache, storedCache. by rewrite truthy_stores, detailCacheOf_truthy.
Qed.

(** A falsy value is written as a falsy value. *)
Lemma usable_stringify_parse v :
  usable v = None → usable (stringify_parse <$> v) = None.
Proof.
  destruct v as [x|]; [|done]. unfold usable. cbn [fmap option_fmap option_map].
  destruct (truthy (Some x)) eqn:Hx; [done|]. intros _.
  assert (truthy (Some (stringify_parse x)) = false) as ->; [|done].
  destruct x as [|b|bits|s|xs|fs]; try done.
  cbn [stringify_parse]. cbv zeta. cbn [truthy] in Hx. cbv zeta in Hx.
  destruct (2047 * 2 ^ 52 <=? bits mod 2 ^ 63) eqn:E1; [done|].
  destruct (bits mod 2 ^ 63 =? 0) eqn:E2; [done|]. done.
Qed.

Lemma pages_endWorld w enc links vs : pages (endWorld w enc links vs) = pages w.
Proof. unfold endWorld, saved. by destruct (writable _ _). Qed.

Lemma log_endWorld w enc links vs :
  log (endWorld w enc links vs)
  = log w ++ Fetch (searchUrl enc) :: loadEvents w enc
      ++ fetchEvents links vs ++ [WriteFile (cacheFile enc)].
Proof.
  unfold endWorld, saved, logged. destruct (writable _ _); cbn [log];
    by rewrite <- !app_assoc, <- app_comm_cons, <- !app_assoc.
Qed.

(** The cache keeps its value under a URL that no visit stored to. *)
Lemma get_stores_unstored url links : ∀ c vs,
  (∀ j rel v, links !! j = Some rel → vs !! j = Some v →
     linkUrl rel = url → v_store v = None) →
  get (stores c links vs) url = get c url.
Proof.
  induction links as [|rel links IH]; intros c [|v vs] Hun; simpl; try done.
  rewrite IH.
  - destruct (decide (linkUrl rel = url)) as [Heq|Hne].
    + by rewrite (Hun 0%nat rel v).
    + by apply get_store_ne.
  - intros j rel' v' Hj Hv. by apply (Hun (S j)).
Qed.

Lemma fetchedUrls_lookup links : ∀ vs i rel v,
  links !! i = Some rel → vs !! i = Some v → v_fetched v = true →
  linkUrl rel ∈ fetchedUrls links vs.
Proof.
  induction links as [|rel0 links IH]; intros [|v0 vs] [|i] rel v; simpl; try done.
  - intros [= <-] [= <-] ->. by left.
  - intros Hi Hv Hf. apply elem_of_app. right. by eapply IH.
Qed.

Lemma visitOf_failed pg url v msg :
  usable v = None → read_response url (pg url) = Throw msg →
  visitOf pg url v = Ok (Visit (errorRecord msg) true None).
Proof. intros Hu Hr. unfold visitOf. by rewrite Hu, Hr. Qed.

(** Where the live records of the cache carry a list of classes, a
    discovered detail URL that the cache cannot serve and whose fetch
    fails gets, at its own position in [details], a record holding only the
    error text; the cache file holds nothing usable under that URL
    afterwards, and nothing at all when it held nothing, so the next call
    fetches the page again; the other links are processed (there is one
    record per link) and the batch goes on with the names that follow. *)
Theorem detail_failure (name enc html : jsstring) (w : world) (i : nat)
  (relLink msg : jsstring) :
  encodeURIComponent name = Some enc →
  read_response (searchUrl enc) (pages w (searchUrl enc)) = Ok html →
  cache_ok (storedCache w enc) →
  extractDetailLinks html !! i = Some relLink →
  usable (get (storedCache w enc) (linkUrl relLink)) = None →
  read_response (linkUrl relLink) (pages w (linkUrl relLink)) = Throw msg →
  ∃ res w',
    processName name w = (Ok res, w')
    ∧ length (result_details res) = length (extractDetailLinks html)
    ∧ result_details res !! i
      = Some (JObj [(str "error", JStr (str "Error processing detail page: " ++ msg))])
    ∧ usable (get (storedCache w' enc) (linkUrl relLink)) = None
    ∧ (get (storedCache w enc) (linkUrl relLink) = None →
       get (storedCache w' enc) (linkUrl relLink) = None)
    ∧ (∀ res2 w2, processName name w' = (Ok res2, w2) →
         Fetch (linkUrl relLink) ∈ drop (length (log w')) (log w2))
    ∧ (∀ rest result,
         searchAll (name :: rest) result w
         = searchAll rest (setResult result name (result_json res)) w').
Proof.
  intros Henc Hhtml Hc Hi Hu Hfail.
  set (links := extractDetailLinks html) in *.
  destruct (visited_total (pages w) (storedCache w enc) links Hc) as (vs & Hvs & _).
  pose proof (processName_visited name enc html w vs Henc Hhtml Hvs) as Hrun.
  fold links in Hrun.
  destruct (Forall2_lookup_l _ _ _ _ _ Hvs Hi) as (v & Hv & Hvisit).
  rewrite (visitOf_failed _ _ _ msg Hu Hfail) in Hvisit. injection Hvisit as <-.
  assert (get (endCache w enc links vs) (linkUrl relLink)
          = get (storedCache w enc) (linkUrl relLink)) as Hsame.
  { apply get_stores_unstored. intros j rel v' Hj Hv' ?%linkUrl_inj. subst rel.
    pose proof (extractDetailLinks_NoDup html) as Hnd. fold links in Hnd.
    assert (j = i) as -> by by eapply NoDup_lookup.
    rewrite Hv in Hv'. by injection Hv' as <-. }
  assert (usable (get (storedCache (endWorld w enc links vs) enc) (linkUrl relLink))
          = None) as Hkept.
  { rewrite get_endWorld, Hsame. destruct (writable _ _); [|done].
    by apply usable_stringify_parse. }
  eexists _, _. split; [exact Hrun|]. rewrite result_details_summarise.
  change (details (tallied _ ?ds _)) with ds.
  split; [rewrite length_fmap; by eapply visited_length|].
  split; [by rewrite list_lookup_fmap, Hv|]. split; [done|]. split.
  { rewrite get_endWorld, Hsame. intros ->. by destruct (writable _ _). }
  split.
  - intros res2 w2 (enc2 & html2 & vs2 & Henc2 & Hhtml2 & Hvs2 & _ & ->)%processName_Ok.
    rewrite Henc in Henc2. injection Henc2 as <-.
    rewrite pages_endWorld in Hhtml2, Hvs2. rewrite Hhtml in Hhtml2.
    injection Hhtml2 as <-. fold links in Hvs2 |- *.
    destruct (Forall2_lookup_l _ _ _ _ _ Hvs2 Hi) as (v2 & Hv2 & Hvisit2).
    rewrite (visitOf_failed _ _ _ msg Hkept Hfail) in Hvisit2.
    injection Hvisit2 as <-.
    rewrite (log_endWorld (endWorld w enc links vs)), drop_app_length.
    apply elem_of_cons. right.
    apply elem_of_app. right. apply elem_of_app. left.
    apply list_elem_of_fmap. exists (linkUrl relLink). split; [done|].
    by eapply fetchedUrls_lookup.
  - intros rest result. by rewrite searchAll_cons, nameEntry_eq, Hrun.
Qed.

Lemma cache_ok_empty : cache_ok (JObj []).
Proof. by intros url info H. Qed.

Lemma detail_failure_witness :
  extractDetailLinks demoSearch !! 1%nat
    = Some (str "/australia/trademark/trademark-detail/2/b")
  ∧ ∃ res w',
      processName (str "acme toys") demoSite = (Ok res, w')
      ∧ length (result_details res) = 2%nat
      ∧ result_details res !! 1%nat
        = Some (JObj [(str "error",
             JStr (str "Error processing detail page: Failed to fetch https://www.trademarkelite.com/australia/trademark/trademark-detail/2/b: 404"))]).
Proof.
  split; [by vm_compute|].
  destruct (detail_failure (str "acme toys") (str "acme%20toys") demoSearch
              demoSite 1 (str "/australia/trademark/trademark-detail/2/b")
              (str "Failed to fetch https://www.trademarkelite.com/australia/trademark/trademark-detail/2/b: 404"))
    as (res & w' & Hrun & Hlen & Hrec & _);
    [by vm_compute|by vm_compute|exact cache_ok_empty|by vm_compute|by vm_compute
    |by vm_compute|].
  exists res, w'. split; [done|]. split; [|done].
  rewrite Hlen. by vm_compute.
Defined.

Lemma processName_score_witness :
  ∃ res w',
    processName (str "acme toys") demoSite = (Ok res, w')
    ∧ (score res, explanation res)
      = (str "Red", str "At least one live filing lists classes 009, 028 or 041.").
Proof.
  destruct (processName_score (str "acme toys") demoSite) as [Hscore Hret].
  destruct (Hret (str "acme%20toys") demoSearch) as (res & w' & Hrun & Hok);
    [by vm_compute|by vm_compute|exact cache_ok_empty|].
  exists res, w'. split; [done|]. rewrite (Hscore res w' Hrun Hok).
  assert (fst (processName (str "acme toys") demoSite) = Ok res) as Hres
    by by rewrite Hrun.
  vm_compute in Hres. injection Hres as <-. by vm_compute.
Defined.

Lemma classify_permutation_witness :
  [deadToy; liveToy] ≡ₚ [liveToy; deadToy]
  ∧ classify [liveToy; deadToy]
    = Ok (str "Red", str "At least one live filing lists classes 009, 028 or 041.").
Proof.
  split; [apply perm_swap|].
  apply (classify_permutation [deadToy; liveToy] [liveToy; deadToy]).
  - apply perm_swap.
  - repeat constructor; intros _; eexists; reflexivity.
  - apply Exists_cons_tl, Exists_cons_hd. by vm_compute.
Defined.

(** C9. When the owner cell of the page holds the text
    [Acme Pty Ltd -> 1 Main St, Sydney], [parseDetail] gives the name, the
    address and the joined owner field. *)
Theorem parseDetail_owner_arrow (html : jsstring) :
  match1 (cellRe ownerLabel) html = Some (str "Acme Pty Ltd -> 1 Main St, Sydney") →
  ownerName (parseDetail html) = str "Acme Pty Ltd"
  ∧ ownerAddress (parseDetail html) = str "1 Main St, Sydney"
  ∧ owner (parseDetail html) = str "Acme Pty Ltd, 1 Main St, Sydney".
Proof.
  intros Hcell. unfold parseDetail. rewrite Hcell.
  assert (parseOwner (str "Acme Pty Ltd -> 1 Main St, Sydney")
          = (str "Acme Pty Ltd", str "1 Main St, Sydney")) as ->
    by by vm_compute.
  done.
Qed.

Lemma parseDetail_owner_arrow_witness :
  let html := str "<table><tr><th>Trademark Owner</th><td>Acme Pty Ltd -> 1 Main St, Sydney</td></tr></table>" in
  match1 (cellRe ownerLabel) html = Some (str "Acme Pty Ltd -> 1 Main St, Sydney")
  ∧ owner (parseDetail html) = str "Acme Pty Ltd, 1 Main St, Sydney".
Proof.
  intros html. split; [by vm_compute|].
  apply (parseDetail_owner_arrow html). by vm_compute.
Defined.

(** *** A second call *)

Lemma get_non_object c k : is_object c = false → get c k = None.
Proof. by destruct c. Qed.

Lemma store_non_object c url upd : is_object c = false → store c url upd = c.
Proof. destruct upd; [|done]. by destruct c. Qed.

Lemma get_store_eq c url upd :
  get (store c url upd) url =
    match upd with
    | Some x => if is_object c then Some x else get c url
    | None => get c url
    end.
Proof.
  destruct upd as [x|]; [|done]. simpl. rewrite get_assign, bool_decide_true by done.
  by rewrite andb_true_r.
Qed.

Lemma get_stores_notin url links : ∀ c vs,
  url ∉ linkUrl <$> links → get (stores c links vs) url = get c url.
Proof.
  intros c vs Hnotin. apply get_stores_unstored.
  intros j rel v Hj _ <-. destruct Hnotin. apply list_elem_of_fmap.
  exists rel. split; [done|]. by eapply list_elem_of_lookup_2.
Qed.

Lemma get_stores_at links : NoDup links → ∀ c vs i rel v,
  links !! i = Some rel → vs !! i = Some v →
  get (stores c links vs) (linkUrl rel)
  = get (store c (linkUrl rel) (v_store v)) (linkUrl rel).
Proof.
  induction 1 as [|rel0 links Hnotin Hnodup IH]; intros c vs i rel v; [done|].
  destruct vs as [|v0 vs]; [by destruct i|]. destruct i as [|i]; simpl.
  - intros [= <-] [= <-]. apply get_stores_notin.
    intros (rel' & ->%linkUrl_inj & Hin)%list_elem_of_fmap. done.
  - intros Hi Hv. rewrite (IH _ _ i rel v) by done.
    assert (linkUrl rel0 ≠ linkUrl rel) as Hne.
    { intros ->%linkUrl_inj. by apply Hnotin, list_elem_of_lookup_2 with i. }
    rewrite !get_store_eq, is_object_store, get_store_ne by done. done.
Qed.

Lemma stores_fixed c links : ∀ vs,
  (∀ i rel v, links !! i = Some rel → vs !! i = Some v →
     store c (linkUrl rel) (v_store v) = c) →
  stores c links vs = c.
Proof.
  induction links as [|rel links IH]; intros [|v vs] Hfix; simpl; try done.
  rewrite (Hfix 0%nat rel v) by done. apply IH.
  intros i rel' v' Hi Hv. by apply (Hfix (S i)).
Qed.

Lemma truthy_str url : url ≠ [] → truthy (Some (JStr url)) = true.
Proof. intros H. destruct url; [congruence|done]. Qed.

Lemma backfill_done url info :
  url ≠ [] → is_object info = true →
  truthy (get (backfill url info) (str "detailUrl")) = true
  ∧ backfill url (backfill url info) = backfill url info.
Proof.
  intros Hurl Hobj. unfold backfill at 1 3.
  destruct (truthy (get info (str "detailUrl"))) eqn:Ht.
  - split; [done|]. unfold backfill. by rewrite Ht.
  - assert (truthy (get (assign info (str "detailUrl") (JStr url)) (str "detailUrl"))
            = true) as Ht'.
    { rewrite get_assign, Hobj, bool_decide_true by done. by apply truthy_str. }
    split; [done|]. unfold backfill. by rewrite Ht', Ht.
Qed.

Lemma backfill_non_object url info : is_object info = false → backfill url info = info.
Proof. intros H. unfold backfill. destruct (truthy _); [done|]. by destruct info. Qed.

Lemma usable_truthy info : truthy (Some info) = true → usable (Some info) = Some info.
Proof. intros H. unfold usable. by rewrite H. Qed.

Lemma truthy_backfill url info : truthy (Some (backfill url info)) = truthy (Some info).
Proof. unfold backfill. destruct (truthy (get _ _)); [done|apply truthy_assign]. Qed.

Lemma usable_inv v info : usable v = Some info → v = Some info ∧ truthy (Some info) = true.
Proof.
  destruct v as [i|]; [|done]. unfold usable.
  destruct (truthy (Some i)) eqn:Ht; [|done]. by intros [= <-].
Qed.

(** Visiting a URL again, with what the first visit left in the cache
    under it: the same record; and when the cache is an object, a fetch
    only where the first fetch failed. *)
Lemma visitOf_again pg c url vis :
  url ≠ [] → visitOf pg url (get c url) = Ok vis →
  ∃ vis',
    visitOf pg url (get (store c url (v_store vis)) url) = Ok vis'
    ∧ v_detail vis' = v_detail vis
    ∧ (is_object c = true → ∀ x, v_store vis' = Some x →
         get (store c url (v_store vis)) url = Some x)
    ∧ (is_object c = true → v_fetched vis' = true →
         ∃ msg, read_response url (pg url) = Throw msg).
Proof.
  intros Hurl Hvis. pose proof Hvis as Hvis0. unfold visitOf in Hvis.
  destruct (usable (get c url)) as [info0|] eqn:Hu.
  - apply usable_inv in Hu as [Hget Ht].
    assert (is_object c = true) as Hc by (destruct c; done).
    destruct (risk (backfill url info0)) as [lr|] eqn:Hr; [|done].
    injection Hvis as <-. cbn [v_detail v_store v_fetched].
    destruct (truthy (get info0 (str "detailUrl"))) eqn:Hd.
    + exists (Visit (backfill url info0) false None). cbn [store v_detail v_store v_fetched].
      split; [|done]. rewrite Hvis0. unfold backfill. by rewrite Hd.
    + rewrite get_store_eq, Hc.
      destruct (is_object info0) eqn:Hobj.
      * destruct (backfill_done url info0 Hurl Hobj) as [Hd' Hfix].
        exists (Visit (backfill url info0) false None). cbn [v_detail v_store v_fetched].
        split; [|done]. unfold visitOf.
        rewrite usable_truthy by by rewrite truthy_backfill.
        rewrite Hfix, Hr. unfold backfill at 1. rewrite Hd.
        fold (backfill url info0). unfold backfill in Hd' |- *. rewrite Hd in Hd' |- *.
        by rewrite Hd'.
      * rewrite (backfill_non_object url info0 Hobj) in *.
        exists (Visit info0 false (Some info0)). cbn [v_detail v_store v_fetched].
        split; [|split; [done|split; [by intros _ x [= <-]|done]]].
        unfold visitOf. rewrite usable_truthy by done.
        rewrite (backfill_non_object url info0 Hobj), Hr.
        by rewrite (get_non_object info0 _ Hobj).
  - destruct (read_response url (pg url)) as [html|msg] eqn:Hresp;
      injection Hvis as <-; cbn [v_detail v_store v_fetched].
    + rewrite get_store_eq. destruct (is_object c) eqn:Hc.
      * exists (Visit (detail_json (parseDetail html) url) false None).
        cbn [v_detail v_store v_fetched]. split; [|done]. unfold visitOf.
        rewrite usable_truthy by done. unfold backfill.
        rewrite detail_json_detailUrl, truthy_str by done.
        destruct (risk_fresh (parseDetail html) url) as (l & r & ->). done.
      * exists (Visit (detail_json (parseDetail html) url) true
                  (Some (detail_json (parseDetail html) url))).
        cbn [v_detail v_store v_fetched]. by rewrite Hvis0.
    + exists (Visit (errorRecord msg) true None). cbn [store v_detail v_store v_fetched].
      split; [done|]. split; [done|]. split; [done|]. eauto.
Qed.

Lemma linkUrl_nonempty rel : linkUrl rel ≠ [].
Proof. done. Qed.

Lemma second_visits pg c0 c1 links vs :
  visited pg c0 links vs →
  is_object c1 = is_object c0 →
  (∀ i rel v, links !! i = Some rel → vs !! i = Some v →
     get c1 (linkUrl rel) = get (store c0 (linkUrl rel) (v_store v)) (linkUrl rel)) →
  ∃ vs2,
    visited pg c1 links vs2
    ∧ v_detail <$> vs2 = v_detail <$> vs
    ∧ (∀ i rel v2, links !! i = Some rel → vs2 !! i = Some v2 →
         store c1 (linkUrl rel) (v_store v2) = c1)
    ∧ (is_object c0 = true → ∀ url, url ∈ fetchedUrls links vs2 →
         ∃ msg, read_response url (pg url) = Throw msg).
Proof.
  intros Hvs Hobj. induction Hvs as [|rel v links vs Hv _ IH]; intros Hat.
  - exists []. split; [constructor|]. split; [done|]. split; [done|].
    by intros _ url ?%elem_of_nil.
  - destruct IH as (vs2 & Hvs2 & Hds & Hfix & Hfetch).
    { intros i rel' v' Hi Hv'. by apply (Hat (S i)). }
    destruct (visitOf_again pg c0 (linkUrl rel) v (linkUrl_nonempty rel) Hv)
      as (v2 & Hv2 & Hd & Hstored & Hfetched).
    rewrite <- (Hat 0%nat rel v) in Hv2, Hstored by done.
    exists (v2 :: vs2). split; [by constructor|]. split; [simpl; by f_equal|]. split.
    + intros [|i] rel' v' Hi Hv'; simpl in Hi, Hv'; [|by eapply Hfix].
      injection Hi as <-. injection Hv' as <-.
      destruct (is_object c0) eqn:Hc0; [|by apply store_non_object].
      destruct (v_store v2) as [x|] eqn:Hx; [|done]. simpl.
      apply assign_same. by apply Hstored.
    + intros Hc0 url. simpl. rewrite elem_of_app. intros [Hin|Hin]; [|by apply Hfetch].
      destruct (v_fetched v2) eqn:Hf; [|by apply elem_of_nil in Hin].
      apply list_elem_of_singleton in Hin as ->. by apply Hfetched.
Qed.

Lemma second_pass pg c0 links vs :
  NoDup links → visited pg c0 links vs →
  ∃ vs2,
    visited pg (stores c0 links vs) links vs2
    ∧ v_detail <$> vs2 = v_detail <$> vs
    ∧ stores (stores c0 links vs) links vs2 = stores c0 links vs
    ∧ (is_object c0 = true → ∀ url, url ∈ fetchedUrls links vs2 →
         ∃ msg, read_response url (pg url) = Throw msg).
Proof.
  intros Hnd Hvs.
  destruct (second_visits pg c0 (stores c0 links vs) links vs Hvs)
    as (vs2 & Hvs2 & Hds & Hfix & Hfetch).
  { apply is_object_stores. }
  { intros i rel v Hi Hv. by apply get_stores_at with i. }
  exists vs2. split; [done|]. split; [done|]. split; [by apply stores_fixed|done].
Qed.

Lemma summarise_start w enc w' enc' ds c c' :
  summarise (tallied (startTally w enc) ds c)
  = summarise (tallied (startTally w' enc') ds c').
Proof. reflexivity. Qed.

Lemma loadEvents_endWorld w enc links vs :
  writable w (cacheFile enc) = true →
  loadEvents (endWorld w enc links vs) enc
  = [ExistsFile (cacheFile enc); ReadFile (cacheFile enc)].
Proof.
  intros Hw. unfold loadEvents, endWorld, saved. simpl. rewrite Hw. simpl.
  by rewrite lookup_insert_eq.
Qed.

(** C2, amended. Take a cache file that is read back as written (it holds
    no number that [JSON.stringify] writes as another value: true of an
    absent file and of every file a call wrote). When a first call
    returns, a second call in succession, with the upstream pages
    unchanged, returns an identical SearchResult, and the cache file is
    again read back as written. When moreover the first call's cache
    write succeeded and the stored [detailCache] was an object, the second
    call fetches, besides the search page, only detail pages whose fetch
    fails: every URL the first call cached is reused. *)
Theorem processName_again (name enc : jsstring) (w : world) (r1 : SearchResult)
  (w1 : world) :
  encodeURIComponent name = Some enc →
  round_trips (storedCache w enc) →
  processName name w = (Ok r1, w1) →
  ∃ w2,
    processName name w1 = (Ok r1, w2)
    ∧ round_trips (storedCache w1 enc)
    ∧ (writable w (cacheFile enc) = true →
       is_object (storedCache w enc) = true →
       ∃ refetched,
         log w2 = log w1
                  ++ [Fetch (searchUrl enc); ExistsFile (cacheFile enc);
                      ReadFile (cacheFile enc)]
                  ++ (Fetch <$> refetched) ++ [WriteFile (cacheFile enc)]
         ∧ ∀ url, url ∈ refetched →
             ∃ msg, read_response url (pages w url) = Throw msg).
Proof.
  intros Henc Hrt (enc' & html & vs & Henc' & Hhtml & Hvs & -> & ->)%processName_Ok.
  rewrite Henc in Henc'. injection Henc' as <-.
  set (links := extractDetailLinks html) in *.
  pose proof (extractDetailLinks_NoDup html) as Hnd. fold links in Hnd.
  destruct (storedCache_endWorld_kept w enc links vs Hrt Hvs) as [Hend Hfile].
  destruct (writable w (cacheFile enc)) eqn:Hw.
  - destruct (second_pass (pages w) (storedCache w enc) links vs Hnd Hvs)
      as (vs2 & Hvs2 & Hds & Hfix & Hfetch).
    exists (endWorld (endWorld w enc links vs) enc links vs2).
    split; [|split].
    + rewrite (processName_visited name enc html _ vs2); [| done | |].
      * fold links. by rewrite Hds.
      * by rewrite pages_endWorld.
      * by rewrite pages_endWorld, Hfile.
    + by rewrite Hfile.
    + intros _ Hobj. exists (fetchedUrls links vs2). split; [|by apply Hfetch].
      rewrite (log_endWorld (endWorld w enc links vs)).
      by rewrite loadEvents_endWorld.
  - exists (endWorld (endWorld w enc links vs) enc links vs).
    split; [|split; [by rewrite Hfile|done]].
    rewrite (processName_visited name enc html _ vs); [done|done| |].
    + by rewrite pages_endWorld.
    + by rewrite pages_endWorld, Hfile.
Qed.

Lemma processName_again_witness :
  ∃ r w1 w2,
    processName (str "acme toys") demoSite = (Ok r, w1)
    ∧ processName (str "acme toys") w1 = (Ok r, w2).
Proof.
  destruct (processName (str "acme toys") demoSite) as [[r1|msg] w1] eqn:Hrun.
  - destruct (processName_again (str "acme toys") (str "acme%20toys") demoSite r1 w1)
      as (w2 & Hrun2 & _); [by vm_compute|by vm_compute|exact Hrun|].
    by exists r1, w1, w2.
  - assert (fst (processName (str "acme toys") demoSite) = Throw msg) as H
      by by rewrite Hrun.
    vm_compute in H. discriminate.
Defined.

(** C2 as stated fails: the site is unchanged between the two calls, the
    results are identical, and the second call fetches a detail page, the
    one whose fetch failed in the first call. *)
Lemma processName_again_refetches :
  let first := processName (str "acme toys") demoSite in
  let second := processName (str "acme toys") first.2 in
  (∃ r, first.1 = Ok r ∧ second.1 = Ok r)
  ∧ drop (length (log first.2)) (log second.2)
    = [Fetch (searchUrl (str "acme%20toys"));
       ExistsFile (str "acme%20toys.json"); ReadFile (str "acme%20toys.json");
       Fetch (linkUrl (str "/australia/trademark/trademark-detail/2/b"));
       WriteFile (str "acme%20toys.json")].
Proof.
  intros first second. split; [|by vm_compute].
  eexists. split; by vm_compute.
Qed.

(** *** A cached record without [classes] *)

(** C8 fails on the code: a cached record with status LIVE and no
    [classes] makes [processName] throw a TypeError; the name ends with an
    error entry and the cache file is not rewritten. *)
Theorem cached_record_without_classes :
  let run := processName (str "acme toys") staleSite in
  run.1 = Throw (str "Cannot read properties of undefined (reading 'includes')")
  ∧ (nameEntry (str "acme toys") staleSite).1
    = Ok (JObj [(str "error",
            JStr (str "Cannot read properties of undefined (reading 'includes')"))])
  ∧ log run.2
    = [Fetch (searchUrl (str "acme%20toys"));
       ExistsFile (str "acme%20toys.json"); ReadFile (str "acme%20toys.json")].
Proof. intros run. split_and!; by vm_compute. Qed.

(** *** The name [__proto__] *)

Lemma visitLinks_log links : ∀ st w,
  ∃ es, log (visitLinks links st w).2 = log w ++ es.
Proof.
  induction links as [|rel links IH]; intros st w.
  - exists []. simpl. by rewrite app_nil_r.
  - rewrite visitLinks_cons, visitLink_eq.
    destruct (visitOf _ _ _) as [v|msg].
    + destruct (IH (noted (v_detail v)
                     (store (cached st) (linkUrl rel) (v_store v)) st)
                  (if v_fetched v then logged [Fetch (linkUrl rel)] w else w))
        as [es Hes].
      rewrite Hes. destruct (v_fetched v); [|eauto].
      exists ([Fetch (linkUrl rel)] ++ es). simpl. by rewrite <- app_assoc.
    + exists []. simpl. by rewrite app_nil_r.
Qed.

Lemma processName_log name enc w :
  encodeURIComponent name = Some enc →
  ∃ es, log (processName name w).2 = log w ++ Fetch (searchUrl enc) :: es.
Proof.
  intros Henc. rewrite (processName_eq name enc) by done. cbv zeta.
  destruct (read_response _ _) as [html|msg]; [|by exists []].
  destruct (visitLinks_log (extractDetailLinks html)
              (Tally [] (storedCache w enc) false false)
              (logged (loadEvents w enc) (logged [Fetch (searchUrl enc)] w)))
    as [es Hes].
  destruct (visitLinks _ _ _) as [[st|msg] w3]; simpl in Hes |- *.
  - unfold saved. destruct (writable w3 _); simpl; rewrite Hes;
      eexists; by rewrite <- !app_assoc.
  - rewrite Hes. eexists. by rewrite <- !app_assoc.
Qed.

Lemma nameEntry_log name enc w :
  encodeURIComponent name = Some enc →
  ∃ v es, (nameEntry name w).1 = Ok v
          ∧ log (nameEntry name w).2 = log w ++ Fetch (searchUrl enc) :: es.
Proof.
  intros Henc. destruct (processName_log name enc w Henc) as [es Hes].
  rewrite nameEntry_eq. destruct (processName name w) as [[info|msg] w']; eauto.
Qed.

(** C10 fails on the code: for the names string [__proto__,__proto__] the
    name is processed twice, one search-page fetch each, and the response
    maps it to nothing. *)
Theorem proto_name_dropped (w : world) :
  let request := Some (JObj [(str "names", JStr (str "__proto__,__proto__"))]) in
  nameList (str "__proto__,__proto__") = [str "__proto__"; str "__proto__"]
  ∧ (apiSearch request w).1 = Ok (Results ∅)
  ∧ ∃ es1 es2,
      log (apiSearch request w).2
      = log w ++ Fetch (searchUrl (str "__proto__")) :: es1
              ++ Fetch (searchUrl (str "__proto__")) :: es2.
Proof.
  intros request.
  assert (nameList (str "__proto__,__proto__") = [str "__proto__"; str "__proto__"])
    as Hlist by by vm_compute.
  split; [done|].
  assert (apiSearch request w
          = match searchAll [str "__proto__"; str "__proto__"] ∅ w with
            | (Ok result, w') => (Ok (Results result), w')
            | (Throw msg, w') => (Throw msg, w')
            end) as ->.
  { unfold apiSearch, request.
    change (get _ (str "names")) with (Some (JStr (str "__proto__,__proto__"))).
    change (str "__proto__,__proto__") with (95 :: str "_proto__,__proto__") at 1.
    cbv iota beta. change (95 :: str "_proto__,__proto__") with (str "__proto__,__proto__").
    rewrite Hlist. reflexivity. }
  assert (encodeURIComponent (str "__proto__") = Some (str "__proto__")) as Henc
    by by vm_compute.
  rewrite searchAll_cons.
  destruct (nameEntry_log (str "__proto__") _ w Henc) as (v1 & es1 & Hv1 & Hl1).
  destruct (nameEntry (str "__proto__") w) as [r1 w1]. simpl in Hv1, Hl1. subst r1.
  rewrite searchAll_cons.
  destruct (nameEntry_log (str "__proto__") _ w1 Henc) as (v2 & es2 & Hv2 & Hl2).
  destruct (nameEntry (str "__proto__") w1) as [r2 w2]. simpl in Hv2, Hl2. subst r2.
  simpl. split; [done|]. exists es1, es2. rewrite Hl2, Hl1.
  by rewrite <- app_assoc.
Qed.

Lemma nameEntry_returns n w : ∃ v w', nameEntry n w = (Ok v, w').
Proof.
  rewrite nameEntry_eq. destruct (processName n w) as [[info|msg] w']; eauto.
Qed.

Lemma setResult_lookup result n v k :
  k ≠ str "__proto__" →
  setResult result n v !! k = if decide (n = k) then Some v else result !! k.
Proof.
  intros Hk. unfold setResult. destruct (decide (n = str "__proto__")) as [->|Hn].
  - by rewrite decide_False by done.
  - destruct (decide (n = k)) as [->|Hne].
    + apply lookup_insert_eq.
    + by apply lookup_insert_ne.
Qed.

(** Every name of the list is processed, in list order, and a name other
    than [__proto__] is mapped to the value of its last processing. *)
Theorem searchAll_last_wins (names : list jsstring) :
  ∀ (result : gmap jsstring json) (w : world),
    ∃ result',
      searchAll names result w = (Ok result', (entries names w).2)
      ∧ length (entries names w).1 = length names
      ∧ ∀ n, n ≠ str "__proto__" →
          result' !! n
          = match lastEntry n names (entries names w).1 with
            | Some v => Some v
            | None => result !! n
            end.
Proof.
  induction names as [|n0 rest IH]; intros result w.
  - exists result. by split.
  - rewrite searchAll_cons. simpl.
    destruct (nameEntry_returns n0 w) as (v0 & w1 & ->).
    destruct (IH (setResult result n0 v0) w1) as (result' & Hrun & Hlen & Hlook).
    destruct (entries rest w1) as [vs w2] eqn:Hent. simpl in *.
    exists result'. split; [done|]. split; [by rewrite Hlen|].
    intros n Hn. rewrite (Hlook n Hn). unfold lastEntry.
    change (zip (n0 :: rest) (v0 :: vs)) with ((n0, v0) :: zip rest vs).
    rewrite filter_cons. cbn [fst].
    destruct (filter (λ p, p.1 = n) (zip rest vs)) as [|p ps] eqn:Hf.
    + rewrite setResult_lookup by done.
      by destruct (decide (n0 = n)).
    + assert (is_Some (last (p :: ps))) as [q Hq] by by apply last_is_Some.
      destruct (decide (n0 = n)); [rewrite last_cons_cons|]; by rewrite Hq.
Qed.

(** *** Further properties of the pipeline *)

(** A search page with no detail link gives Green with an empty [details]. *)
Theorem processName_no_links (name enc html : jsstring) (w : world) :
  encodeURIComponent name = Some enc →
  read_response (searchUrl enc) (pages w (searchUrl enc)) = Ok html →
  extractDetailLinks html = [] →
  ∃ w',
    processName name w
    = (Ok (Result (str "Green")
             (str "No live trademark registrations were found for this name.") []),
       w').
Proof.
  intros Henc Hhtml Hnone. eexists.
  rewrite (processName_visited name enc html w []); [|done|done|].
  - reflexivity.
  - rewrite Hnone. constructor.
Qed.

Lemma processName_no_links_witness :
  extractDetailLinks (str "<html>no results</html>") = []
  ∧ ∃ w',
      processName (str "zzyzx") emptySite
      = (Ok (Result (str "Green")
               (str "No live trademark registrations were found for this name.") []),
         w').
Proof.
  split; [by vm_compute|].
  apply (processName_no_links (str "zzyzx") (str "zzyzx")
           (str "<html>no results</html>") emptySite); by vm_compute.
Defined.

(** A request whose body has no string under [names] is answered with a
    client error, and nothing is fetched, read or written. *)
Theorem apiSearch_rejects (d : json) (w : world) :
  (∀ s, get d (str "names") ≠ Some (JStr s)) →
  ∃ msg, apiSearch (Some d) w = (Ok (BadRequest msg), w).
Proof.
  intros Hnames. unfold apiSearch. destruct d as [| | | | |fs]; try by eexists.
  destruct (get (JObj fs) (str "names")) as [[ | | |s| | ]|] eqn:E;
    try by eexists.
  by destruct (Hnames s).
Qed.

Lemma apiSearch_rejects_witness :
  apiSearch (Some (JObj [])) deadSite = (Ok (BadRequest missingNames), deadSite).
Proof.
  destruct (apiSearch_rejects (JObj []) deadSite) as [msg Hmsg]; [done|].
  rewrite Hmsg. by vm_compute in Hmsg.
Defined.

Lemma fmap_fixed {A} (f : A → A) (l : list A) :
  f <$> l = l ↔ Forall (λ x, f x = x) l.
Proof.
  induction l as [|a l IH]; [by split; [constructor|]|].
  rewrite fmap_cons, Forall_cons. split.
  - intros [= Ha Hl]. split; [done|by apply IH].
  - intros [Ha Hl]. rewrite Ha. f_equal. by apply IH.
Qed.

Lemma forallb_Forall {A} (f : A → bool) (l : list A) :
  forallb f l = true ↔ Forall (λ x, f x = true) l.
Proof.
  induction l as [|a l IH]; [by split; [constructor|]|].
  cbn [forallb]. by rewrite andb_true_iff, Forall_cons, IH.
Qed.

Lemma round_trips_num bits :
  round_trips (JNum bits) ↔ exact_numbers (JNum bits) = true.
Proof.
  unfold round_trips. cbn [stringify_parse exact_numbers]. cbv zeta.
  destruct (N.leb_spec (2047 * 2 ^ 52) (bits mod 2 ^ 63)) as [H1|H1].
  - rewrite (proj2 (N.ltb_ge _ _) H1). by split.
  - rewrite (proj2 (N.ltb_lt _ _) H1). cbn [andb].
    destruct (N.eqb_spec (bits mod 2 ^ 63) 0) as [H2|H2].
    + rewrite orb_false_r. rewrite N.eqb_eq. split; [by intros [= <-]|by intros ->].
    + by rewrite orb_true_r.
Qed.

Lemma round_trips_exact v : round_trips v ↔ exact_numbers v = true.
Proof.
  induction v as [|b|bits|s|xs IH|fs IH] using json_induction; try done.
  - apply round_trips_num.
  - unfold round_trips. cbn [stringify_parse exact_numbers].
    rewrite forallb_Forall.
    split.
    + intros [= H%fmap_fixed]. rewrite Forall_forall in IH, H |- *.
      intros x Hx. by apply IH, H.
    + intros H. f_equal. apply fmap_fixed. rewrite Forall_forall in IH, H |- *.
      intros x Hx. by apply IH, H.
  - unfold round_trips. cbn [stringify_parse exact_numbers].
    rewrite forallb_Forall.
    split.
    + intros [= H%fmap_fixed]. rewrite Forall_forall in IH, H |- *.
      intros [k x] Hx. apply IH; [done|]. specialize (H _ Hx). simpl in H.
      by injection H.
    + intros H. f_equal. apply fmap_fixed. rewrite Forall_forall in IH, H |- *.
      intros [k x] Hx. simpl. f_equal. by apply (IH (k, x)), H.
Qed.

(** What [saveCache] writes for a name, [loadCache] reads back as
    [JSON.stringify] wrote it: the same value exactly when every number in
    it is finite and no negative zero (so a mapping of records made from
    pages comes back as it was), and in any case a value with such numbers
    only. A file that is absent or unreadable loads as the empty
    object. *)
Theorem cache_round_trip (name enc : jsstring) (data : json) (w : world) :
  encodeURIComponent name = Some enc →
  (writable w (cacheFile enc) = true →
   ∃ w1 w2 back,
     saveCache name data w = (Ok (), w1) ∧ loadCache name w1 = (Ok back, w2)
     ∧ (back = data ↔ exact_numbers data = true)
     ∧ exact_numbers back = true
     ∧ ∀ records : list (jsstring * detail),
         data = JObj [(str "detailCache",
                       JObj ((λ r, (r.1, detail_json r.2 r.1)) <$> records))] →
         back = data)
  ∧ (files w !! cacheFile enc = None ∨ files w !! cacheFile enc = Some Unreadable →
     ∃ w2, loadCache name w = (Ok (JObj []), w2)).
Proof.
  intros Henc. split.
  - intros Hw. rewrite (saveCache_eq name enc) by done.
    eexists _, _, (stringify_parse data).
    split; [done|]. split.
    { unfold loadCache, safeName, saved. rewrite Henc, Hw.
      unfold_M. simpl. by rewrite lookup_insert_eq. }
    split; [apply round_trips_exact|].
    split; [apply round_trips_exact, stringify_parse_idemp|].
    intros records ->. cbn [stringify_parse fmap list_fmap fst snd].
    do 4 f_equal. rewrite <- list_fmap_compose. apply list_fmap_ext.
    intros _ [url d] _. cbn [compose fst snd]. f_equal. apply detail_json_round_trips.
  - intros Hfile. unfold loadCache, safeName. rewrite Henc.
    unfold_M. simpl.
    destruct Hfile as [-> | ->]; by eexists.
Qed.

Lemma cache_round_trip_witness :
  ∃ w1 w2 back,
    saveCache (str "acme toys") staleCache deadSite = (Ok (), w1)
    ∧ loadCache (str "acme toys") w1 = (Ok back, w2)
    ∧ (back = staleCache ↔ exact_numbers staleCache = true).
Proof.
  destruct (cache_round_trip (str "acme toys") (str "acme%20toys") staleCache
              deadSite) as [H _]; [by vm_compute|].
  destruct H as (w1 & w2 & back & H1 & H2 & H3 & _); [by vm_compute|].
  by exists w1, w2, back.
Defined.

(** *** Patterns made of one class *)

Lemma leading_beyond P s : leading P s ++ beyond P s = s.
Proof. induction s as [|a t IH]; simpl; [done|]. destruct (P a); simpl; by f_equal. Qed.

Lemma leading_Forall P s : Forall (λ a, P a = true) (leading P s).
Proof.
  induction s as [|a t IH]; simpl; [constructor|].
  destruct (P a) eqn:E; by constructor.
Qed.

Lemma beyond_head P s a : head (beyond P s) = Some a → P a = false.
Proof.
  induction s as [|b t IH]; simpl; [done|].
  destruct (P b) eqn:E; [done|]. simpl. by intros [= <-].
Qed.

Lemma leading_all P s : Forall (λ a, P a = true) s → leading P s = s ∧ beyond P s = [].
Proof.
  induction 1 as [|a t Ha _ [IH1 IH2]]; simpl; [done|]. rewrite Ha. by rewrite IH1.
Qed.

Lemma leading_app P u s :
  Forall (λ a, P a = true) u → leading P (u ++ s) = u ++ leading P s
                               ∧ beyond P (u ++ s) = beyond P s.
Proof.
  induction 1 as [|a t Ha _ [IH1 IH2]]; simpl; [done|]. rewrite Ha. by rewrite IH1.
Qed.

Lemma leading_stop P s : (∀ a, head s = Some a → P a = false) →
  leading P s = [] ∧ beyond P s = s.
Proof. destruct s as [|a t]; simpl; [done|]. intros H. by rewrite (H a). Qed.

Lemma char_step_One i x : char_step i (One x) (citem_mem i x).
Proof. by intros [|a t] c. Qed.

Lemma char_step_Class i neg xs :
  char_step i (Class neg xs) (λ a, xorb neg (existsb (λ x, citem_mem i x a) xs)).
Proof. by intros [|a t] c. Qed.

Lemma char_step_one_of i r P : char_step i r P → one_of i r P.
Proof.
  intros Hr w. split.
  - intros L. destruct (run_complete i r w L [] None) as [c' Hin].
    rewrite Hr in Hin. destruct w as [|a t]; [done|]. simpl in Hin.
    destruct (P a) eqn:E; [|done]. destruct Hin as [[= Ht _]|[]].
    apply app_eq_nil in Ht as [-> _]. eauto.
  - intros (a & -> & Ha).
    destruct (run_sound i r [a] None [] None) as (w & Hw & L).
    { rewrite Hr, Ha. by left. }
    rewrite app_nil_r in Hw. by subst.
Qed.

(** A greedy star of such a pattern first tries the whole run. *)
Lemma star_loop_greedy_head i r P : char_step i r P →
  ∀ n s c, (length s ≤ n)%nat →
    ∃ l, star_loop (run i r) true n s c = (beyond P s, c) :: l.
Proof.
  intros Hr. induction n as [|n IH]; intros s c Hn.
  - destruct s; [|simpl in Hn; lia]. by exists [].
  - simpl. unfold star_more. rewrite Hr. destruct s as [|a t]; [by exists []|].
    simpl. destruct (P a) eqn:E; [|by exists []]. simpl.
    destruct (Nat.ltb_spec (length t) (S (length t))); [|lia].
    destruct (IH t c) as [l Hl]; [simpl in Hn; lia|]. rewrite Hl. simpl. eauto.
Qed.

(** [r+] at the start of [s] takes the whole run of [P] there. *)
Lemma match_here_Plus i r P s : char_step i r P →
  match_here (RegExp' (Plus r) i) s
  = match s with
    | a :: t => if P a then Some (a :: leading P t, beyond P t, None) else None
    | [] => None
    end.
Proof.
  intros Hr. unfold match_here, Plus. cbn [pattern ignoreCase run]. rewrite Hr.
  destruct s as [|a t]; [done|]. destruct (P a) eqn:E; [|done]. simpl.
  destruct (star_loop_greedy_head i r P Hr (length t) t None) as [l Hl]; [done|].
  rewrite Hl, app_nil_r. simpl. f_equal. f_equal. f_equal.
  rewrite <- (leading_beyond P t) at 1 3.
  rewrite length_app. replace (S (_ + _) - _)%nat with (S (length (leading P t))) by lia.
  simpl. f_equal. by rewrite take_app_length.
Qed.

(** *** [split] on a run of separators *)

Lemma fields_nonempty sep s : fields sep s ≠ [].
Proof.
  destruct s as [|a t]; simpl; [done|]. destruct (sep a); [done|].
  by destruct (fields sep t).
Qed.

Lemma glue_nil fs : fs ≠ [] → glue [] fs = fs.
Proof. by destruct fs. Qed.

Lemma fields_cons_other sep a t :
  sep a = false → fields sep (a :: t) = glue [a] (fields sep t).
Proof. intros H. simpl. rewrite H. by destruct (fields sep t). Qed.

Lemma glue_glue p q fs : fs ≠ [] → glue p (glue q fs) = glue (p ++ q) fs.
Proof. destruct fs; [done|]. intros _. simpl. by rewrite app_assoc. Qed.

Lemma split_scan_fields i r P : char_step i r P →
  ∀ s,
    (∀ piece, filter_nonempty (split_scan (RegExp' (Plus r) i) s piece 0)
              = filter_nonempty (glue (reverse piece) (fields P s)))
    ∧ (∀ k, (k ≤ length (leading P s))%nat →
         filter_nonempty (split_scan (RegExp' (Plus r) i) s [] k)
         = filter_nonempty (fields P s)).
Proof.
  intros Hr. induction s as [|a t [IHA IHB]].
  - split; [intros piece; simpl; by rewrite app_nil_r|].
    intros k Hk. simpl in Hk. by replace k with 0%nat by lia.
  - assert (∀ piece,
      filter_nonempty (split_scan (RegExp' (Plus r) i) (a :: t) piece 0)
      = filter_nonempty (glue (reverse piece) (fields P (a :: t)))) as HA.
    { intros piece. cbn [split_scan]. rewrite (match_here_Plus i r P _ Hr).
      destruct (P a) eqn:E.
      - cbn [length]. rewrite Nat.sub_succ, Nat.sub_0_r.
        simpl. rewrite E. simpl. rewrite app_nil_r.
        unfold filter_nonempty. rewrite !(filter_cons (λ x, x ≠ [])).
        fold (filter_nonempty (split_scan (RegExp' (Plus r) i) t [] (length (leading P t)))).
        rewrite IHB by done. done.
      - rewrite IHA, reverse_cons, fields_cons_other by done.
        rewrite glue_glue by apply fields_nonempty. done. }
    split; [exact HA|]. intros [|k] Hk.
    + rewrite HA. by rewrite glue_nil by apply fields_nonempty.
    + simpl in Hk. destruct (P a) eqn:E; [|simpl in Hk; lia].
      cbn [split_scan]. rewrite IHB by (simpl in Hk; lia).
      simpl. rewrite E. unfold filter_nonempty.
      by rewrite (filter_cons_False (λ x, x ≠ [])) by auto.
Qed.

Lemma split_Plus_fields i r P s : char_step i r P →
  filter_nonempty (split (RegExp' (Plus r) i) s) = filter_nonempty (fields P s).
Proof.
  intros Hr. destruct s as [|a t].
  - unfold split. by rewrite (match_here_Plus i r P _ Hr).
  - unfold split. destruct (split_scan_fields i r P Hr (a :: t)) as [HA _].
    rewrite HA. by rewrite glue_nil by apply fields_nonempty.
Qed.

Lemma fields_app sep a c b :
  sep c = true → fields sep (a ++ c :: b) = fields sep a ++ fields sep b.
Proof.
  intros Hc. induction a as [|x a IH]; simpl; [by rewrite Hc|].
  rewrite IH. destruct (sep x); [done|].
  pose proof (fields_nonempty sep a). by destruct (fields sep a).
Qed.

Lemma fields_none sep s : Forall (λ c, sep c = false) s → fields sep s = [s].
Proof. induction 1 as [|a t Ha _ IH]; simpl; [done|]. by rewrite Ha, IH. Qed.

Lemma fields_clean sep s : Forall (Forall (λ c, sep c = false)) (fields sep s).
Proof.
  induction s as [|a t IH]; simpl; [by repeat constructor|].
  destruct (sep a) eqn:E; [by constructor|].
  destruct (fields sep t) as [|f fs]; [by repeat constructor|].
  inversion IH; subst. constructor; [by constructor|done].
Qed.

Lemma fields_cover sep s :
  Forall (λ c, sep c = true ∨ ∃ f, f ∈ fields sep s ∧ c ∈ f) s.
Proof.
  induction s as [|a t IH]; [constructor|]. simpl.
  destruct (sep a) eqn:E.
  - constructor; [by left|].
    eapply Forall_impl; [exact IH|]. simpl. intros c [?|(f & ? & ?)]; [by left|].
    right. exists f. split; [by right|done].
  - pose proof (fields_nonempty sep t).
    destruct (fields sep t) as [|f fs]; [done|].
    constructor; [right; exists (a :: f); split; left|].
    eapply Forall_impl; [exact IH|]. simpl. intros c [?|(g & Hg & ?)]; [by left|].
    right. apply elem_of_cons in Hg as [->|Hg].
    + exists (a :: f). split; [left|by right].
    + exists g. split; [by right|done].
Qed.

(** *** [trim] *)

Lemma trimStart_beyond s : trimStart s = beyond is_space s.
Proof. induction s as [|a t IH]; simpl; [done|]. by rewrite IH. Qed.

(** [trim] removes a run of white space at each end. *)
Lemma trim_decompose s :
  ∃ u v, s = u ++ trim s ++ v
         ∧ Forall (λ a, is_space a = true) u ∧ Forall (λ a, is_space a = true) v.
Proof.
  unfold trim. rewrite !trimStart_beyond.
  exists (leading is_space s),
    (reverse (leading is_space (reverse (beyond is_space s)))).
  split; [|split; [apply leading_Forall|apply Forall_reverse, leading_Forall]].
  rewrite <- reverse_app, leading_beyond, reverse_involutive.
  by rewrite leading_beyond.
Qed.

Lemma trim_trimmed s : trimmed (trim s).
Proof.
  unfold trim. rewrite !trimStart_beyond.
  set (u := beyond is_space s). set (v := beyond is_space (reverse u)).
  split; intros a Ha.
  - rewrite head_reverse in Ha.
    assert (last (reverse u) = Some a) as Hu.
    { rewrite <- (leading_beyond is_space (reverse u)). fold v.
      rewrite last_app, Ha. done. }
    rewrite last_reverse in Hu. by apply (beyond_head is_space s).
  - rewrite last_reverse in Ha. by apply (beyond_head is_space (reverse u)).
Qed.

Lemma trimmed_trim s : trimmed s → trim s = s.
Proof.
  intros [Hh Hl]. unfold trim. rewrite !trimStart_beyond.
  destruct (leading_stop is_space s Hh) as [_ ->].
  destruct (leading_stop is_space (reverse s)) as [_ ->].
  { intros a. rewrite head_reverse. apply Hl. }
  apply reverse_involutive.
Qed.

Lemma trim_idempotent s : trim (trim s) = trim s.
Proof. apply trimmed_trim, trim_trimmed. Qed.

Lemma trim_blank s : trim s = [] ↔ Forall (λ a, is_space a = true) s.
Proof.
  split.
  - intros H. destruct (trim_decompose s) as (u & v & Hs & Hu & Hv).
    rewrite H in Hs. rewrite Hs. simpl. by apply Forall_app.
  - intros H. unfold trim. rewrite !trimStart_beyond.
    by destruct (leading_all is_space s H) as [_ ->].
Qed.

Lemma trim_Forall (P : N → Prop) s : Forall P s → Forall P (trim s).
Proof.
  intros H. destruct (trim_decompose s) as (u & v & Hs & _ & _).
  rewrite Hs in H. by apply Forall_app in H as [_ [H _]%Forall_app].
Qed.

(** *** The names of a batch *)

Lemma namesSplitRe_step :
  char_step false (Class false [Ch 10; chr ","]) is_separator.
Proof.
  intros [|a t] c; [done|]. cbn [run]. unfold is_separator.
  change (chr ",") with (Ch 44). cbn [existsb citem_mem xorb].
  rewrite orb_false_r, (N.eqb_sym 10 a), (N.eqb_sym 44 a). done.
Qed.

Lemma filter_nonempty_trim xs :
  filter_nonempty (trim <$> xs) = filter_nonempty (trim <$> filter_nonempty xs).
Proof.
  unfold filter_nonempty. induction xs as [|x xs IH]; [done|].
  rewrite fmap_cons. destruct x as [|a x].
  - rewrite (filter_cons_False _ []) by auto.
    change (trim []) with (@nil N). by rewrite (filter_cons_False _ []) by auto.
  - rewrite (filter_cons_True _ (a :: x)) by done. rewrite fmap_cons.
    rewrite !(filter_cons (λ x, x ≠ [])). by rewrite IH.
Qed.

Lemma nameList_eq names :
  nameList names = filter_nonempty (trim <$> fields is_separator names).
Proof.
  unfold nameList. rewrite filter_nonempty_trim.
  unfold namesSplitRe, sensitive.
  rewrite (split_Plus_fields false _ is_separator names namesSplitRe_step).
  by rewrite <- filter_nonempty_trim.
Qed.

Lemma nameList_app a c b :
  is_separator c = true → nameList (a ++ c :: b) = nameList a ++ nameList b.
Proof.
  intros Hc. rewrite !nameList_eq, fields_app by done.
  unfold filter_nonempty. by rewrite fmap_app, filter_app.
Qed.

Lemma nameList_single s :
  s ≠ [] → trimmed s → Forall (λ c, is_separator c = false) s → nameList s = [s].
Proof.
  intros Hne Ht Hs. rewrite nameList_eq, fields_none by done.
  simpl. rewrite trimmed_trim by done. unfold filter_nonempty.
  by rewrite (filter_cons_True (λ x, x ≠ [])) by done.
Qed.

Lemma nameList_nil : nameList [] = [].
Proof. done. Qed.

Lemma fields_Forall (P : N → Prop) sep s :
  Forall P s → Forall (Forall P) (fields sep s).
Proof.
  induction 1 as [|a t Ha _ IH]; simpl; [by repeat constructor|].
  destruct (sep a); [by constructor|].
  destruct (fields sep t) as [|f fs]; [by repeat constructor|].
  inversion IH; subst. constructor; [by constructor|done].
Qed.

Lemma nameList_elem names n :
  n ∈ nameList names ↔ n ≠ [] ∧ ∃ f, f ∈ fields is_separator names ∧ n = trim f.
Proof.
  rewrite nameList_eq. unfold filter_nonempty.
  rewrite list_elem_of_filter, list_elem_of_fmap.
  split; intros [? (f & ? & ?)]; (split; [done|]); exists f; done.
Qed.

Lemma nameList_blank names :
  nameList names = [] ↔ Forall (λ c, is_blank c = true) names.
Proof.
  split.
  - intros H. eapply Forall_impl; [apply (fields_cover is_separator)|].
    simpl. intros c [Hc|(f & Hf & Hcf)]; unfold is_blank; [by rewrite Hc, orb_true_r|].
    destruct (trim f) as [|a t] eqn:E.
    + apply trim_blank in E. rewrite Forall_forall in E. by rewrite (E c Hcf).
    + assert (trim f ∈ nameList names) as Hin.
      { apply nameList_elem. split; [by rewrite E|eauto]. }
      rewrite H in Hin. by apply elem_of_nil in Hin.
  - intros H. destruct (nameList names) as [|n l] eqn:E; [done|].
    assert (n ∈ nameList names) as Hin by (rewrite E; left).
    apply nameList_elem in Hin as [Hne (f & Hf & ->)]. destruct Hne.
    apply trim_blank.
    pose proof (fields_clean is_separator names) as Hclean.
    apply (fields_Forall _ is_separator) in H.
    rewrite Forall_forall in H, Hclean.
    specialize (H f Hf). specialize (Hclean f Hf).
    rewrite Forall_forall in H, Hclean. apply Forall_forall. intros c Hc.
    specialize (H c Hc). specialize (Hclean c Hc). unfold is_blank in H.
    rewrite Hclean, orb_false_r in H. done.
Qed.

(** The names of a batch are the pieces of the text between commas and
    line feeds, trimmed, the blank ones left out: each is a clean name, and
    the names of two texts put together with a separator are the names of
    the first followed by the names of the second. *)
Theorem nameList_pieces (names : jsstring) :
  nameList names = filter_nonempty (trim <$> fields is_separator names)
  ∧ Forall clean_name (nameList names)
  ∧ (nameList names = [] ↔ Forall (λ c, is_blank c = true) names)
  ∧ ∀ c rest, is_separator c = true →
      nameList (names ++ c :: rest) = nameList names ++ nameList rest.
Proof.
  split; [apply nameList_eq|]. split; [|split; [apply nameList_blank|]].
  - apply Forall_forall. intros n [Hne (f & Hf & ->)]%nameList_elem.
    split; [done|]. split; [apply trim_trimmed|]. apply trim_Forall.
    pose proof (fields_clean is_separator names) as H.
    rewrite Forall_forall in H. by apply H.
  - intros c rest Hc. by apply nameList_app.
Qed.

(** Clean names joined by a comma or by a line feed, as the chip input
    sends them, are split back into the same list. *)
Theorem nameList_join (chips : list jsstring) (c : N) :
  is_separator c = true → Forall clean_name chips →
  nameList (join [c] chips) = chips.
Proof.
  intros Hc. induction 1 as [|p ps (Hne & Ht & Hs) Hps IH]; [done|].
  destruct ps as [|q ps].
  - by apply nameList_single.
  - change (join [c] (p :: q :: ps)) with (p ++ c :: join [c] (q :: ps)).
    rewrite nameList_app, IH, nameList_single by done. done.
Qed.

Lemma nameList_join_witness :
  nameList (join [10] [str "Golden Emperor"; str "Urban Jungle"])
  = [str "Golden Emperor"; str "Urban Jungle"].
Proof.
  apply (nameList_join [str "Golden Emperor"; str "Urban Jungle"] 10); [done|].
  repeat constructor; try done; intros a [= <-]; done.
Defined.

(** A [names] text of nothing but white space, commas and line feeds is
    answered with an empty result, and nothing is fetched, read or
    written. *)
Theorem apiSearch_blank_names (d : json) (names : jsstring) (w : world) :
  get d (str "names") = Some (JStr names) → names ≠ [] →
  Forall (λ c, is_blank c = true) names →
  apiSearch (Some d) w = (Ok (Results ∅), w).
Proof.
  intros Hd Hne Hb. apply nameList_blank in Hb.
  destruct d; try done. unfold apiSearch. rewrite Hd.
  destruct names as [|c names']; [done|]. by rewrite Hb.
Qed.

Lemma apiSearch_blank_names_witness :
  apiSearch (Some (JObj [(str "names", JStr (str " , ,"))])) deadSite
  = (Ok (Results ∅), deadSite).
Proof.
  apply (apiSearch_blank_names _ (str " , ,")); [done|done|].
  repeat constructor.
Defined.

(** *** Matches and their captures *)

Lemma run_Seq_In i r1 r2 s c s' c' :
  In (s', c') (run i (Seq r1 r2) s c) ↔
  ∃ s1 c1, In (s1, c1) (run i r1 s c) ∧ In (s', c') (run i r2 s1 c1).
Proof.
  cbn [run]. rewrite in_flat_map. split.
  - intros ([s1 c1] & H1 & H2). eauto.
  - intros (s1 & c1 & H1 & H2). by exists (s1, c1).
Qed.

(** A group captures the text its body matched. *)
Lemma run_Group_In i r s c s' c' :
  In (s', c') (run i (Group r) s c) →
  ∃ g, s = g ++ s' ∧ lang i r g ∧ c' = Some g.
Proof.
  cbn [run]. intros ([s1 c1] & [= <- <-] & H)%in_map_iff.
  apply run_sound in H as (g & -> & L). exists g. split; [done|]. split; [done|].
  by rewrite length_app, Nat.add_sub, take_app_length.
Qed.

Lemma run_Eps_In i s c s' c' : In (s', c') (run i Eps s c) ↔ s' = s ∧ c' = c.
Proof.
  cbn [run In]. split; [|intros [-> ->]; by left].
  intros [H|[]]. by injection H as <- <-.
Qed.

(** What [match_here] returns is the first way the pattern matches. *)
Lemma match_here_In re s m rest c :
  match_here re s = Some (m, rest, c) →
  s = m ++ rest ∧ In (rest, c) (run (ignoreCase re) (pattern re) s None).
Proof.
  intros H. split; [by apply match_here_Some in H as [? _]|].
  unfold match_here in H. destruct (run _ _ s None) as [|[rest' c'] l]; [done|].
  injection H as _ <- <-. by left.
Qed.

Lemma match_here_complete re s w rest :
  s = w ++ rest → langOf re w → ∃ m rest' c, match_here re s = Some (m, rest', c).
Proof.
  intros Hs L. destruct (match_here re s) as [[[m rest'] c]|] eqn:E; [eauto|].
  by destruct (match_here_None re s w rest E Hs).
Qed.

(** Each match the global loop reports is what a match attempt at its
    place returns. *)
Lemma scan_In_match re s : ∀ k m c,
  In (m, c) (scan re s k) →
  ∃ pre rest, s = pre ++ m ++ rest ∧ match_here re (m ++ rest) = Some (m, rest, c).
Proof.
  induction s as [|a t IH]; intros k m c; cbn [scan].
  - destruct k; [|done].
    destruct (match_here re []) as [[[m' rest'] c']|] eqn:E; [|done].
    intros [[= <- <-]|[]]. pose proof E as [Hs _]%match_here_Some.
    exists [], rest'. rewrite <- Hs. done.
  - destruct k as [|k].
    + destruct (match_here re (a :: t)) as [[[m' rest'] c']|] eqn:E.
      * intros [[= <- <-]|Hin].
        -- pose proof E as [Hs _]%match_here_Some.
           exists [], rest'. rewrite <- Hs. done.
        -- apply IH in Hin as (pre & rest & -> & Hm). by exists (a :: pre), rest.
      * intros Hin. apply IH in Hin as (pre & rest & -> & Hm).
        by exists (a :: pre), rest.
    + intros Hin. apply IH in Hin as (pre & rest & -> & Hm).
      by exists (a :: pre), rest.
Qed.

(** When every match begins with a code unit of a kind that occurs nowhere
    else in it, no match hides another: the global loop reports the match
    at every place where the pattern matches. *)
Lemma scan_complete re (P : N → bool) :
  (∀ m, langOf re m → ∃ a t, m = a :: t ∧ P a = true ∧ Forall (λ c, P c = false) t) →
  ∀ pre s m rest c k,
    match_here re s = Some (m, rest, c) →
    Forall (λ c, P c = false) (take k (pre ++ s)) →
    In (m, c) (scan re (pre ++ s) k).
Proof.
  intros Hre. induction pre as [|b pre IH]; intros s m rest c k Hm Hk.
  - pose proof Hm as [Hs L]%match_here_Some.
    apply Hre in L as (a & t & -> & Ha & Ht). simpl in Hs. subst s.
    destruct k as [|k].
    + cbn [app scan]. rewrite Hm. by left.
    + simpl in Hk. inversion Hk; subst. congruence.
  - cbn [app scan]. destruct k as [|k].
    + destruct (match_here re (b :: pre ++ s)) as [[[m' rest'] c']|] eqn:E.
      * right. apply (IH s m rest c _ Hm).
        pose proof E as [Hs L]%match_here_Some.
        apply Hre in L as (a & t & -> & Ha & Ht). simpl in Hs.
        injection Hs as -> Hs. rewrite Hs. simpl. rewrite Nat.sub_0_r.
        by rewrite take_app_length.
      * apply (IH s m rest c _ Hm). constructor.
    + apply (IH s m rest c _ Hm). simpl in Hk. by inversion Hk.
Qed.

(** *** The class pattern *)

Lemma lang_three_digits i g :
  lang i (cat [One Digit; One Digit; One Digit]) g
  ↔ length g = 3%nat ∧ Forall (λ a, is_digit a = true) g.
Proof.
  split.
  - intros (w1 & r1 & -> & (a & -> & Ha)%lang_One & L)%lang_cat_cons.
    apply lang_cat_cons in L as (w2 & r2 & -> & (b & -> & Hb)%lang_One & L).
    apply lang_cat_cons in L as (w3 & r3 & -> & (c & -> & Hc)%lang_One & L).
    apply lang_cat_nil in L as ->. split; [done|]. by repeat constructor.
  - intros [Hl Hd]. destruct g as [|a [|b [|c [|??]]]]; try done.
    inversion Hd as [|? ? Ha Hd1]; subst. inversion Hd1 as [|? ? Hb Hd2]; subst.
    inversion Hd2 as [|? ? Hc _]; subst.
    apply lang_cat_cons. exists [a], [b; c]. split; [done|].
    split; [apply lang_One; eauto|].
    apply lang_cat_cons. exists [b], [c]. split; [done|].
    split; [apply lang_One; eauto|].
    apply lang_cat_cons. exists [c], []. split; [done|].
    split; [apply lang_One; eauto|by apply lang_cat_nil].
Qed.

Lemma classRe_run s c s' c' :
  In (s', c') (run true (pattern classRe) s c) →
  ∃ kw ws g,
    s = kw ++ ws ++ g ++ s' ∧ c' = Some g
    ∧ ci_equal kw (str "Class")
    ∧ Forall (λ a, is_space a = true) ws
    ∧ length g = 3%nat ∧ Forall (λ a, is_digit a = true) g.
Proof.
  unfold classRe, insensitive. cbn [pattern cat foldr].
  intros (s1 & c1 & H1 & H)%run_Seq_In.
  apply run_Seq_In in H as (s2 & c2 & H2 & H).
  apply run_Seq_In in H as (s3 & c3 & H3 & [-> ->]%run_Eps_In).
  apply run_sound in H1 as (kw & -> & Lkw%lang_Lit).
  apply run_sound in H2 as (ws & -> & Lws).
  apply (lang_Star_chars true true _ _ _ (one_of_Space true)) in Lws.
  apply run_Group_In in H3 as (g & -> & [Hl Hd]%lang_three_digits & ->).
  by exists kw, ws, g.
Qed.

Lemma classRe_lang m :
  langOf classRe m ↔
  ∃ kw ws g,
    m = kw ++ ws ++ g
    ∧ ci_equal kw (str "Class")
    ∧ Forall (λ a, is_space a = true) ws
    ∧ length g = 3%nat ∧ Forall (λ a, is_digit a = true) g.
Proof.
  unfold langOf, classRe, insensitive. cbn [pattern ignoreCase]. split.
  - intros (kw & r1 & -> & Lkw%lang_Lit & L)%lang_cat_cons.
    apply lang_cat_cons in L as (ws & r2 & -> & Lws & L).
    apply lang_cat_cons in L as (g & r3 & -> & Lg & ->%lang_cat_nil).
    apply (lang_Star_chars true true _ _ _ (one_of_Space true)) in Lws.
    inversion Lg as [| | | | | | | |? ? Lg']; subst.
    apply lang_three_digits in Lg' as [Hl Hd].
    exists kw, ws, g. by rewrite app_nil_r.
  - intros (kw & ws & g & -> & Hkw & Hws & Hl & Hd).
    apply lang_cat_cons. exists kw, (ws ++ g). split; [done|].
    split; [by apply lang_Lit|].
    apply lang_cat_cons. exists ws, g. split; [done|].
    split; [by apply (lang_Star_chars true true _ _ _ (one_of_Space true))|].
    apply lang_cat_cons. exists g, []. split; [by rewrite app_nil_r|].
    split; [|by apply lang_cat_nil]. constructor. by apply lang_three_digits.
Qed.

Lemma digit_not_space a : is_digit a = true → is_space a = false.
Proof.
  unfold is_digit. intros [?%N.leb_le ?%N.leb_le]%andb_true_iff.
  unfold is_space. repeat (apply orb_false_intro); try (apply N.eqb_neq; lia).
  apply andb_false_iff. left. apply N.leb_gt. lia.
Qed.

(** The place and the capture of a match of the class pattern are fixed by
    the text. *)
Lemma classRe_match_here kw ws g post :
  ci_equal kw (str "Class") →
  Forall (λ a, is_space a = true) ws →
  length g = 3%nat → Forall (λ a, is_digit a = true) g →
  match_here classRe (kw ++ ws ++ g ++ post) = Some (kw ++ ws ++ g, post, Some g).
Proof.
  intros Hkw Hws Hl Hd.
  destruct (match_here_complete classRe (kw ++ ws ++ g ++ post) (kw ++ ws ++ g) post)
    as (m' & rest' & c' & Hm).
  { by rewrite <- !app_assoc. }
  { apply classRe_lang. by exists kw, ws, g. }
  rewrite Hm. pose proof Hm as [Hs Hin]%match_here_In.
  apply classRe_run in Hin as (kw' & ws' & g' & Hs' & -> & Hkw' & Hws' & Hl' & Hd').
  assert (length kw = length kw') as Hlen.
  { apply (f_equal length) in Hkw, Hkw'. rewrite !length_fmap in Hkw, Hkw'. congruence. }
  apply app_inj_1 in Hs' as [<- Hs']; [|done].
  assert (∀ ws g post, Forall (λ a, is_space a = true) ws →
            length g = 3%nat → Forall (λ a, is_digit a = true) g →
            leading is_space (ws ++ g ++ post) = ws) as Hlead.
  { intros ws0 g0 post0 Hws0 Hl0 Hd0.
    destruct (leading_app is_space ws0 (g0 ++ post0) Hws0) as [-> _].
    destruct (leading_stop is_space (g0 ++ post0)) as [-> _]; [|apply app_nil_r].
    destruct g0 as [|a g0]; [done|]. intros ? [= <-].
    apply digit_not_space. by inversion Hd0. }
  assert (ws = ws') as <-.
  { rewrite <- (Hlead ws g post) by done. rewrite Hs'. by apply Hlead. }
  apply app_inv_head in Hs'. apply app_inj_1 in Hs' as [<- <-]; [|congruence].
  f_equal. f_equal. f_equal.
  rewrite !app_assoc in Hs. rewrite <- !app_assoc in Hs.
  apply (app_inv_tail post). rewrite <- Hs. by rewrite <- !app_assoc.
Qed.

Lemma space_not_C a : is_space a = true → (canonicalize a =? 67) = false.
Proof.
  intros H. apply N.eqb_neq. intros E. unfold canonicalize in E.
  destruct ((97 <=? a) && (a <=? 122)) eqn:Ea.
  - assert (a = 99) as -> by lia. done.
  - by subst a.
Qed.

Lemma digit_not_C a : is_digit a = true → (canonicalize a =? 67) = false.
Proof.
  intros H. apply N.eqb_neq. intros E. unfold canonicalize in E.
  destruct ((97 <=? a) && (a <=? 122)) eqn:Ea.
  - assert (a = 99) as -> by lia. done.
  - by subst a.
Qed.

Lemma classRe_anchor m :
  langOf classRe m →
  ∃ a t, m = a :: t ∧ (canonicalize a =? 67) = true
         ∧ Forall (λ c, (canonicalize c =? 67) = false) t.
Proof.
  intros (kw & ws & g & -> & Hkw & Hws & Hl & Hd)%classRe_lang.
  unfold ci_equal in Hkw. change (canonicalize <$> str "Class") with [67; 76; 65; 83; 83] in Hkw.
  destruct kw as [|k1 [|k2 [|k3 [|k4 [|k5 [|??]]]]]]; try done.
  injection Hkw as H1 H2 H3 H4 H5.
  exists k1, ([k2; k3; k4; k5] ++ ws ++ g). split; [done|].
  split; [by rewrite H1|]. apply Forall_app. split.
  - repeat constructor; [by rewrite H2|by rewrite H3|by rewrite H4|by rewrite H5].
  - apply Forall_app. split.
    + eapply Forall_impl; [exact Hws|]. apply space_not_C.
    + eapply Forall_impl; [exact Hd|]. apply digit_not_C.
Qed.

Lemma parseDetail_classes_eq html :
  classes (parseDetail html) = set_from ((λ m, group1 m.2) <$> scan classRe html 0).
Proof.
  unfold parseDetail. destruct (match1 (cellRe ownerLabel) html) as [td|]; [|done].
  by destruct (parseOwner td).
Qed.

(** The [classes] of a page are the three-digit codes that follow the word
    Class in it, each once, in the order of their first occurrence; of a
    longer number the first three digits are taken. *)
Theorem parseDetail_class_codes (html : jsstring) :
  let captured := (λ m, group1 m.2) <$> scan classRe html 0 in
  NoDup (classes (parseDetail html))
  ∧ classes (parseDetail html) = first_occurrences captured
  ∧ ∀ code, code ∈ classes (parseDetail html) ↔ class_code_in code html.
Proof.
  intros captured. rewrite parseDetail_classes_eq, set_from_first_occurrences.
  fold captured. split; [apply first_occurrences_NoDup|]. split; [done|].
  intros code. rewrite first_occurrences_elem. unfold captured.
  rewrite list_elem_of_fmap. split.
  - intros ([m c] & -> & Hin%list_elem_of_In).
    apply scan_In_match in Hin as (pre & rest & -> & Hm).
    apply match_here_In in Hm as [_ Hin].
    apply classRe_run in Hin as (kw & ws & g & Hs & -> & Hkw & Hws & Hl & Hd).
    exists pre, kw, ws, rest. simpl. by rewrite Hs.
  - intros (pre & kw & ws & post & -> & Hkw & Hws & Hl & Hd).
    exists (kw ++ ws ++ code, Some code). split; [done|].
    apply list_elem_of_In.
    apply (scan_complete classRe _ classRe_anchor pre _ _ post _ 0%nat);
      [|constructor].
    by apply classRe_match_here.
Qed.

(** *** White space is collapsed *)

Lemma spacesRe_match_here s :
  match_here spacesRe s
  = match s with
    | a :: t => if is_space a
                then Some (a :: leading is_space t, beyond is_space t, None)
                else None
    | [] => None
    end.
Proof. apply (match_here_Plus false (One Space) is_space), char_step_One. Qed.

Lemma replace_spaces s :
  replace_scan spacesRe [32] s 0 = collapse false s
  ∧ replace_scan spacesRe [32] s (length (leading is_space s)) = collapse true s.
Proof.
  induction s as [|a t [IHA IHB]]; [done|].
  assert (replace_scan spacesRe [32] (a :: t) 0 = collapse false (a :: t)) as HA.
  { cbn [replace_scan collapse]. rewrite spacesRe_match_here.
    destruct (is_space a).
    - cbn [length]. rewrite Nat.sub_succ, Nat.sub_0_r, IHB. done.
    - by rewrite IHA. }
  split; [done|]. cbn [leading collapse]. destruct (is_space a) eqn:E.
  - cbn [length replace_scan]. by rewrite IHB.
  - cbn [length]. rewrite HA. cbn [collapse]. by rewrite E.
Qed.

Lemma collapse_spaced b s :
  single_spaced (collapse b s)
  ∧ (b = true → ∀ a, head (collapse b s) = Some a → is_space a = false).
Proof.
  revert b. induction s as [|a t IH]; intros b.
  - split; [|done]. intros [|??] ? ? ?; done.
  - cbn [collapse]. destruct (is_space a) eqn:E.
    + destruct b; [apply IH|]. split; [|done].
      destruct (IH true) as [IH1 IH2]. intros [|x u] c v Hs Hc.
      * injection Hs as <- <-. split; [done|]. by apply IH2.
      * injection Hs as <- Hs. by apply (IH1 u c v).
    + destruct (IH false) as [IH1 _]. split.
      * intros [|x u] c v Hs Hc.
        -- injection Hs as <- <-. congruence.
        -- injection Hs as <- Hs. by apply (IH1 u c v).
      * intros _ c [= <-]. done.
Qed.

Lemma single_spaced_infix p s q : single_spaced (p ++ s ++ q) → single_spaced s.
Proof.
  intros H u a v -> Ha.
  destruct (H (p ++ u) a (v ++ q)) as [-> Hv]; [by rewrite <- !app_assoc|done|].
  split; [done|]. intros b Hb. apply Hv. rewrite head_app, Hb. done.
Qed.

(** *** Tags are removed *)

Lemma thinned_elem y x c : thinned y x → c ∈ y → c ≠ 32 → c ∈ x.
Proof.
  induction 1 as [|a y x _ IH|a y x _ IH|y x _ IH]; intros Hc Hne.
  - done.
  - right. by apply IH.
  - apply elem_of_cons in Hc as [->|Hc]; [left|right; by apply IH].
  - apply elem_of_cons in Hc as [->|Hc]; [done|by apply IH].
Qed.

Lemma tagless_cons a s : tagless (a :: s) ↔ (a = 60 → 62 ∉ s) ∧ tagless s.
Proof.
  split.
  - intros H. split.
    + intros -> (v & w & ->)%list_elem_of_split. by apply (H [] v w).
    + intros u v w ->. by apply (H (a :: u) v w).
  - intros [H1 H2] [|b u] v w Hs.
    + injection Hs as -> ->. apply H1; [done|]. apply elem_of_app. right. left.
    + injection Hs as -> ->. by apply (H2 u v w).
Qed.

Lemma tagless_nil : tagless [].
Proof. by intros [|??] ? ? ?. Qed.

Lemma thinned_tagless y x : thinned y x → tagless x → tagless y.
Proof.
  induction 1 as [|a y x _ IH|a y x Hyx IH|y x _ IH]; intros Hx.
  - done.
  - apply tagless_cons in Hx as [_ Hx]. by apply IH.
  - apply tagless_cons in Hx as [Ha Hx]. apply tagless_cons. split; [|by apply IH].
    intros -> Hin. apply Ha; [done|]. by apply (thinned_elem y x).
  - apply tagless_cons. split; [done|by apply IH].
Qed.

Lemma thinned_refl s : thinned s s.
Proof. induction s; by constructor. Qed.

Lemma thinned_drop_app p s y : thinned y s → thinned y (p ++ s).
Proof. induction p; simpl; [done|]. intros. by constructor; auto. Qed.

Lemma thinned_app y1 x1 y2 x2 :
  thinned y1 x1 → thinned y2 x2 → thinned (y1 ++ y2) (x1 ++ x2).
Proof. induction 1; simpl; intros; [done|by constructor; auto..]. Qed.

Lemma thinned_nil_l x : thinned [] x.
Proof. induction x; by constructor. Qed.

Lemma thinned_trim s : thinned (trim s) s.
Proof.
  destruct (trim_decompose s) as (u & v & Hs & _ & _). rewrite Hs at 2.
  apply thinned_drop_app. rewrite <- (app_nil_r (trim s)) at 1.
  apply thinned_app; [apply thinned_refl|apply thinned_nil_l].
Qed.

Lemma thinned_replace re s : ∀ k, thinned (replace_scan re [32] s k) s.
Proof.
  induction s as [|a t IH]; intros k; cbn [replace_scan].
  - destruct k; [|constructor].
    destruct (match_here re []); [apply thinned_space|]; constructor.
  - destruct k as [|k]; [|apply thinned_drop, IH].
    destruct (match_here re (a :: t)) as [[[[|??] ?] ?]|].
    + apply thinned_space, thinned_keep, IH.
    + apply thinned_space, thinned_drop, IH.
    + apply thinned_keep, IH.
Qed.

Lemma lang_Lit_exact s w : lang false (Lit s) w ↔ w = str s.
Proof.
  unfold Lit. rewrite lang_Lit_chars. generalize (str s) as l. intros l.
  revert w. induction l as [|p l IH]; intros w.
  - split; [by inversion 1|intros ->; constructor].
  - split.
    + inversion 1 as [|? a ? w' Ha Hw]; subst. simpl in Ha.
      apply N.eqb_eq in Ha as ->. f_equal. by apply IH.
    + intros ->. constructor; [simpl; apply N.eqb_refl|by apply IH].
Qed.

Lemma tagRe_lang w :
  langOf tagRe w ↔ ∃ u, w = 60 :: u ++ [62] ∧ Forall (λ a, a ≠ 62) u.
Proof.
  assert (one_of false (Class true [chr ">"]) (λ a, negb (62 =? a))) as Hone.
  { intros x. rewrite lang_Class. apply exist_proper. intros a.
    change (chr ">") with (Ch 62). cbn [existsb citem_mem]. by rewrite orb_false_r. }
  unfold langOf, tagRe, sensitive. cbn [pattern ignoreCase]. split.
  - intros (w1 & r1 & -> & ->%lang_Lit_exact & L)%lang_cat_cons.
    apply lang_cat_cons in L as (u & r2 & -> & Lu & L).
    apply lang_cat_cons in L as (w3 & r3 & -> & ->%lang_Lit_exact & ->%lang_cat_nil).
    apply (lang_Star_chars false true _ _ _ Hone) in Lu.
    exists u. split; [done|]. eapply Forall_impl; [exact Lu|].
    simpl. intros a Ha ->. done.
  - intros (u & -> & Hu). apply lang_cat_cons. exists [60], (u ++ [62]).
    split; [done|]. split; [by apply lang_Lit_exact|].
    apply lang_cat_cons. exists u, [62]. split; [done|]. split.
    + apply (lang_Star_chars false true _ _ _ Hone).
      eapply Forall_impl; [exact Hu|]. cbv beta. intros a Ha.
      apply negb_true_iff. apply N.eqb_neq. congruence.
    + apply lang_cat_cons. exists [62], []. split; [done|].
      split; [by apply lang_Lit_exact|by apply lang_cat_nil].
Qed.

(** After the tags are replaced no [<] has a [>] after it. *)
Lemma replace_tags_tagless s : ∀ k, tagless (replace_scan tagRe [32] s k).
Proof.
  induction s as [|a t IH]; intros k; cbn [replace_scan].
  - destruct k; [|apply tagless_nil].
    destruct (match_here tagRe []); [|apply tagless_nil].
    apply tagless_cons. split; [done|apply tagless_nil].
  - destruct k as [|k]; [|apply IH].
    destruct (match_here tagRe (a :: t)) as [[[m rest] c]|] eqn:E.
    + pose proof E as [_ (u & -> & _)%tagRe_lang]%match_here_Some.
      simpl. apply tagless_cons. split; [done|apply IH].
    + apply tagless_cons. split; [|apply IH]. intros -> Hin.
      assert (62 ∈ t) as Ht.
      { by apply (thinned_elem _ _ _ (thinned_replace tagRe t 0)). }
      apply list_elem_of_split_l in Ht as (u & v & -> & Hu).
      apply (match_here_None tagRe _ (60 :: u ++ [62]) v E).
      { simpl. by rewrite <- app_assoc. }
      apply tagRe_lang. exists u. split; [done|].
      apply Forall_forall. intros x Hx ->. done.
Qed.

(** *** Cleaned cells *)

Lemma cleanText_clean raw : clean_text (cleanText raw).
Proof.
  unfold cleanText, clean_text. split; [apply trim_trimmed|]. split.
  - set (x := replace nbspRe (str " ") (replace tagRe (str " ") raw)).
    destruct (trim_decompose (replace spacesRe (str " ") x)) as (u & v & Hs & _ & _).
    apply (single_spaced_infix u _ v). rewrite <- Hs.
    unfold replace. change (str " ") with [32].
    destruct (replace_spaces x) as [-> _]. apply collapse_spaced.
  - eapply thinned_tagless; [apply thinned_trim|].
    eapply thinned_tagless; [apply thinned_replace|].
    eapply thinned_tagless; [apply thinned_replace|].
    apply replace_tags_tagless.
Qed.

Lemma clean_text_nil : clean_text [].
Proof.
  split; [by split|]. split; [|apply tagless_nil]. by intros [|??] ? ? ?.
Qed.

Lemma extractTableValue_clean html label : clean_text (extractTableValue html label).
Proof.
  unfold extractTableValue. destruct (match1 _ html); [apply cleanText_clean|].
  apply clean_text_nil.
Qed.

Lemma parseDetail_fields html :
  applicationNumber (parseDetail html) = extractTableValue html "Application Number"
  ∧ wordMark (parseDetail html) = extractTableValue html "Word Mark"
  ∧ filingDate (parseDetail html) = extractTableValue html "Filing Date"
  ∧ statusDesc (parseDetail html)
    = match match1 currentStatusRe html with
      | Some d => trim d
      | None => []
      end.
Proof.
  unfold parseDetail. destruct (match1 (cellRe ownerLabel) html) as [td|]; [|done].
  by destruct (parseOwner td).
Qed.

(** The cells of a filing are reported as clean text: trimmed, with single
    U+0020 units for any white space, and without a complete tag. *)
Theorem parseDetail_table_cells (html : jsstring) :
  clean_text (applicationNumber (parseDetail html))
  ∧ clean_text (wordMark (parseDetail html))
  ∧ clean_text (filingDate (parseDetail html)).
Proof.
  destruct (parseDetail_fields html) as (-> & -> & -> & _).
  split_and!; apply extractTableValue_clean.
Qed.

(** *** The status description *)

Lemma exec_match re s : ∀ pre m rest c,
  exec re s = Some (pre, m, rest, c) →
  s = pre ++ m ++ rest ∧ match_here re (m ++ rest) = Some (m, rest, c).
Proof.
  induction s as [|a t IH]; intros pre m rest c; simpl.
  - destruct (match_here re []) as [[[m' rest'] c']|] eqn:E; [|done].
    intros [= <- <- <- <-]. pose proof E as [Hs _]%match_here_Some.
    simpl. by rewrite <- Hs.
  - destruct (match_here re (a :: t)) as [[[m' rest'] c']|] eqn:E.
    + intros [= <- <- <- <-]. pose proof E as [Hs _]%match_here_Some.
      simpl. by rewrite <- Hs.
    + destruct (exec re t) as [[[[pre' m'] rest'] c']|]; [|done].
      intros [= <- <- <- <-]. by destruct (IH _ _ _ _ eq_refl) as [-> Hm].
Qed.

(** A pattern that ends in its group captures the end of the match. *)
Lemma run_cat_group i rs G : ∀ s c s' c',
  In (s', c') (run i (cat (rs ++ [Group G])) s c) →
  ∃ w g, s = w ++ g ++ s' ∧ lang i (cat rs) w ∧ lang i G g ∧ c' = Some g.
Proof.
  induction rs as [|r rs IH]; intros s c s' c'.
  - change (cat ([] ++ [Group G])) with (Seq (Group G) Eps).
    intros (s1 & c1 & H1 & [-> ->]%run_Eps_In)%run_Seq_In.
    apply run_Group_In in H1 as (g & -> & L & ->).
    exists [], g. split; [done|]. split; [by apply lang_cat_nil|done].
  - change (cat ((r :: rs) ++ [Group G])) with (Seq r (cat (rs ++ [Group G]))).
    intros (s1 & c1 & H1 & H2)%run_Seq_In.
    apply run_sound in H1 as (w1 & -> & L1).
    apply IH in H2 as (w & g & -> & Lw & Lg & ->).
    exists (w1 ++ w), g. split; [by rewrite <- app_assoc|].
    split; [|done]. apply lang_cat_cons. by exists w1, w.
Qed.

Lemma match1_Some re html d :
  match1 re html = Some d →
  ∃ pre m rest c, html = pre ++ m ++ rest
                  ∧ match_here re (m ++ rest) = Some (m, rest, c) ∧ d = group1 c.
Proof.
  unfold match1. destruct (exec re html) as [[[[pre m] rest] c]|] eqn:E; [|done].
  intros [= <-]. apply exec_match in E as [Hs Hm]. by exists pre, m, rest, c.
Qed.

(** The status description is trimmed and holds no [<] and no line feed:
    it ends where the next tag or the next line begins. *)
Theorem parseDetail_statusDesc (html : jsstring) :
  trimmed (statusDesc (parseDetail html))
  ∧ Forall (λ c, c ≠ 60 ∧ c ≠ 10) (statusDesc (parseDetail html)).
Proof.
  destruct (parseDetail_fields html) as (_ & _ & _ & ->).
  destruct (match1 currentStatusRe html) as [d|] eqn:E; [|by split].
  split; [apply trim_trimmed|]. apply trim_Forall.
  apply match1_Some in E as (pre & m & rest & c & _ & Hm & ->).
  apply match_here_In in Hm as [_ Hin].
  unfold currentStatusRe, insensitive in Hin. cbn [pattern ignoreCase] in Hin.
  apply (run_cat_group true [_; _; _; _]) in Hin as (w & g & _ & _ & Lg & ->).
  simpl.
  pose proof (char_step_one_of _ _ _
    (char_step_Class true true [chr "<"; Ch 10])) as Hone.
  apply (lang_Plus_chars true _ _ _ Hone) in Lg as [_ Lg].
  eapply Forall_impl; [exact Lg|]. cbv beta. intros a Ha.
  change (chr "<") with (Ch 60) in Ha. cbn [existsb citem_mem xorb] in Ha.
  rewrite !canonicalize_eqb_other in Ha by lia.
  apply negb_true_iff in Ha. rewrite orb_false_r in Ha.
  apply orb_false_iff in Ha as [?%N.eqb_neq ?%N.eqb_neq]. split; congruence.
Qed.

(** *** A label that is absent *)

Lemma is_prefix_app x s : is_prefix x (x ++ s) = true.
Proof. induction x as [|a x IH]; simpl; [done|]. by rewrite N.eqb_refl. Qed.

Lemma is_substring_prefix x s : is_prefix x s = true → is_substring x s = true.
Proof. intros H. destruct s; simpl; by rewrite H. Qed.

Lemma is_substring_app pre x post : is_substring x (pre ++ x ++ post) = true.
Proof.
  induction pre as [|a pre IH].
  - rewrite app_nil_l. apply is_substring_prefix, is_prefix_app.
  - simpl. rewrite IH. apply orb_true_r.
Qed.

Lemma mentions_intro html word pre w post :
  html = pre ++ w ++ post → ci_equal w (str word) → mentions html word = true.
Proof.
  intros -> Hw. unfold mentions. rewrite !fmap_app, Hw. apply is_substring_app.
Qed.

Lemma mentions_part html word pre m post :
  html = pre ++ m ++ post →
  (∃ u w v, m = u ++ w ++ v ∧ ci_equal w (str word)) →
  mentions html word = true.
Proof.
  intros -> (u & w & v & -> & Hw).
  apply (mentions_intro _ word (pre ++ u) w (v ++ post)); [|done].
  by rewrite <- !app_assoc.
Qed.

Lemma cellRe_label lbl m :
  langOf (cellRe lbl) m → ∃ u x v, m = u ++ x ++ v ∧ lang true lbl x.
Proof.
  unfold langOf, cellRe, insensitive. cbn [pattern ignoreCase].
  intros (w1 & r1 & -> & _ & L)%lang_cat_cons.
  apply lang_cat_cons in L as (w2 & r2 & -> & _ & L).
  apply lang_cat_cons in L as (w3 & r3 & -> & _ & L).
  apply lang_cat_cons in L as (w4 & r4 & -> & _ & L).
  apply lang_cat_cons in L as (x & r5 & -> & Lx & L).
  exists (w1 ++ w2 ++ w3 ++ w4), x, r5. split; [|done]. by rewrite <- !app_assoc.
Qed.

Lemma match1_mentions re html word d :
  (∀ m, langOf re m → ∃ u w v, m = u ++ w ++ v ∧ ci_equal w (str word)) →
  match1 re html = Some d → mentions html word = true.
Proof.
  intros Hre. unfold match1.
  destruct (exec re html) as [[[[pre m] rest] c]|] eqn:E; [|done]. intros _.
  apply exec_Some in E as [Hs L]. by apply (mentions_part _ _ pre m rest), Hre.
Qed.

Lemma extractTableValue_absent html label :
  mentions html label = false → extractTableValue html label = [].
Proof.
  intros Habs. unfold extractTableValue.
  destruct (match1 (cellRe (Lit label)) html) as [raw|] eqn:E; [|done].
  apply (match1_mentions _ _ label) in E; [congruence|].
  intros m (u & x & v & -> & Lx%lang_Lit)%cellRe_label. by exists u, x, v.
Qed.

Lemma ownerLabel_words x :
  lang true ownerLabel x →
  ∃ t ws o, x = t ++ ws ++ o
            ∧ ci_equal t (str "Trademark") ∧ ci_equal o (str "Owner").
Proof.
  unfold ownerLabel.
  intros (t & r1 & -> & Lt%lang_Lit & L)%lang_cat_cons.
  apply lang_cat_cons in L as (ws & r2 & -> & _ & L).
  apply lang_cat_cons in L as (o & r3 & -> & Lo%lang_Lit & ->%lang_cat_nil).
  exists t, ws, o. by rewrite app_nil_r.
Qed.

Lemma parseDetail_owner_absent html :
  match1 (cellRe ownerLabel) html = None →
  ownerName (parseDetail html) = [] ∧ ownerAddress (parseDetail html) = []
  ∧ owner (parseDetail html) = [].
Proof. intros E. unfold parseDetail. by rewrite E. Qed.

(** A field whose label does not occur in the page is empty: each cell
    needs its label, the owner both words of its label, the status
    description the words Current and Status, and a class code the word
    Class. *)
Theorem parseDetail_absent_labels (html : jsstring) :
  (mentions html "Application Number" = false →
   applicationNumber (parseDetail html) = [])
  ∧ (mentions html "Word Mark" = false → wordMark (parseDetail html) = [])
  ∧ (mentions html "Filing Date" = false → filingDate (parseDetail html) = [])
  ∧ (mentions html "Trademark" = false ∨ mentions html "Owner" = false →
     ownerName (parseDetail html) = [] ∧ ownerAddress (parseDetail html) = []
     ∧ owner (parseDetail html) = [])
  ∧ (mentions html "Current" = false ∨ mentions html "Status" = false →
     statusDesc (parseDetail html) = [])
  ∧ (mentions html "Class" = false → classes (parseDetail html) = []).
Proof.
  destruct (parseDetail_fields html) as (-> & -> & -> & ->).
  split_and!; try apply extractTableValue_absent.
  - intros Habs. apply parseDetail_owner_absent.
    destruct (match1 (cellRe ownerLabel) html) as [td|] eqn:E; [|done].
    destruct Habs as [Habs|Habs].
    + apply (match1_mentions _ _ "Trademark") in E; [congruence|].
      intros m (u & x & v & -> & (t & ws & o & -> & Ht & _)%ownerLabel_words)%cellRe_label.
      exists u, t, (ws ++ o ++ v). split; [by rewrite <- !app_assoc|done].
    + apply (match1_mentions _ _ "Owner") in E; [congruence|].
      intros m (u & x & v & -> & (t & ws & o & -> & _ & Ho)%ownerLabel_words)%cellRe_label.
      exists (u ++ t ++ ws), o, v. split; [by rewrite <- !app_assoc|done].
  - intros Habs.
    destruct (match1 currentStatusRe html) as [d|] eqn:E; [|done].
    unfold currentStatusRe, insensitive, langOf in E.
    destruct Habs as [Habs|Habs].
    + apply (match1_mentions _ _ "Current") in E; [congruence|].
      unfold langOf. cbn [pattern ignoreCase].
      intros m (w1 & r1 & -> & L1%lang_Lit & _)%lang_cat_cons.
      exists [], w1, r1. done.
    + apply (match1_mentions _ _ "Status") in E; [congruence|].
      unfold langOf. cbn [pattern ignoreCase].
      intros m (w1 & r1 & -> & _ & L)%lang_cat_cons.
      apply lang_cat_cons in L as (w2 & r2 & -> & _ & L).
      apply lang_cat_cons in L as (w3 & r3 & -> & L3%lang_Lit & _).
      exists (w1 ++ w2), w3, r3. split; [by rewrite <- !app_assoc|done].
  - intros Habs. rewrite parseDetail_classes_eq.
    destruct (scan classRe html 0) as [|[m c] l] eqn:E; [done|].
    assert (In (m, c) (scan classRe html 0)) as Hin by (rewrite E; by left).
    apply scan_In in Hin as [(kw & ws & g & -> & Hkw & _)%classRe_lang (pre & rest & Hs)].
    rewrite (mentions_intro html "Class" pre kw (ws ++ g ++ rest)) in Habs; [done| |done].
    by rewrite Hs, <- !app_assoc.
Qed.

(** *** The footprint of a call *)

Lemma visitLinks_footprint links : ∀ st w,
  let w' := (visitLinks links st w).2 in
  pages w' = pages w ∧ files w' = files w ∧ writable w' = writable w
  ∧ ∃ rels, log w' = log w ++ (Fetch <$> (linkUrl <$> rels)) ∧ rels ⊆ links.
Proof.
  induction links as [|rel links IH]; intros st w; cbv zeta.
  - split_and!; try done. exists []. simpl. by rewrite app_nil_r.
  - rewrite visitLinks_cons, visitLink_eq.
    destruct (visitOf _ _ _) as [v|msg].
    + destruct (IH (noted (v_detail v)
                     (store (cached st) (linkUrl rel) (v_store v)) st)
                  (if v_fetched v then logged [Fetch (linkUrl rel)] w else w))
        as (Hp & Hf & Hw & rels & Hl & Hsub).
      rewrite Hp, Hf, Hw, Hl. destruct (v_fetched v); split_and!; try done.
      * exists (rel :: rels). split; [simpl; by rewrite <- app_assoc|].
        intros x [->|Hx]%elem_of_cons; [left|right; by apply Hsub].
      * exists rels. split; [done|]. intros x Hx. right. by apply Hsub.
    + split_and!; try done. exists []. split; [simpl; by rewrite app_nil_r|].
      by intros x Hx%elem_of_nil.
Qed.

Lemma extractDetailLinks_path html rel :
  rel ∈ extractDetailLinks html → detail_path rel.
Proof.
  unfold extractDetailLinks. rewrite set_from_first_occurrences, first_occurrences_elem.
  intros [L _]%matchAll_elem. by apply detailLinkRe_lang.
Qed.

Lemma own_event_sub enc (rels : list jsstring) html :
  rels ⊆ extractDetailLinks html →
  Forall (own_event enc) (Fetch <$> (linkUrl <$> rels)).
Proof.
  intros Hsub. apply Forall_fmap, Forall_fmap, Forall_forall. intros rel Hrel.
  right. left. exists rel. split; [|done].
  by apply (extractDetailLinks_path html), Hsub.
Qed.

Lemma own_event_load enc w : Forall (own_event enc) (loadEvents w enc).
Proof.
  unfold loadEvents. constructor; [right; right; left|].
  destruct (files w !! cacheFile enc); [|constructor].
  constructor; [|constructor]. right. right. right. left.
Qed.

Lemma processName_touches (name enc : jsstring) (w : world) :
  encodeURIComponent name = Some enc →
  let w' := (processName name w).2 in
  pages w' = pages w ∧ writable w' = writable w
  ∧ (∀ f, f ≠ cacheFile enc → files w' !! f = files w !! f)
  ∧ ∃ es, log w' = log w ++ es ∧ Forall (own_event enc) es.
Proof.
  intros Henc. rewrite (processName_eq name enc) by done. cbv zeta.
  destruct (read_response _ _) as [html|msg].
  - pose proof (visitLinks_footprint (extractDetailLinks html)
                  (Tally [] (storedCache w enc) false false)
                  (logged (loadEvents w enc) (logged [Fetch (searchUrl enc)] w)))
      as (Hp & Hf & Hw & rels & Hl & Hsub).
    destruct (visitLinks _ _ _) as [[st|msg] w3]; simpl in Hp, Hf, Hw, Hl |- *.
    + unfold saved. destruct (writable w3 (cacheFile enc)); simpl;
        rewrite ?Hp, ?Hf, ?Hw, ?Hl; split_and!; try done.
      * intros f Hne. by rewrite lookup_insert_ne.
      * eexists. rewrite <- !app_assoc. split; [done|].
        constructor; [by left|]. apply Forall_app. split; [apply own_event_load|].
        apply Forall_app. split; [by apply (own_event_sub enc rels html)|].
        constructor; [|constructor]. right. right. right. right. left.
      * eexists. rewrite <- !app_assoc. split; [done|].
        constructor; [by left|]. apply Forall_app. split; [apply own_event_load|].
        apply Forall_app. split; [by apply (own_event_sub enc rels html)|].
        constructor; [|constructor]. right. right. right. right. left.
    + rewrite Hp, Hf, Hw, Hl. split_and!; try done.
      eexists. rewrite <- !app_assoc. split; [done|].
      constructor; [by left|]. apply Forall_app. split; [apply own_event_load|].
      by apply (own_event_sub enc rels html).
  - simpl. split_and!; try done. eexists. split; [done|].
    constructor; [by left|constructor].
Qed.

(** A call of [processName] leaves the site as it is and every file but
    the cache file of its name; it fetches the search page of the name and
    detail pages of the one site, and nothing else. *)
Theorem processName_footprint (name enc : jsstring) (w : world) :
  encodeURIComponent name = Some enc →
  let w' := (processName name w).2 in
  pages w' = pages w ∧ writable w' = writable w
  ∧ (∀ f, f ≠ cacheFile enc → files w' !! f = files w !! f)
  ∧ ∃ es, log w' = log w ++ es ∧ Forall (own_event enc) es.
Proof. apply processName_touches. Qed.

Lemma processName_footprint_witness :
  ∃ es, log (processName (str "acme toys") demoSite).2 = es
        ∧ Forall (own_event (str "acme%20toys")) es.
Proof.
  destruct (processName_footprint (str "acme toys") (str "acme%20toys") demoSite)
    as (_ & _ & _ & es & Hl & Hes); [by vm_compute|].
  exists es. split; [by rewrite Hl|done].
Defined.

(** *** The rows of a result *)

Lemma visitOf_row pg c rel v :
  visitOf pg (linkUrl rel) (get c (linkUrl rel)) = Ok v → row pg c rel (v_detail v).
Proof.
  unfold row, visitOf. fold (linkUrl rel).
  destruct (usable (get c (linkUrl rel))) as [info|].
  - destruct (risk _); [|done]. by intros [= <-].
  - destruct (read_response _ _); by intros [= <-].
Qed.

(** [details] holds one record for each link of the search page, in the
    order of the links: what the cache file held under the URL when the
    call began, with [detailUrl] filled in, or else the parsed page, or
    else the error of its fetch. *)
Theorem processName_rows (name : jsstring) (w : world) (res : SearchResult)
  (w' : world) :
  processName name w = (Ok res, w') →
  ∃ enc html,
    encodeURIComponent name = Some enc
    ∧ read_response (searchUrl enc) (pages w (searchUrl enc)) = Ok html
    ∧ Forall2 (row (pages w) (storedCache w enc))
        (extractDetailLinks html) (result_details res).
Proof.
  intros (enc & html & vs & Henc & Hhtml & Hvs & -> & _)%processName_Ok.
  exists enc, html. split; [done|]. split; [done|].
  destruct (summarise_tallied w enc (v_detail <$> vs)
              (endCache w enc (extractDetailLinks html) vs)) as [-> _].
  apply Forall2_fmap_r. eapply Forall2_impl; [exact Hvs|].
  intros rel v. apply visitOf_row.
Qed.

Lemma processName_rows_witness :
  ∃ res w' enc html,
    processName (str "acme toys") demoSite = (Ok res, w')
    ∧ encodeURIComponent (str "acme toys") = Some enc
    ∧ Forall2 (row demoPages (storedCache demoSite enc))
        (extractDetailLinks html) (result_details res).
Proof.
  destruct (processName (str "acme toys") demoSite) as [[res|msg] w'] eqn:E.
  - destruct (processName_rows _ _ _ _ E) as (enc & html & Henc & _ & Hrows).
    by exists res, w', enc, html.
  - exfalso. vm_compute in E. done.
Defined.

(** *** The cache file only grows *)

Lemma visited_lookup pg c links vs i rel :
  visited pg c links vs → links !! i = Some rel →
  ∃ v, vs !! i = Some v ∧ visitOf pg (linkUrl rel) (get c (linkUrl rel)) = Ok v.
Proof. intros Hvs Hi. destruct (Forall2_lookup_l _ _ _ _ _ Hvs Hi) as (v & ? & ?). eauto. Qed.

Lemma get_endCache c links vs pg url :
  NoDup links → visited pg c links vs →
  (get (stores c links vs) url = get c url ∧ url ∉ (linkUrl <$> links))
  ∨ (∃ rel v, rel ∈ links ∧ url = linkUrl rel
              ∧ visitOf pg url (get c url) = Ok v
              ∧ get (stores c links vs) url = get (store c url (v_store v)) url).
Proof.
  intros Hnd Hvs. destruct (decide (url ∈ (linkUrl <$> links))) as [Hin|Hout].
  - right. apply list_elem_of_fmap in Hin as (rel & -> & Hrel).
    pose proof Hrel as (i & Hi)%list_elem_of_lookup.
    destruct (visited_lookup _ _ _ _ _ _ Hvs Hi) as (v & Hv & Hvis).
    exists rel, v. split; [done|]. split; [done|]. split; [done|].
    by apply (get_stores_at links Hnd c vs i).
  - left. split; [|done]. by apply get_stores_notin.
Qed.

(** A call never drops or replaces a record of the cache file: afterwards
    the URL holds the record as it was or as [JSON.stringify] writes it,
    with a missing [detailUrl] filled in; a record that is read back as
    written is kept as it is but for [detailUrl]. And when the file can be
    written and holds a mapping, every page the call fetched is in the
    file after it. *)
Theorem cache_only_grows (name enc html : jsstring) (w : world)
  (res : SearchResult) (w' : world) :
  encodeURIComponent name = Some enc →
  read_response (searchUrl enc) (pages w (searchUrl enc)) = Ok html →
  processName name w = (Ok res, w') →
  (∀ url info,
     get (storedCache w enc) url = Some info → truthy (Some info) = true →
     ∃ kept,
       get (storedCache w' enc) url = Some kept
       ∧ (kept = info ∨ kept = stringify_parse info
          ∨ kept = stringify_parse (backfill url info))
       ∧ (round_trips info → kept = info ∨ kept = backfill url info))
  ∧ (writable w (cacheFile enc) = true →
     ∀ rel page,
       rel ∈ extractDetailLinks html →
       get (storedCache w enc) (baseUrl ++ rel) = None →
       is_object (storedCache w enc) = true →
       read_response (baseUrl ++ rel) (pages w (baseUrl ++ rel)) = Ok page →
       get (storedCache w' enc) (baseUrl ++ rel)
       = Some (detail_json (parseDetail page) (baseUrl ++ rel))).
Proof.
  intros Henc Hhtml (enc' & html' & vs & Henc' & Hhtml' & Hvs & _ & ->)%processName_Ok.
  rewrite Henc in Henc'. injection Henc' as <-.
  rewrite Hhtml in Hhtml'. injection Hhtml' as <-.
  pose proof (extractDetailLinks_NoDup html) as Hnd.
  set (links := extractDetailLinks html) in *.
  split.
  - intros url info Hget Htruthy. rewrite get_endWorld. unfold endCache.
    set (c := storedCache w enc) in *.
    destruct (writable w (cacheFile enc)).
    2:{ exists info. split; [done|]. split; [by left|by left]. }
    destruct (get_endCache c links vs (pages w) url Hnd Hvs)
      as [[-> _]|(rel & v & _ & -> & Hvis & ->)].
    { rewrite Hget. exists (stringify_parse info). split; [done|].
      split; [by right; left|]. intros ->. by left. }
    unfold visitOf in Hvis. rewrite Hget, (usable_truthy _ Htruthy) in Hvis.
    destruct (risk _); [|done]. injection Hvis as <-. cbn [v_store].
    destruct (truthy (get info (str "detailUrl"))) eqn:Hurl.
    { cbn [store]. rewrite Hget. exists (stringify_parse info). split; [done|].
      split; [by right; left|]. intros ->. by left. }
    cbn [store]. rewrite get_assign, bool_decide_true, andb_true_r by done.
    assert (is_object c = true) as -> by (by destruct c).
    exists (stringify_parse (backfill (linkUrl rel) info)). split; [done|].
    split; [by right; right|]. intros Hrt. right.
    by apply backfill_round_trips.
  - intros Hw rel page Hrel Hnone Hobj Hpage. rewrite get_endWorld, Hw.
    unfold endCache. set (c := storedCache w enc) in *.
    fold (linkUrl rel) in Hnone, Hpage |- *.
    destruct (get_endCache c links vs (pages w) (linkUrl rel) Hnd Hvs)
      as [[_ Hout]|(rel' & v & _ & _ & Hvis & ->)].
    { destruct Hout. apply list_elem_of_fmap. by exists rel. }
    unfold visitOf in Hvis. rewrite Hnone in Hvis. cbn [usable] in Hvis. rewrite Hpage in Hvis.
    injection Hvis as <-. cbn [v_store store]. rewrite get_assign, Hobj.
    rewrite bool_decide_true by done. cbn [andb fmap option_fmap option_map].
    f_equal. apply detail_json_round_trips.
Qed.

Lemma cache_only_grows_witness :
  let rel := str "/australia/trademark/trademark-detail/1/a" in
  let page := str "<th>Word Mark</th><td>ACME</td> status: LIVE , Class 028" in
  ∃ res w',
    processName (str "acme toys") demoSite = (Ok res, w')
    ∧ get (storedCache w' (str "acme%20toys")) (baseUrl ++ rel)
      = Some (detail_json (parseDetail page) (baseUrl ++ rel)).
Proof.
  intros rel page.
  destruct (processName (str "acme toys") demoSite) as [[res|msg] w'] eqn:E.
  - destruct (cache_only_grows (str "acme toys") (str "acme%20toys") demoSearch
                demoSite res w') as [_ H]; [by vm_compute|by vm_compute|exact E|].
    exists res, w'. split; [done|].
    apply H; [done| |by vm_compute..].
    apply (bool_decide_unpack _). by vm_compute.
  - exfalso. vm_compute in E. done.
Defined.

(** *** Names that cannot be encoded *)

Lemma unreserved_not_surrogate c :
  uri_unreserved c = true → is_lead c = false ∧ is_trail c = false.
Proof.
  unfold uri_unreserved, is_lead, is_trail, is_digit. intros H.
  assert (c < 128) as Hc.
  { repeat (apply orb_true_iff in H as [H|H]).
    - apply andb_true_iff in H as [_ ?%N.leb_le]. lia.
    - apply andb_true_iff in H as [_ ?%N.leb_le]. lia.
    - apply andb_true_iff in H as [_ ?%N.leb_le]. lia.
    - apply bool_decide_eq_true in H.
      repeat (apply elem_of_cons in H as [->|H]; [done|]). by apply elem_of_nil in H. }
  split; apply andb_false_iff; left; apply N.leb_gt; lia.
Qed.

Lemma lead_not_trail c : is_lead c = true → is_trail c = false.
Proof.
  unfold is_lead, is_trail. intros [_ ?%N.leb_le]%andb_true_iff.
  apply andb_false_iff. left. apply N.leb_gt. lia.
Qed.

(** [encodeURIComponent] fails exactly on a surrogate without its pair. *)
Lemma encodeURIComponent_well_formed n : ∀ s, (length s ≤ n)%nat →
  (is_Some (encodeURIComponent s) ↔ well_formed s = true).
Proof.
  unfold well_formed. induction n as [|n IH]; intros s Hn.
  { destruct s; [|simpl in Hn; lia]. simpl. split; [done|by eexists]. }
  destruct s as [|c t]; [simpl; split; [done|by eexists]|].
  cbn [encodeURIComponent paired]. simpl in Hn.
  destruct (uri_unreserved c) eqn:Eu.
  - destruct (unreserved_not_surrogate c Eu) as [-> ->].
    rewrite fmap_is_Some. apply IH. lia.
  - destruct (is_trail c) eqn:Et; [split; [by intros [? ?]|done]|].
    destruct (is_lead c) eqn:El.
    + destruct t as [|d t']; [split; [by intros [? ?]|done]|].
      cbn [paired]. destruct (is_trail d); [|split; [by intros [? ?]|done]].
      rewrite fmap_is_Some. simpl. apply IH. simpl in Hn. lia.
    + rewrite fmap_is_Some. apply IH. lia.
Qed.

Lemma encodeURIComponent_None s :
  encodeURIComponent s = None ↔ well_formed s = false.
Proof.
  pose proof (encodeURIComponent_well_formed (length s) s (le_n _)) as H.
  destruct (encodeURIComponent s), (well_formed s); split; try done.
  - intros _. destruct H as [H _]. by discriminate H; eexists.
  - intros _. destruct H as [_ H]. by destruct H.
Qed.

(** A name with a surrogate that lacks its pair cannot be encoded: it is
    reported as malformed, nothing is fetched, read or written for it, and
    the batch goes on with the next name. *)
Theorem lone_surrogate_name (name : jsstring) (w : world) :
  well_formed name = false →
  processName name w = (Throw (str "URI malformed"), w)
  ∧ nameEntry name w = (Ok (JObj [(str "error", JStr (str "URI malformed"))]), w)
  ∧ ∀ rest result,
      searchAll (name :: rest) result w
      = searchAll rest
          (setResult result name (JObj [(str "error", JStr (str "URI malformed"))])) w.
Proof.
  intros Henc%encodeURIComponent_None.
  assert (processName name w = (Throw (str "URI malformed"), w)) as Hp.
  { unfold processName, safeName. rewrite Henc. done. }
  assert (nameEntry name w
          = (Ok (JObj [(str "error", JStr (str "URI malformed"))]), w)) as Hn.
  { rewrite nameEntry_eq, Hp. done. }
  split; [done|]. split; [done|]. intros rest result.
  by rewrite searchAll_cons, Hn.
Qed.

Lemma lone_surrogate_name_witness :
  nameEntry [97; 55357] deadSite
  = (Ok (JObj [(str "error", JStr (str "URI malformed"))]), deadSite).
Proof. by apply (lone_surrogate_name [97; 55357] deadSite). Defined.

(** *** A cache mapping that is no object *)

Lemma stores_non_object c links : ∀ vs, is_object c = false → stores c links vs = c.
Proof.
  induction links as [|rel links IH]; intros [|v vs] Hc; simpl; try done.
  rewrite store_non_object by done. by apply IH.
Qed.

Lemma visited_uncached pg c links :
  (∀ rel, rel ∈ links → usable (get c (linkUrl rel)) = None) →
  visited pg c links (fetchVisit pg <$> links).
Proof.
  intros Hc. apply Forall2_fmap_r, Forall_Forall2_diag, Forall_forall.
  intros rel Hrel. unfold visitOf, fetchVisit. rewrite (Hc rel Hrel).
  unfold compose. by destruct (read_response _ _).
Qed.

Lemma fetchedUrls_uncached pg links :
  fetchedUrls links (fetchVisit pg <$> links) = linkUrl <$> links.
Proof.
  induction links as [|rel links IH]; [done|]. cbn [fmap list_fmap fetchedUrls].
  fold (fetchVisit pg <$> links). rewrite IH. unfold fetchVisit.
  by destruct (read_response _ _).
Qed.

(** A truthy value that is no object is written as a value of the same
    kind, unless it is an infinity. *)
Lemma stringify_parse_non_object c :
  is_object c = false → truthy (Some c) = true →
  detailCacheOf (JObj [(str "detailCache", stringify_parse c)])
  = if infinite c then JObj [] else stringify_parse c.
Proof.
  intros Hobj Ht. unfold detailCacheOf.
  change (get (JObj [(str "detailCache", stringify_parse c)]) (str "detailCache"))
    with (Some (stringify_parse c)).
  change (truthy (Some (JObj [(str "detailCache", stringify_parse c)]))) with true.
  cbn [andb default].
  destruct c as [|b|bits|s|xs|fs]; try done.
  { by destruct b. }
  2:{ by destruct s. }
  cbn [stringify_parse infinite truthy] in *. cbv zeta in *.
  destruct (2047 * 2 ^ 52 <=? bits mod 2 ^ 63) eqn:E1; [done|].
  destruct (bits mod 2 ^ 63 =? 0) eqn:E2.
  - apply N.eqb_eq in E2. by rewrite E2 in Ht.
  - cbn [truthy]. cbv zeta. by rewrite Ht.
Qed.

(** When the [detailCache] of the cache file is truthy but no object (a
    list, a text, a number, [true]), no record is ever found in it or put
    into it: the call fetches every detail page, and the file holds a
    value of the same kind afterwards, so that every later call does the
    same. The one exception is an infinite number, which is written as
    [null]: the next call starts from an empty mapping. *)
Theorem stuck_cache (name enc html : jsstring) (w : world) :
  encodeURIComponent name = Some enc →
  read_response (searchUrl enc) (pages w (searchUrl enc)) = Ok html →
  is_object (storedCache w enc) = false →
  ∃ res w',
    processName name w = (Ok res, w')
    ∧ log w'
      = log w ++ Fetch (searchUrl enc) :: loadEvents w enc
          ++ (Fetch <$> ((baseUrl ++.) <$> extractDetailLinks html))
          ++ [WriteFile (cacheFile enc)]
    ∧ (infinite (storedCache w enc) = false →
       is_object (storedCache w' enc) = false
       ∧ infinite (storedCache w' enc) = false)
    ∧ (infinite (storedCache w enc) = true → writable w (cacheFile enc) = true →
       storedCache w' enc = JObj []).
Proof.
  intros Henc Hhtml Hobj.
  set (links := extractDetailLinks html).
  set (vs := fetchVisit (pages w) <$> links).
  assert (visited (pages w) (storedCache w enc) links vs) as Hvs.
  { apply visited_uncached. intros rel _. by rewrite get_non_object. }
  eexists _, _. split; [by apply (processName_visited name enc html w vs)|].
  fold links. split.
  { rewrite log_endWorld. unfold fetchEvents, vs.
    by rewrite fetchedUrls_uncached. }
  assert (storedCache (endWorld w enc links vs) enc
          = if writable w (cacheFile enc)
            then if infinite (storedCache w enc) then JObj []
                 else stringify_parse (storedCache w enc)
            else storedCache w enc) as ->.
  { rewrite storedCache_endWorld. unfold endCache.
    rewrite stores_non_object by done. destruct (writable _ _); [|done].
    apply stringify_parse_non_object; [done|]. apply detailCacheOf_truthy. }
  split.
  - intros Hfin. rewrite Hfin. destruct (writable _ _); [|done].
    rewrite is_object_stringify_parse. split; [done|].
    destruct (storedCache w enc) as [|b|bits|s|xs|fs]; try done.
    cbn [stringify_parse infinite] in *. cbv zeta. rewrite Hfin.
    destruct (bits mod 2 ^ 63 =? 0); [done|]. by cbn [infinite].
  - by intros -> ->.
Qed.

Lemma stuck_cache_witness :
  ∃ res w',
    processName (str "acme toys") stuckSite = (Ok res, w')
    ∧ is_object (storedCache w' (str "acme%20toys")) = false.
Proof.
  destruct (stuck_cache (str "acme toys") (str "acme%20toys") demoSearch stuckSite)
    as (res & w' & Hrun & _ & Hc & _); [by vm_compute|by vm_compute|by vm_compute|].
  exists res, w'. split; [done|]. apply Hc. by vm_compute.
Defined.

(** *** What the result depends on *)

Lemma visitLinks_result links : ∀ st w1 w2,
  pages w1 = pages w2 →
  (visitLinks links st w1).1 = (visitLinks links st w2).1.
Proof.
  induction links as [|rel links IH]; intros st w1 w2 Hp; [done|].
  rewrite !visitLinks_cons, !visitLink_eq, Hp.
  destruct (visitOf _ _ _) as [v|msg]; [|done].
  apply IH. by destruct (v_fetched v).
Qed.

Lemma processName_result (name : jsstring) (w1 w2 : world) :
  pages w1 = pages w2 →
  (∀ enc, encodeURIComponent name = Some enc →
     files w1 !! cacheFile enc = files w2 !! cacheFile enc) →
  (processName name w1).1 = (processName name w2).1.
Proof.
  intros Hp Hf. destruct (encodeURIComponent name) as [enc|] eqn:Henc.
  - rewrite !(processName_eq name enc) by done. cbv zeta. rewrite Hp.
    destruct (read_response _ _) as [html|msg]; [|done].
    assert (storedCache w1 enc = storedCache w2 enc) as Hc.
    { unfold storedCache. by rewrite (Hf enc). }
    rewrite Hc.
    pose proof (visitLinks_result (extractDetailLinks html)
                  (Tally [] (storedCache w2 enc) false false)
                  (logged (loadEvents w1 enc) (logged [Fetch (searchUrl enc)] w1))
                  (logged (loadEvents w2 enc) (logged [Fetch (searchUrl enc)] w2)) Hp)
      as Hres.
    destruct (visitLinks _ _ (logged (loadEvents w1 enc) _)) as [[st1|m1] u1],
      (visitLinks _ _ (logged (loadEvents w2 enc) _)) as [[st2|m2] u2];
      simpl in Hres |- *; congruence.
  - unfold processName, safeName. by rewrite Henc.
Qed.

(** The result of a call depends on the site and on the cache file of the
    name alone: not on the other files, not on whether the cache directory
    can be written, not on what was done before. *)
Theorem processName_depends (name : jsstring) (w1 w2 : world) :
  pages w1 = pages w2 →
  (∀ enc, encodeURIComponent name = Some enc →
     files w1 !! cacheFile enc = files w2 !! cacheFile enc) →
  (processName name w1).1 = (processName name w2).1.
Proof. apply processName_result. Qed.

Lemma processName_depends_witness :
  (processName (str "acme toys")
     (World demoPages ∅ (λ _, false) [Fetch (str "https://example.org/")])).1
  = (processName (str "acme toys") demoSite).1.
Proof. by apply processName_depends. Defined.

(** *** The encoding of a name *)

(** Linear arithmetic with division by constants. *)
Ltac divlia := zify; Z.to_euclidean_division_equations; lia.

Lemma div_mod_eq k a b : k ≠ 0 → a / k = b / k → a mod k = b mod k → a = b.
Proof.
  intros Hk Hd Hm. rewrite (N.div_mod a k), (N.div_mod b k) by done. congruence.
Qed.

Lemma hex_digit_inj a b : a < 16 → b < 16 → hex_digit a = hex_digit b → a = b.
Proof.
  unfold hex_digit. intros Ha Hb.
  destruct (N.ltb_spec a 10), (N.ltb_spec b 10); lia.
Qed.

Lemma hex_digit_safe a : a < 16 → uri_unreserved (hex_digit a) = true.
Proof.
  intros Ha. unfold hex_digit, uri_unreserved, is_digit.
  destruct (N.ltb_spec a 10).
  - assert ((48 <=? 48 + a) && (48 + a <=? 57) = true) as ->; [|by rewrite !orb_true_r].
    apply andb_true_iff. split; apply N.leb_le; lia.
  - assert ((65 <=? 55 + a) && (55 + a <=? 90) = true) as ->; [|done].
    apply andb_true_iff. split; apply N.leb_le; lia.
Qed.

Lemma nibbles b : b < 256 → b / 16 < 16 ∧ b mod 16 < 16.
Proof.
  intros Hb. split; [apply N.Div0.div_lt_upper_bound; lia|].
  apply N.mod_upper_bound. lia.
Qed.

Lemma pct_inj b1 b2 x y :
  b1 < 256 → b2 < 256 → pct b1 ++ x = pct b2 ++ y → b1 = b2 ∧ x = y.
Proof.
  intros [? ?]%nibbles [? ?]%nibbles E. injection E as Hh Hl ->. split; [|done].
  apply hex_digit_inj in Hh; [|done..]. apply hex_digit_inj in Hl; [|done..].
  by apply (div_mod_eq 16).
Qed.

Lemma pct_safe b : b < 256 → Forall (λ c, uri_safe c = true) (pct b).
Proof.
  intros [? ?]%nibbles. unfold pct, uri_safe. repeat constructor.
  - by rewrite hex_digit_safe.
  - by rewrite hex_digit_safe.
Qed.

(** The octets of the UTF-8 form of a code point. *)
Lemma utf8_octets cp :
  cp mod 64 < 64 ∧ cp / 64 mod 64 < 64 ∧ cp / 4096 mod 64 < 64
  ∧ (cp < 2048 → cp / 64 < 32) ∧ (cp < 65536 → cp / 4096 < 16)
  ∧ (cp < 2097152 → cp / 262144 < 8).
Proof.
  split_and!; try (apply N.mod_upper_bound; lia);
    intros H; apply N.Div0.div_lt_upper_bound; lia.
Qed.

Lemma pct_utf8_safe cp : cp < 2097152 → Forall (λ c, uri_safe c = true) (pct_utf8 cp).
Proof.
  intros Hcp. destruct (utf8_octets cp) as (? & ? & ? & H2 & H3 & H4).
  specialize (H4 Hcp). unfold pct_utf8.
  destruct (N.ltb_spec cp 128); [apply pct_safe; lia|].
  destruct (N.ltb_spec cp 2048).
  { specialize (H2 ltac:(done)). apply Forall_app; split; apply pct_safe; lia. }
  destruct (N.ltb_spec cp 65536).
  - specialize (H3 ltac:(done)). repeat (apply Forall_app; split); apply pct_safe; lia.
  - repeat (apply Forall_app; split); apply pct_safe; lia.
Qed.

Lemma pct_utf8_head cp : ∃ x, pct_utf8 cp = 37 :: x.
Proof.
  unfold pct_utf8. destruct (cp <? 128); [by eexists|].
  destruct (cp <? 2048); [by eexists|]. destruct (cp <? 65536); by eexists.
Qed.

Lemma join2 a b : a / 64 = b / 64 → a mod 64 = b mod 64 → a = b.
Proof. by apply div_mod_eq. Qed.

Lemma join3 a b :
  a / 4096 = b / 4096 → a / 64 mod 64 = b / 64 mod 64 → a mod 64 = b mod 64 →
  a = b.
Proof.
  intros H1 H2 H3. apply join2; [|done]. apply join2; [|done].
  rewrite !N.Div0.div_div. exact H1.
Qed.

Lemma join4 a b :
  a / 262144 = b / 262144 → a / 4096 mod 64 = b / 4096 mod 64 →
  a / 64 mod 64 = b / 64 mod 64 → a mod 64 = b mod 64 → a = b.
Proof.
  intros H1 H2 H3 H4. apply join3; [|done..]. apply join2; [|done].
  rewrite !N.Div0.div_div. exact H1.
Qed.

(** The escapes of two code points are never a prefix of one another. *)
Lemma pct_utf8_inj cp1 cp2 x y :
  cp1 < 2097152 → cp2 < 2097152 →
  pct_utf8 cp1 ++ x = pct_utf8 cp2 ++ y → cp1 = cp2 ∧ x = y.
Proof.
  intros H1 H2.
  destruct (utf8_octets cp1) as (? & ? & ? & A2 & A3 & A4).
  destruct (utf8_octets cp2) as (? & ? & ? & B2 & B3 & B4).
  specialize (A4 H1). specialize (B4 H2). unfold pct_utf8.
  destruct (N.ltb_spec cp1 128) as [Hc1|Hc1], (N.ltb_spec cp2 128) as [Hc2|Hc2];
    [|destruct (N.ltb_spec cp2 2048); [|destruct (N.ltb_spec cp2 65536)]
     |destruct (N.ltb_spec cp1 2048); [|destruct (N.ltb_spec cp1 65536)]
     |destruct (N.ltb_spec cp1 2048), (N.ltb_spec cp2 2048);
        [|destruct (N.ltb_spec cp2 65536)|destruct (N.ltb_spec cp1 65536)
         |destruct (N.ltb_spec cp1 65536), (N.ltb_spec cp2 65536)]];
    try specialize (A2 ltac:(done)); try specialize (A3 ltac:(done));
    try specialize (B2 ltac:(done)); try specialize (B3 ltac:(done));
    rewrite <- ?app_assoc; intros E0;
    apply pct_inj in E0 as [Hb1 E1]; [|try lia..];
    try (exfalso; clear -Hb1 A2 A3 A4 B2 B3 B4 H1 H2 Hc1 Hc2; divlia);
    try (apply pct_inj in E1 as [Hb2 E2]; [|lia..]);
    try (apply pct_inj in E2 as [Hb3 E3]; [|lia..]);
    try (apply pct_inj in E3 as [Hb4 E4]; [|lia..]);
    (split; [|done]);
    first [done | apply join2; lia | apply join3; lia | apply join4; lia].
Qed.

Lemma pair_code_point c d :
  is_lead c = true → is_trail d = true →
  65536 ≤ 65536 + (c - 55296) * 1024 + (d - 56320)
  ∧ 65536 + (c - 55296) * 1024 + (d - 56320) < 2097152.
Proof.
  unfold is_lead, is_trail.
  intros [?%N.leb_le ?%N.leb_le]%andb_true_iff [?%N.leb_le ?%N.leb_le]%andb_true_iff.
  lia.
Qed.

(** What [encodeURIComponent] makes of the first unit, or the first pair,
    of a string. *)
Lemma encodeURIComponent_cons c t e :
  code_units (c :: t) → encodeURIComponent (c :: t) = Some e →
  (uri_unreserved c = true ∧ ∃ e', e = c :: e' ∧ encodeURIComponent t = Some e')
  ∨ (uri_unreserved c = false
     ∧ ∃ cp rest e',
         cp < 2097152 ∧ e = pct_utf8 cp ++ e'
         ∧ encodeURIComponent rest = Some e'
         ∧ code_units rest ∧ (length rest < length (c :: t))%nat
         ∧ ((is_lead c = false ∧ cp = c ∧ rest = t)
            ∨ (∃ d, is_lead c = true ∧ is_trail d = true ∧ t = d :: rest
                    ∧ cp = 65536 + (c - 55296) * 1024 + (d - 56320)))).
Proof.
  intros Hu. inversion Hu as [|? ? Hc Ht]; subst. cbn [encodeURIComponent].
  destruct (uri_unreserved c) eqn:Eu.
  - destruct (encodeURIComponent t) as [e'|] eqn:E'; [|done]. intros [= <-].
    left. split; [done|]. by exists e'.
  - destruct (is_trail c); [done|]. destruct (is_lead c) eqn:El.
    + destruct t as [|d t']; [done|]. destruct (is_trail d) eqn:Ed; [|done].
      destruct (encodeURIComponent t') as [e'|] eqn:E'; [|done]. intros [= <-].
      destruct (pair_code_point c d El Ed) as [_ Hcp].
      right. split; [done|].
      exists (65536 + (c - 55296) * 1024 + (d - 56320)), t', e'.
      split; [done|]. split; [done|]. split; [done|].
      split; [by inversion Ht|]. split; [simpl; lia|]. right. by exists d.
    + destruct (encodeURIComponent t) as [e'|] eqn:E'; [|done]. intros [= <-].
      right. split; [done|].
      exists c, t, e'. split; [lia|]. split; [done|]. split; [done|].
      split; [done|]. split; [simpl; lia|]. by left.
Qed.

(** [encodeURIComponent] writes unreserved units and percent signs only. *)
Lemma encodeURIComponent_safe n : ∀ s e, (length s ≤ n)%nat →
  code_units s → encodeURIComponent s = Some e →
  Forall (λ c, uri_safe c = true) e.
Proof.
  induction n as [|n IH]; intros s e Hn Hu He.
  { destruct s; [|simpl in Hn; lia]. injection He as <-. constructor. }
  destruct s as [|c t]; [injection He as <-; constructor|].
  apply encodeURIComponent_cons in He
    as [[Hc (e' & -> & He')]
       |[_ (cp & rest & e' & Hcp & -> & He' & Hrest & Hlen & _)]]; [| |done].
  - constructor; [unfold uri_safe; by rewrite Hc|].
    apply (IH t); [simpl in Hn; lia|by inversion Hu|done].
  - apply Forall_app. split; [by apply pct_utf8_safe|].
    apply (IH rest); [simpl in Hn, Hlen; lia|done|done].
Qed.

(** [encodeURIComponent] is one-to-one. *)
Lemma encodeURIComponent_inj n : ∀ s1 s2 e, (length s1 ≤ n)%nat →
  code_units s1 → code_units s2 →
  encodeURIComponent s1 = Some e → encodeURIComponent s2 = Some e → s1 = s2.
Proof.
  induction n as [|n IH]; intros s1 s2 e Hn Hu1 Hu2 He1 He2.
  { destruct s1; [|simpl in Hn; lia]. injection He1 as <-.
    destruct s2 as [|c t]; [done|].
    apply encodeURIComponent_cons in He2
      as [[_ (e' & [=] & _)]|[_ (cp & rest & e' & _ & He & _)]]; [|done].
    destruct (pct_utf8_head cp) as [x Hx]. by rewrite Hx in He. }
  destruct s1 as [|c1 t1], s2 as [|c2 t2].
  - done.
  - injection He1 as <-.
    apply encodeURIComponent_cons in He2
      as [[_ (e' & [=] & _)]|[_ (cp & rest & e' & _ & He & _)]]; [|done].
    destruct (pct_utf8_head cp) as [x Hx]. by rewrite Hx in He.
  - injection He2 as <-.
    apply encodeURIComponent_cons in He1
      as [[_ (e' & [=] & _)]|[_ (cp & rest & e' & _ & He & _)]]; [|done].
    destruct (pct_utf8_head cp) as [x Hx]. by rewrite Hx in He.
  - apply encodeURIComponent_cons in He1
      as [[Hc1 (e1 & -> & He1)]
         |[Hc1 (cp1 & r1 & e1 & Hcp1 & -> & He1 & Hr1 & Hl1 & Hk1)]]; [| |done];
    apply encodeURIComponent_cons in He2
      as [[Hc2 (e2 & E & He2)]
         |[Hc2 (cp2 & r2 & e2 & Hcp2 & E & He2 & Hr2 & Hl2 & Hk2)]]; try done.
    + injection E as <- <-. f_equal.
      apply (IH t1 t2 e1); [simpl in Hn; lia|by inversion Hu1|by inversion Hu2|done..].
    + destruct (pct_utf8_head cp2) as [x Hx]. rewrite Hx in E.
      injection E as -> _. done.
    + destruct (pct_utf8_head cp1) as [x Hx]. rewrite Hx in E.
      injection E as <- _. done.
    + apply pct_utf8_inj in E as [<- <-]; [|done..].
      assert (r1 = r2) as <-.
      { apply (IH r1 r2 e1); [simpl in Hn, Hl1; lia|done..]. }
      destruct Hk1 as [(El1 & Ecp1 & Et1)|(d1 & El1 & Ed1 & Et1 & Ecp1)],
        Hk2 as [(El2 & Ecp2 & Et2)|(d2 & El2 & Ed2 & Et2 & Ecp2)].
      * congruence.
      * inversion Hu1; subst. destruct (pair_code_point c2 d2 El2 Ed2). lia.
      * inversion Hu2; subst. destruct (pair_code_point c1 d1 El1 Ed1). lia.
      * rewrite Ecp1 in Ecp2. rewrite Et1, Et2. clear -El1 El2 Ed1 Ed2 Ecp2.
        unfold is_lead, is_trail in *.
        apply andb_true_iff in El1 as [?%N.leb_le ?%N.leb_le].
        apply andb_true_iff in El2 as [?%N.leb_le ?%N.leb_le].
        apply andb_true_iff in Ed1 as [?%N.leb_le ?%N.leb_le].
        apply andb_true_iff in Ed2 as [?%N.leb_le ?%N.leb_le].
        assert (c1 = c2) by lia. assert (d1 = d2) by lia. by subst.
Qed.

Lemma cacheFile_safe enc :
  Forall (λ c, uri_safe c = true) enc → Forall (λ c, uri_safe c = true) (cacheFile enc).
Proof. intros H. apply Forall_app. split; [done|]. by repeat constructor. Qed.

(** The cache file of a name is named with letters, digits and the marks
    [-_.!~*'()%] only, so with no path separator: a name never directs a
    read or a write outside the cache directory. And two names have the
    same cache file only when they are the same name. *)
Theorem cache_file_names (name enc : jsstring) :
  code_units name → encodeURIComponent name = Some enc →
  Forall (λ c, uri_safe c = true) (cacheFile enc)
  ∧ (47 ∉ cacheFile enc) ∧ (92 ∉ cacheFile enc)
  ∧ ∀ name' enc',
      code_units name' → encodeURIComponent name' = Some enc' →
      cacheFile enc' = cacheFile enc → name' = name.
Proof.
  intros Hu He.
  assert (Forall (λ c, uri_safe c = true) (cacheFile enc)) as Hsafe.
  { apply cacheFile_safe. by apply (encodeURIComponent_safe (length name) name). }
  split; [done|]. rewrite Forall_forall in Hsafe.
  split; [by intros ?%Hsafe|]. split; [by intros ?%Hsafe|].
  intros name' enc' Hu' He' Hf. apply app_inv_tail in Hf as ->.
  by apply (encodeURIComponent_inj (length name') name' name enc).
Qed.

Lemma cache_file_names_witness :
  Forall (λ c, uri_safe c = true) (cacheFile (str "..%2F..%2Fetc%2Fpasswd")).
Proof.
  apply (cache_file_names (str "../../etc/passwd")); [|done].
  repeat constructor.
Defined.

(** Processing one name does not change what another name gives: the
    results of the names of a batch are those each name gives on its own. *)
Theorem names_independent (name1 name2 : jsstring) (w : world) :
  code_units name1 → code_units name2 → name1 ≠ name2 →
  (processName name1 (processName name2 w).2).1 = (processName name1 w).1.
Proof.
  intros Hu1 Hu2 Hne.
  destruct (encodeURIComponent name2) as [enc2|] eqn:He2.
  - destruct (processName_touches name2 enc2 w He2) as (Hp & _ & Hf & _).
    apply processName_result; [done|]. intros enc1 He1. apply Hf.
    intros ->%app_inv_tail. destruct Hne.
    by apply (encodeURIComponent_inj (length name1) name1 name2 enc2).
  - unfold processName at 2. unfold safeName. by rewrite He2.
Qed.

Lemma names_independent_witness :
  (processName (str "acme toys") (processName (str "zzyzx") demoSite).2).1
  = (processName (str "acme toys") demoSite).1.
Proof.
  apply names_independent; [repeat constructor..|done].
Defined.

(** *** The cache-less loop *)

Lemma nocache_noteRisk info st :
  NoCache.noteRisk info st =
    match risk info with
    | Ok (l, r) =>
        (NoCache.Tally (NoCache.details st) (NoCache.hasLive st || l)
           (NoCache.hasRedMark st || r), None)
    | Throw msg =>
        (NoCache.Tally (NoCache.details st) true (NoCache.hasRedMark st), Some msg)
    end.
Proof.
  unfold NoCache.noteRisk, risk. destruct st as [ds hl hr]. simpl.
  destruct (is_live info); [|by rewrite !orb_false_r].
  destruct (includes _ (str "009")) as [a|]; [|done].
  destruct (includes _ (str "028")) as [b|]; [|done].
  destruct (includes _ (str "041")) as [c'|]; [|done].
  rewrite orb_true_r. destruct (a || b || c'); by rewrite ?orb_true_r, ?orb_false_r.
Qed.

Lemma live_red_fresh d url :
  risk (detail_json d url)
  = Ok (live (detail_json d url), red (detail_json d url)).
Proof.
  destruct (risk_fresh d url) as (l & r & Hr). unfold red, live.
  rewrite Hr. by rewrite (risk_live _ _ _ Hr).
Qed.

Lemma nocache_visitLink rel st w :
  NoCache.visitLink rel st w
  = (Ok (NoCache.Tally (NoCache.details st ++ [plainRow (pages w) rel])
           (NoCache.hasLive st || live (plainRow (pages w) rel))
           (NoCache.hasRedMark st || red (plainRow (pages w) rel))),
     logged [Fetch (linkUrl rel)] w).
Proof.
  unfold NoCache.visitLink, plainRow. rewrite fetchPage_eq. fold (linkUrl rel).
  destruct (read_response _ _) as [page|msg].
  - rewrite nocache_noteRisk, live_red_fresh. done.
  - unfold NoCache.pushError. cbn [NoCache.details NoCache.hasLive NoCache.hasRedMark].
    change (live (errorRecord msg)) with false.
    change (red (errorRecord msg)) with false. by rewrite !orb_false_r.
Qed.

Lemma nocache_visitLinks links : ∀ st w,
  NoCache.visitLinks links st w
  = (Ok (NoCache.Tally (NoCache.details st ++ (plainRow (pages w) <$> links))
           (NoCache.hasLive st || existsb live (plainRow (pages w) <$> links))
           (NoCache.hasRedMark st || existsb red (plainRow (pages w) <$> links))),
     logged (Fetch <$> (linkUrl <$> links)) w).
Proof.
  induction links as [|rel links IH]; intros st w.
  - simpl. rewrite app_nil_r, !orb_false_r, logged_nil. by destruct st.
  - cbn [NoCache.visitLinks]. step_bind. rewrite nocache_visitLink, IH.
    cbn [NoCache.details NoCache.hasLive NoCache.hasRedMark pages logged fmap list_fmap
         existsb].
    rewrite <- !app_assoc, !orb_assoc, logged_logged. done.
Qed.

Lemma nocache_summary st :
  (score (NoCache.summarise st), explanation (NoCache.summarise st))
  = summary_of (NoCache.hasLive st) (NoCache.hasRedMark st)
  ∧ result_details (NoCache.summarise st) = NoCache.details st.
Proof.
  unfold summary_of, summarise, NoCache.summarise. simpl.
  by destruct (NoCache.hasLive st), (NoCache.hasRedMark st).
Qed.

Lemma classes_ok_plainRow pg rel : classes_ok (plainRow pg rel).
Proof.
  unfold plainRow. destruct (read_response _ _);
    [apply classes_ok_fresh|apply classes_ok_error].
Qed.

Lemma spec_summary_of ds :
  Forall classes_ok ds →
  summary_of (existsb live ds) (existsb red ds) = spec_summary ds.
Proof.
  intros Hok. pose proof (classify_spec ds Hok) as Hc.
  apply classify_Ok in Hc as [_ ->]. done.
Qed.

Lemma nocache_run (name enc html : jsstring) (w : world) :
  encodeURIComponent name = Some enc →
  read_response (searchUrl enc) (pages w (searchUrl enc)) = Ok html →
  let links := extractDetailLinks html in
  ∃ res,
    NoCache.processName name w
    = (Ok res,
       logged (Fetch (searchUrl enc) :: (Fetch <$> ((baseUrl ++.) <$> links))) w)
    ∧ result_details res = plainRow (pages w) <$> links
    ∧ (score res, explanation res) = spec_summary (result_details res).
Proof.
  intros Henc Hhtml links. unfold NoCache.processName, safeName. rewrite Henc.
  step_bind. cbn [ret]. step_bind. rewrite fetchPage_eq, Hhtml. step_bind.
  rewrite nocache_visitLinks. fold links.
  cbn [NoCache.details NoCache.hasLive NoCache.hasRedMark pages logged app orb].
  eexists. split; [unfold mret, M_ret, ret; by rewrite logged_logged|].
  destruct (nocache_summary
              (NoCache.Tally (plainRow (pages w) <$> links)
                 (existsb live (plainRow (pages w) <$> links))
                 (existsb red (plainRow (pages w) <$> links)))) as [Hs Hd].
  rewrite Hd, Hs. split; [done|].
  cbn [NoCache.details NoCache.hasLive NoCache.hasRedMark].
  apply spec_summary_of, Forall_fmap, Forall_forall. intros rel _.
  apply classes_ok_plainRow.
Qed.

(** The cache-less [processName] returns whenever the search page is
    fetched: it fetches every detail page, in the order of the links,
    touches no file, holds one record for each link and scores them as the
    specification says. *)
Theorem nocache_processName (name enc html : jsstring) (w : world) :
  encodeURIComponent name = Some enc →
  read_response (searchUrl enc) (pages w (searchUrl enc)) = Ok html →
  let links := extractDetailLinks html in
  ∃ res,
    NoCache.processName name w
    = (Ok res,
       logged (Fetch (searchUrl enc) :: (Fetch <$> ((baseUrl ++.) <$> links))) w)
    ∧ result_details res = plainRow (pages w) <$> links
    ∧ (score res, explanation res) = spec_summary (result_details res).
Proof. apply nocache_run. Qed.

Lemma nocache_processName_witness :
  ∃ res w',
    NoCache.processName (str "acme toys") demoSite = (Ok res, w')
    ∧ files w' = ∅
    ∧ (score res, explanation res)
      = (str "Red", str "At least one live filing lists classes 009, 028 or 041.").
Proof.
  destruct (nocache_processName (str "acme toys") (str "acme%20toys") demoSearch
              demoSite) as (res & Hrun & Hd & Hs); [by vm_compute|by vm_compute|].
  eexists res, _. split; [exact Hrun|]. split; [done|].
  rewrite Hs, Hd. by vm_compute.
Defined.

(** *** The two owner patterns *)

Lemma run_nil i r s c :
  (∀ w s', s = w ++ s' → ¬ lang i r w) → run i r s c = [].
Proof.
  intros H. destruct (run i r s c) as [|[s' c'] l] eqn:E; [done|].
  destruct (run_sound i r s c s' c') as (w & Hs & L); [rewrite E; by left|].
  by destruct (H w s').
Qed.

(** What a match captured is a part of the input. *)
Lemma star_loop_part step g
  (Hstep : ∀ s c s' c', In (s', c') (step s c) →
     (∃ w, s = w ++ s') ∧ (c' = c ∨ ∃ x u v, c' = Some x ∧ s = u ++ x ++ v)) :
  ∀ n s c s' c', In (s', c') (star_loop step g n s c) →
    (∃ w, s = w ++ s') ∧ (c' = c ∨ ∃ x u v, c' = Some x ∧ s = u ++ x ++ v).
Proof.
  induction n as [|n IH]; intros s c s' c' Hin.
  - simpl in Hin. destruct Hin as [[= <- <-]|[]]. split; [by exists []|by left].
  - apply star_loop_In in Hin as [Hm|[= -> ->]]; [|split; [by exists []|by left]].
    apply star_more_In in Hm as (s1 & c1 & H1 & _ & H2).
    apply Hstep in H1 as [(w1 & ->) Hc1].
    apply IH in H2 as [(w2 & ->) Hc2].
    split; [exists (w1 ++ w2); by rewrite <- app_assoc|].
    destruct Hc2 as [->|(x & u & v & -> & Hs)]; [done|]. right.
    exists x, (w1 ++ u), v. split; [done|]. rewrite Hs. by rewrite <- !app_assoc.
Qed.

Lemma run_part i r : ∀ s c s' c', In (s', c') (run i r s c) →
  (∃ w, s = w ++ s') ∧ (c' = c ∨ ∃ x u v, c' = Some x ∧ s = u ++ x ++ v).
Proof.
  induction r as [|x|neg xs|r1 IH1 r2 IH2|r1 IH1 r2 IH2|g r IH|r IH];
    intros s c s' c' Hin.
  - apply run_Eps_In in Hin as [-> ->]. split; [by exists []|by left].
  - simpl in Hin. destruct s as [|a t]; [done|]. destruct (citem_mem i x a); [|done].
    destruct Hin as [[= <- <-]|[]]. split; [by exists [a]|by left].
  - simpl in Hin. destruct s as [|a t]; [done|]. destruct (xorb _ _); [|done].
    destruct Hin as [[= <- <-]|[]]. split; [by exists [a]|by left].
  - apply run_Seq_In in Hin as (s1 & c1 & H1 & H2).
    apply IH1 in H1 as [(w1 & ->) Hc1]. apply IH2 in H2 as [(w2 & ->) Hc2].
    split; [exists (w1 ++ w2); by rewrite <- app_assoc|].
    destruct Hc2 as [->|(y & u & v & -> & Hs)]; [done|]. right.
    exists y, (w1 ++ u), v. split; [done|]. rewrite Hs. by rewrite <- !app_assoc.
  - simpl in Hin. apply in_app_iff in Hin as [H|H]; [by apply IH1|by apply IH2].
  - simpl in Hin. by apply (star_loop_part _ _ IH) in Hin.
  - apply run_Group_In in Hin as (y & -> & _ & ->). split; [by exists y|].
    right. by exists y, [], s'.
Qed.

Lemma match1_part re html td x : match1 re html = Some td → x ∈ td → x ∈ html.
Proof.
  intros (pre & m & rest & c & -> & Hm & ->)%match1_Some Hx.
  apply match_here_In in Hm as [_ Hin].
  apply run_part in Hin as [_ [->|(y & u & v & -> & Hs)]]; [by apply elem_of_nil in Hx|].
  simpl in Hx. rewrite Hs. rewrite !elem_of_app. auto.
Qed.

Lemma split_scan_ext re1 re2 s : ∀ piece k,
  (∀ pre suf, s = pre ++ suf → match_here re1 suf = match_here re2 suf) →
  split_scan re1 s piece k = split_scan re2 s piece k.
Proof.
  induction s as [|a t IH]; intros piece k H; [done|]. cbn [split_scan].
  assert (∀ piece k, split_scan re1 t piece k = split_scan re2 t piece k) as IH'.
  { intros p n. apply IH. intros pre suf ->. by apply (H (a :: pre)). }
  destruct k as [|k]; [|apply IH'].
  rewrite (H [] (a :: t) eq_refl).
  destruct (match_here re2 (a :: t)) as [[[[|??] ?] ?]|]; by rewrite ?IH'.
Qed.

Lemma split_ext re1 re2 s :
  (∀ pre suf, s = pre ++ suf → match_here re1 suf = match_here re2 suf) →
  split re1 s = split re2 s.
Proof.
  intros H. unfold split. destruct s as [|a t].
  - by rewrite (H [] [] eq_refl).
  - by apply split_scan_ext.
Qed.

(** Without the arrow and without the dagger in the text, both owner
    patterns match alike. *)
Lemma arrowSplitRe_same s :
  8594 ∉ s → 8224 ∉ s →
  match_here NoCache.arrowSplitRe s = match_here arrowSplitRe s.
Proof.
  intros Harrow Hdagger. unfold match_here, NoCache.arrowSplitRe, arrowSplitRe,
    insensitive. cbn [pattern ignoreCase run].
  rewrite (run_nil true (cat [_; Class false [Ch 226; Ch 194]; _; _; _])),
    (run_nil true (cat [_; One (Ch 8594); _])); [done| |].
  - intros w s' -> (w1 & r1 & -> & _ & L)%lang_cat_cons.
    apply lang_cat_cons in L as (w2 & r2 & -> & (a & -> & Ha)%lang_One & _).
    cbn [citem_mem] in Ha. rewrite canonicalize_eqb_other in Ha by lia.
    apply N.eqb_eq in Ha as <-. apply Harrow.
    rewrite !elem_of_app. left. right. left. left.
  - intros w s' -> (w1 & r1 & -> & _ & L)%lang_cat_cons.
    apply lang_cat_cons in L as (w2 & r2 & -> & _ & L).
    apply lang_cat_cons in L as (w3 & r3 & -> & (a & -> & Ha)%lang_One & _).
    cbn [citem_mem] in Ha. rewrite canonicalize_eqb_other in Ha by lia.
    apply N.eqb_eq in Ha as <-. apply Hdagger.
    rewrite !elem_of_app. left. right. right. left. left.
Qed.

Lemma parseOwner_same td :
  8594 ∉ td → 8224 ∉ td → NoCache.parseOwner td = parseOwner td.
Proof.
  intros Harrow Hdagger. unfold NoCache.parseOwner, parseOwner.
  destruct (ownerParts td); [|done]. cbv zeta.
  rewrite (split_ext NoCache.arrowSplitRe arrowSplitRe); [done|].
  assert (∀ x, x ≠ 32 → x ∈ cleanText td → x ∈ td) as Hsub.
  { intros x Hx. unfold cleanText. intros Hin.
    apply (thinned_elem _ _ _ (thinned_trim _)) in Hin; [|done].
    apply (thinned_elem _ _ _ (thinned_replace _ _ _)) in Hin; [|done].
    apply (thinned_elem _ _ _ (thinned_replace _ _ _)) in Hin; [|done].
    by apply (thinned_elem _ _ _ (thinned_replace _ _ _)) in Hin. }
  intros pre suf Hs. apply arrowSplitRe_same.
  - intros Hin. apply Harrow, Hsub; [done|]. rewrite Hs, elem_of_app. by right.
  - intros Hin. apply Hdagger, Hsub; [done|]. rewrite Hs, elem_of_app. by right.
Qed.

Lemma parseDetail_same html :
  8594 ∉ html → 8224 ∉ html → NoCache.parseDetail html = parseDetail html.
Proof.
  intros Harrow Hdagger. unfold NoCache.parseDetail, parseDetail.
  destruct (match1 (cellRe ownerLabel) html) as [td|] eqn:E; [|done].
  rewrite parseOwner_same; [done| |].
  - intros Hin. by apply Harrow, (match1_part _ _ td _ E).
  - intros Hin. by apply Hdagger, (match1_part _ _ td _ E).
Qed.

(** The two servers parse a page alike when it holds neither the arrow
    U+2192 nor the dagger U+2020; where the owner cell spells the arrow
    with U+2192 only the cached server splits it. *)
Theorem parseDetail_variants :
  (∀ html, 8594 ∉ html → 8224 ∉ html → NoCache.parseDetail html = parseDetail html)
  ∧ ownerName (parseDetail arrowPage) = str "Acme Pty Ltd"
  ∧ ownerAddress (parseDetail arrowPage) = str "Sydney"
  ∧ ownerName (NoCache.parseDetail arrowPage) = str "Acme Pty Ltd " ++ [8594] ++ str " Sydney"
  ∧ ownerAddress (NoCache.parseDetail arrowPage) = [].
Proof. split; [apply parseDetail_same|]. split_and!; by vm_compute. Qed.

Lemma searchResult_eq r1 r2 :
  result_details r1 = result_details r2 →
  (score r1, explanation r1) = (score r2, explanation r2) → r1 = r2.
Proof. destruct r1, r2. simpl. by intros -> [= -> ->]. Qed.

(** When the cache file holds nothing for the links of the search page
    and no detail page holds the arrow U+2192 or the dagger U+2020, the
    cached server and the cache-less one return the same result. *)
Theorem processName_variants (name enc html : jsstring) (w : world) :
  encodeURIComponent name = Some enc →
  read_response (searchUrl enc) (pages w (searchUrl enc)) = Ok html →
  (∀ rel, rel ∈ extractDetailLinks html →
     get (storedCache w enc) (baseUrl ++ rel) = None) →
  (∀ rel page, rel ∈ extractDetailLinks html →
     read_response (baseUrl ++ rel) (pages w (baseUrl ++ rel)) = Ok page →
     (8594 ∉ page) ∧ (8224 ∉ page)) →
  (processName name w).1 = (NoCache.processName name w).1.
Proof.
  intros Henc Hhtml Hcache Hpages.
  set (links := extractDetailLinks html) in *.
  set (vs := fetchVisit (pages w) <$> links).
  assert (visited (pages w) (storedCache w enc) links vs) as Hvs.
  { apply visited_uncached. intros rel Hrel. unfold linkUrl. by rewrite Hcache. }
  rewrite (processName_visited name enc html w vs) by done.
  destruct (nocache_run name enc html w Henc Hhtml) as (res & -> & Hd & Hs).
  fold links in Hd. cbn [fst]. f_equal.
  destruct (summarise_tallied w enc (v_detail <$> vs)
              (endCache w enc (extractDetailLinks html) vs)) as [Hd1 Hs1].
  assert (v_detail <$> vs = plainRow (pages w) <$> links) as Hrows.
  { unfold vs. rewrite <- list_fmap_compose. apply Forall_fmap_ext_1, Forall_forall.
    intros rel Hrel. unfold compose, fetchVisit, plainRow. fold (linkUrl rel).
    destruct (read_response (linkUrl rel) _) as [page|msg] eqn:Hpage; [|done].
    cbn [v_detail].
    destruct (Hpages rel page Hrel Hpage) as [Harrow Hdagger].
    by rewrite parseDetail_same. }
  apply searchResult_eq.
  - by rewrite Hd1, Hd.
  - rewrite Hs1, Hs, Hd, Hrows. apply spec_summary_of, Forall_fmap, Forall_forall.
    intros rel _. apply classes_ok_plainRow.
Qed.

Lemma processName_variants_witness :
  (processName (str "acme toys") demoSite).1
  = (NoCache.processName (str "acme toys") demoSite).1.
Proof.
  apply (processName_variants _ (str "acme%20toys") demoSearch);
    [by vm_compute|by vm_compute|done|].
  intros rel page Hrel Hpage.
  assert (rel ∈ [str "/australia/trademark/trademark-detail/1/a";
                 str "/australia/trademark/trademark-detail/2/b"]) as Hin
    by exact Hrel.
  apply elem_of_cons in Hin as [->|Hin].
  - vm_compute in Hpage. injection Hpage as <-.
    split; apply (bool_decide_unpack _); by vm_compute.
  - apply list_elem_of_singleton in Hin as ->. vm_compute in Hpage. done.
Defined.

(** *** Text that cleaning leaves as it is *)

Lemma exec_None_intro re s :
  (∀ pre m rest, s = pre ++ m ++ rest → ¬ langOf re m) → exec re s = None.
Proof.
  intros H. destruct (exec re s) as [[[[pre m] rest] c]|] eqn:E; [|done].
  apply exec_Some in E as [Hs L]. by destruct (H pre m rest).
Qed.

Lemma exec_None_cons re a t :
  exec re (a :: t) = None → match_here re (a :: t) = None ∧ exec re t = None.
Proof.
  simpl. destruct (match_here re (a :: t)) as [[[??]?]|]; [done|].
  by destruct (exec re t) as [[[[??]?]?]|].
Qed.

Lemma replace_scan_id re by_ s :
  s ≠ [] → exec re s = None → replace_scan re by_ s 0 = s.
Proof.
  induction s as [|a t IH]; [by intros []|]. intros _ [Hm He]%exec_None_cons.
  cbn [replace_scan]. rewrite Hm. f_equal. destruct t as [|b t]; [|by apply IH].
  simpl. simpl in He. by destruct (match_here re []) as [[[??]?]|].
Qed.

Lemma replace_id re by_ s :
  (∀ pre m rest, s = pre ++ m ++ rest → ¬ langOf re m) → replace re by_ s = s ∨ s = [].
Proof.
  intros H. destruct s as [|a t]; [by right|]. left.
  apply replace_scan_id; [done|by apply exec_None_intro].
Qed.

Lemma single_spaced_cons a t : single_spaced (a :: t) → single_spaced t.
Proof. intros H u b v ->. by apply (H (a :: u) b v). Qed.

Lemma collapse_id s : ∀ b,
  single_spaced s → (b = true → ∀ a, head s = Some a → is_space a = false) →
  collapse b s = s.
Proof.
  induction s as [|a t IH]; intros b Hs Hb; [done|]. cbn [collapse].
  destruct (is_space a) eqn:E.
  - destruct b; [by rewrite (Hb eq_refl a) in E|].
    destruct (Hs [] a t eq_refl E) as [-> Ht]. simpl. f_equal.
    apply IH; [by eapply single_spaced_cons|done].
  - f_equal. apply IH; [by eapply single_spaced_cons|done].
Qed.

Lemma single_spaced_app x y :
  single_spaced x → single_spaced y →
  (∀ a, last x = Some a → is_space a = false) → single_spaced (x ++ y).
Proof.
  intros Hx Hy Hl u a v Hs Ha.
  apply app_eq_inv in Hs as [(k & -> & Hk)|(k & -> & ->)].
  - destruct k as [|b k].
    + simpl in Hk. subst y. by apply (Hy [] a v).
    + injection Hk as <- ->. destruct (Hx u a k eq_refl Ha) as [-> Hv].
      split; [done|]. intros b Hb. destruct k as [|c k].
      * rewrite last_snoc in Hl. by rewrite (Hl 32 eq_refl) in Ha.
      * simpl in Hb. injection Hb as <-. by apply Hv.
  - by apply (Hy k a v).
Qed.

Lemma trimmed_app x y :
  x ≠ [] → y ≠ [] → trimmed x → trimmed y → trimmed (x ++ y).
Proof.
  intros Hx Hy [Hh _] [_ Hl]. split; intros a.
  - rewrite head_app. destruct x as [|b x]; [done|]. simpl. apply Hh.
  - rewrite last_app. destruct (last y) eqn:E; [apply Hl|].
    by apply last_None in E.
Qed.

Lemma ci_equal_head w (word : string) p rest :
  str word = p :: rest → (p < 65 ∨ 122 < p ∨ (90 < p ∧ p < 97)) →
  ci_equal w (str word) → ∃ w', w = p :: w'.
Proof.
  unfold ci_equal. intros -> Hp H. destruct w as [|a w']; [done|].
  simpl in H. injection H as Ha _. exists w'. f_equal. symmetry.
  apply N.eqb_eq. rewrite <- (canonicalize_eqb_other p a Hp).
  by apply N.eqb_eq.
Qed.

Lemma tag_free_exec re s :
  (∀ m, langOf re m → ∃ m', m = 60 :: m') → 60 ∉ s → exec re s = None.
Proof.
  intros Hre Hs. apply exec_None_intro. intros pre m rest -> (m' & ->)%Hre.
  apply Hs. rewrite !elem_of_app. right. left. left.
Qed.

Lemma divRe_head m : langOf divRe m → ∃ m', m = 60 :: m'.
Proof.
  unfold langOf, divRe, insensitive. cbn [pattern ignoreCase].
  intros (w1 & r1 & -> & L1%lang_Lit & _)%lang_cat_cons.
  apply (ci_equal_head _ "<div" 60 (str "div")) in L1 as (w' & ->); [|done|lia].
  by eexists.
Qed.

Lemma tagRe_head m : langOf tagRe m → ∃ m', m = 60 :: m'.
Proof. intros (u & -> & _)%tagRe_lang. by eexists. Qed.

Lemma cleanText_id s :
  s ≠ [] → trimmed s → single_spaced s → 60 ∉ s → 38 ∉ s → cleanText s = s.
Proof.
  intros Hne Ht Hs Htag Hamp. unfold cleanText.
  assert (replace tagRe (str " ") s = s) as ->.
  { apply replace_scan_id; [done|]. by apply tag_free_exec; [apply tagRe_head|]. }
  assert (replace nbspRe (str " ") s = s) as ->.
  { apply replace_scan_id; [done|]. apply exec_None_intro.
    intros pre m rest -> L. unfold langOf, nbspRe, insensitive in L.
    cbn [pattern ignoreCase] in L. apply lang_Lit in L.
    apply (ci_equal_head _ "&nbsp;" 38 (str "nbsp;")) in L as (w' & ->); [|done|lia].
    apply Hamp. rewrite !elem_of_app. right. left. left. }
  unfold replace. change (str " ") with [32].
  destruct (replace_spaces s) as [-> _].
  rewrite collapse_id by done. by apply trimmed_trim.
Qed.

Lemma ownerParts_tag_free s : 60 ∉ s → ownerParts s = [].
Proof.
  intros Hs. unfold ownerParts.
  assert (scan divRe s 0 = []) as ->; [|done].
  apply scan_nil. by apply tag_free_exec; [apply divRe_head|].
Qed.

(** *** No arrow begins inside plain text *)

Lemma space_chars a :
  is_space a = true → a ≠ 45 ∧ a ≠ 62 ∧ a ≠ 38 ∧ a ≠ 8594.
Proof. intros H. split_and!; by intros ->. Qed.

(** Where the owner pattern matches, an arrow begins. *)
Lemma arrowSplitRe_start t m rest c :
  match_here arrowSplitRe t = Some (m, rest, c) → arrow_start t = true.
Proof.
  intros [-> L]%match_here_Some. unfold arrow_start.
  unfold langOf, arrowSplitRe, insensitive, arrow in L. cbn [pattern ignoreCase] in L.
  inversion L as [| | | |? ? ? L1|? ? ? L2| | |]; subst.
  - apply lang_Seq in L1 as (ws & r1 & -> & Lws & L1).
    apply (lang_Star_chars true true _ _ _ (one_of_Space true)) in Lws.
    apply lang_Seq in L1 as (ds & r2 & -> & Lds & L1).
    pose proof (char_step_one_of _ _ _ (char_step_Class true false [chr "-"])) as Hone.
    apply (lang_Plus_chars true _ _ _ Hone) in Lds as [Hne Hds].
    apply lang_Seq in L1 as (gt & r3 & -> & Lgt%lang_Lit & _).
    apply (ci_equal_head _ ">" 62 []) in Lgt as (w' & ->); [|done|lia].
    assert (Forall (λ a, (a =? 45) = true) ds) as Hds'.
    { eapply Forall_impl; [exact Hds|]. cbv beta. intros a Ha.
      change (chr "-") with (Ch 45) in Ha. cbn [existsb citem_mem xorb] in Ha.
      rewrite canonicalize_eqb_other, orb_false_r in Ha by lia.
      by rewrite N.eqb_sym. }
    destruct ds as [|d ds]; [done|]. inversion Hds' as [|? ? Hd Hds'']; subst.
    apply N.eqb_eq in Hd as ->.
    rewrite <- !app_assoc.
    match goal with |- context [beyond is_space (ws ++ ?y)] =>
      destruct (leading_app is_space ws y Lws) as [_ ->] end.
    cbn [app beyond]. change (is_space 45) with false. cbv iota.
    match goal with |- context [beyond ?f (ds ++ ?y)] =>
      destruct (leading_app f ds y Hds'') as [_ ->] end.
    done.
  - inversion L2 as [| | | |? ? ? L1|? ? ? L3| | |]; subst.
    + apply lang_Seq in L1 as (ws & r1 & -> & Lws & L1).
      apply (lang_Star_chars true true _ _ _ (one_of_Space true)) in Lws.
      apply lang_Seq in L1 as (x & r2 & -> & (a & -> & Ha)%lang_One & _).
      cbn [citem_mem] in Ha. rewrite canonicalize_eqb_other in Ha by lia.
      apply N.eqb_eq in Ha as <-.
      rewrite <- !app_assoc.
      match goal with |- context [beyond is_space (ws ++ ?y)] =>
        by destruct (leading_app is_space ws y Lws) as [_ ->] end.
    + apply lang_Seq in L3 as (ws & r1 & -> & Lws & L3).
      apply (lang_Star_chars true true _ _ _ (one_of_Space true)) in Lws.
      apply lang_Seq in L3 as (g & r2 & -> & Lg%lang_Lit & _).
      apply (ci_equal_head _ "&gt;" 38 (str "gt;")) in Lg as (w' & ->); [|done|lia].
      rewrite <- !app_assoc.
      match goal with |- context [beyond is_space (ws ++ ?y)] =>
        by destruct (leading_app is_space ws y Lws) as [_ ->] end.
Qed.

Lemma beyond_hyphens n rest x :
  Forall (λ c, c ∉ [60; 62; 38; 8594; 8224]) n →
  (rest = [] ∨ ∃ r, rest = 32 :: r) →
  head (beyond (λ a, a =? 45) (n ++ rest)) = Some x → x ≠ 62.
Proof.
  intros Hn Hrest. induction Hn as [|a n Ha _ IH].
  - destruct Hrest as [->|(r & ->)]; simpl; [done|]. by intros [= <-].
  - simpl. destruct (a =? 45); [done|]. simpl. intros [= <-] ->.
    apply Ha. right. left.
Qed.

Lemma arrow_start_word d n rest :
  is_space d = false →
  Forall (λ c, c ∉ [60; 62; 38; 8594; 8224]) (d :: n) →
  (rest = [] ∨ ∃ r, rest = 32 :: r) →
  arrow_start ((d :: n) ++ rest) = false.
Proof.
  intros Hd Hn Hrest. inversion Hn as [|? ? Hd' Hn']; subst.
  unfold arrow_start. cbn [app beyond]. rewrite Hd.
  destruct (N.eqb_spec d 8594) as [->|_].
  { destruct Hd'. do 3 right. left. }
  destruct (N.eqb_spec d 38) as [->|_].
  { destruct Hd'. do 2 right. left. }
  destruct (d =? 45); [|done]. simpl.
  destruct (beyond _ (n ++ rest)) as [|x t] eqn:E; [done|].
  apply N.eqb_neq. apply (beyond_hyphens n rest x Hn' Hrest). by rewrite E.
Qed.

(** No arrow begins inside plain text that ends the cell or has a blank
    after it. *)
Lemma arrow_start_plain s pre suf rest :
  plain s → s = pre ++ suf → suf ≠ [] →
  (rest = [] ∨ ∃ r, rest = 32 :: r) →
  arrow_start (suf ++ rest) = false.
Proof.
  intros (_ & [_ Hlast] & Hsp & Hch) -> Hne Hrest.
  apply Forall_app in Hch as [_ Hch].
  destruct suf as [|c n]; [done|]. destruct (is_space c) eqn:Ec.
  - destruct (Hsp pre c n eq_refl Ec) as [-> Hn].
    destruct n as [|d n].
    { rewrite last_snoc in Hlast. by rewrite (Hlast 32 eq_refl) in Ec. }
    assert (arrow_start ((32 :: d :: n) ++ rest) = arrow_start ((d :: n) ++ rest))
      as -> by done.
    apply arrow_start_word; [by apply Hn|by inversion Hch|done].
  - by apply arrow_start_word.
Qed.

Lemma arrowSplitRe_plain s pre suf rest :
  plain s → s = pre ++ suf → suf ≠ [] →
  (rest = [] ∨ ∃ r, rest = 32 :: r) →
  match_here arrowSplitRe (suf ++ rest) = None.
Proof.
  intros Hs Hpre Hne Hrest.
  destruct (match_here arrowSplitRe (suf ++ rest)) as [[[m r] c]|] eqn:E; [|done].
  apply arrowSplitRe_start in E.
  by rewrite (arrow_start_plain s pre suf rest) in E.
Qed.

(** *** The pieces of a cell with one arrow *)

Lemma split_scan_run re s rest : ∀ piece,
  (∀ pre suf, s = pre ++ suf → suf ≠ [] → match_here re (suf ++ rest) = None) →
  split_scan re (s ++ rest) piece 0 = split_scan re rest (reverse s ++ piece) 0.
Proof.
  induction s as [|a t IH]; intros piece H; [done|].
  pose proof (H [] (a :: t) eq_refl ltac:(done)) as Hm.
  cbn [app split_scan]. cbn [app] in Hm. rewrite Hm, IH.
  - by rewrite reverse_cons, <- app_assoc.
  - intros pre suf -> Hne. by apply (H (a :: pre)).
Qed.

Lemma split_scan_skip re x rest piece :
  split_scan re (x ++ rest) piece (length x) = split_scan re rest piece 0.
Proof.
  induction x as [|a x IH]; [|exact IH].
  destruct rest; done.
Qed.

Lemma split_scan_arrow re a sep rest piece c :
  match_here re ((a :: sep) ++ rest) = Some (a :: sep, rest, c) →
  split_scan re ((a :: sep) ++ rest) piece 0
  = reverse piece :: split_scan re rest [] 0.
Proof.
  intros Hm. cbn [app split_scan]. cbn [app] in Hm. rewrite Hm.
  cbn [length]. rewrite Nat.sub_succ, Nat.sub_0_r. by rewrite split_scan_skip.
Qed.

Lemma split_one_arrow re name a sep address c :
  name ≠ [] →
  (∀ pre suf, name = pre ++ suf → suf ≠ [] →
     match_here re (suf ++ (a :: sep) ++ address) = None) →
  match_here re ((a :: sep) ++ address) = Some (a :: sep, address, c) →
  (∀ pre suf, address = pre ++ suf → suf ≠ [] → match_here re (suf ++ []) = None) →
  split re (name ++ (a :: sep) ++ address) = [name; address].
Proof.
  intros Hne Hname Hsep Haddr. unfold split.
  destruct (name ++ (a :: sep) ++ address) eqn:E.
  { by apply app_eq_nil in E as [-> _]. }
  rewrite <- E. rewrite split_scan_run by done.
  rewrite (split_scan_arrow re a sep address _ c) by done.
  rewrite app_nil_r, reverse_involutive. f_equal.
  rewrite <- (app_nil_r address) at 1. rewrite split_scan_run by done.
  simpl. by rewrite app_nil_r, reverse_involutive.
Qed.

Lemma split_no_arrow re s :
  s ≠ [] → (∀ pre suf, s = pre ++ suf → suf ≠ [] → match_here re (suf ++ []) = None) →
  split re s = [s].
Proof.
  intros Hne H. unfold split. destruct s as [|a t] eqn:E; [done|]. rewrite <- E in *.
  rewrite <- (app_nil_r s) at 1. rewrite split_scan_run by done.
  simpl. by rewrite app_nil_r, reverse_involutive.
Qed.

(** *** The arrow itself *)

Lemma run_Seq_head i r1 r2 s c s1 c1 l1 s2 c2 l2 :
  run i r1 s c = (s1, c1) :: l1 → run i r2 s1 c1 = (s2, c2) :: l2 →
  ∃ l, run i (Seq r1 r2) s c = (s2, c2) :: l.
Proof. intros H1 H2. cbn [run]. rewrite H1. simpl. rewrite H2. simpl. eauto. Qed.

Lemma run_Star_head i r P s c : char_step i r P →
  ∃ l, run i (Star true r) s c = (beyond P s, c) :: l.
Proof. intros Hr. by apply (star_loop_greedy_head i r P Hr). Qed.

Lemma run_spaces_head s c :
  (∀ a, head s = Some a → is_space a = false) →
  ∃ l, run true (Star true (One Space)) s c = (s, c) :: l.
Proof.
  intros Hs. destruct (run_Star_head true (One Space) is_space s c) as [l Hl].
  { apply char_step_One. }
  destruct (leading_stop is_space s Hs) as [_ E]. rewrite E in Hl. eauto.
Qed.

Lemma run_space_then s c :
  (∀ a, head s = Some a → is_space a = false) →
  ∃ l, run true (Star true (One Space)) (32 :: s) c = (s, c) :: l.
Proof.
  intros Hs. destruct (run_Star_head true (One Space) is_space (32 :: s) c) as [l Hl].
  { apply char_step_One. }
  destruct (leading_stop is_space s Hs) as [_ E]. simpl in Hl. rewrite E in Hl. eauto.
Qed.

Lemma match_here_head re s rest c l :
  run (ignoreCase re) (pattern re) s None = (rest, c) :: l →
  ∀ m, s = m ++ rest → match_here re s = Some (m, rest, c).
Proof.
  intros Hrun m ->. unfold match_here. rewrite Hrun.
  by rewrite length_app, Nat.add_sub, take_app_length.
Qed.

Lemma run_Alt i r1 r2 s c :
  run i (Alt r1 r2) s c = run i r1 s c ++ run i r2 s c.
Proof. done. Qed.

Lemma arrow_hyphen address :
  (∀ a, head address = Some a → is_space a = false) →
  ∃ l, run true arrow ([32; 45; 62; 32] ++ address) None = (address, None) :: l.
Proof.
  intros Ha. unfold arrow. cbn [cat foldr app].
  destruct (run_space_then (45 :: 62 :: 32 :: address) None) as [l1 H1];
    [by intros ? [= <-]|].
  destruct (run_Star_head true (Class false [chr "-"]) _ (62 :: 32 :: address) None
              (char_step_Class true false [chr "-"])) as [l2 H2].
  simpl beyond in H2.
  destruct (run_space_then address None Ha) as [l4 H4].
  destruct (run_Seq_head true (Star true (One Space)) Eps _ _ _ _ _ _ _ []
              H4 eq_refl) as [l5 H5].
  destruct (run_Seq_head true (Lit ">") (Seq (Star true (One Space)) Eps)
              (62 :: 32 :: address) None _ _ [] _ _ _ eq_refl H5) as [l6 H6].
  destruct (run_Seq_head true (Class false [chr "-"])
              (Star true (Class false [chr "-"]))
              (45 :: 62 :: 32 :: address) None _ _ [] _ _ _ eq_refl H2) as [l7 H7].
  destruct (run_Seq_head true _ _ _ _ _ _ _ _ _ _ H7 H6) as [l8 H8].
  apply (run_Seq_head true _ _ _ _ _ _ _ _ _ _ H1 H8).
Qed.

Lemma arrow_needs_gt w : lang true arrow w → 62 ∈ w.
Proof.
  unfold arrow. intros (w1 & r1 & -> & _ & L)%lang_cat_cons.
  apply lang_cat_cons in L as (w2 & r2 & -> & _ & L).
  apply lang_cat_cons in L as (w3 & r3 & -> & L3%lang_Lit & _).
  apply (ci_equal_head _ ">" 62 []) in L3 as (w' & ->); [|done|lia].
  rewrite !elem_of_app. right. right. left. left.
Qed.

Lemma arrow_unicode address :
  62 ∉ address → (∀ a, head address = Some a → is_space a = false) →
  ∃ l, run true (pattern arrowSplitRe) ([32; 8594; 32] ++ address) None
       = (address, None) :: l.
Proof.
  intros Hgt Ha. unfold arrowSplitRe, insensitive. cbn [pattern run].
  rewrite (run_nil true arrow).
  2:{ intros w s' Hs Hw%arrow_needs_gt. apply Hgt.
      assert (62 ∈ [32; 8594; 32] ++ address) as Hin.
      { rewrite Hs. apply elem_of_app. by left. }
      apply elem_of_app in Hin as [Hin|Hin]; [|done].
      repeat (apply elem_of_cons in Hin as [?|Hin]; [done|]). by apply elem_of_nil in Hin. }
  cbn [app cat foldr].
  destruct (run_space_then (8594 :: 32 :: address) None) as [l1 H1];
    [by intros ? [= <-]|].
  destruct (run_space_then address None Ha) as [l3 H3].
  destruct (run_Seq_head true (Star true (One Space)) Eps _ _ _ _ _ _ _ []
              H3 eq_refl) as [l4 H4].
  destruct (run_Seq_head true (One (Ch 8594)) (Seq (Star true (One Space)) Eps)
              (8594 :: 32 :: address) None _ _ [] _ _ _ eq_refl H4) as [l5 H5].
  destruct (run_Seq_head true _ _ _ _ _ _ _ _ _ _ H1 H5) as [l6 H6].
  rewrite H6. simpl. eauto.
Qed.

(** The pattern of the server without a cache needs a [>], a dagger or an
    ampersand. *)
Lemma nocache_arrow_units w :
  langOf NoCache.arrowSplitRe w → 62 ∈ w ∨ 8224 ∈ w ∨ 38 ∈ w.
Proof.
  unfold langOf, NoCache.arrowSplitRe, insensitive. cbn [pattern ignoreCase].
  inversion 1 as [| | | |? ? ? L|? ? ? L| | |]; subst.
  - left. by apply arrow_needs_gt.
  - inversion L as [| | | |? ? ? L'|? ? ? L'| | |]; subst.
    + right. left.
      apply lang_Seq in L' as (w1 & r1 & -> & _ & L').
      apply lang_Seq in L' as (w2 & r2 & -> & _ & L').
      apply lang_Seq in L' as (w3 & r3 & -> & (a & -> & Ha)%lang_One & _).
      cbn [citem_mem] in Ha. rewrite canonicalize_eqb_other in Ha by lia.
      apply N.eqb_eq in Ha as <-. rewrite !elem_of_app. right. right. left. left.
    + right. right.
      apply lang_Seq in L' as (w1 & r1 & -> & _ & L').
      apply lang_Seq in L' as (w2 & r2 & -> & L2%lang_Lit & _).
      apply (ci_equal_head _ "&gt;" 38 (str "gt;")) in L2 as (w' & ->); [|done|lia].
      rewrite !elem_of_app. right. left. left.
Qed.

Lemma nocache_no_arrow s :
  s ≠ [] → 62 ∉ s → 8224 ∉ s → 38 ∉ s → split NoCache.arrowSplitRe s = [s].
Proof.
  intros Hne Hgt Hd Ha. apply split_no_arrow; [done|].
  intros pre suf -> _. rewrite app_nil_r.
  destruct (match_here NoCache.arrowSplitRe suf) as [[[m r] c]|] eqn:E; [|done].
  apply match_here_Some in E as [-> L].
  apply nocache_arrow_units in L as [H|[H|H]];
    [destruct Hgt|destruct Hd|destruct Ha]; rewrite !elem_of_app; auto.
Qed.

(** *** Plain text around an arrow *)

Lemma plain_units s x : plain s → x ∈ [60; 62; 38; 8594; 8224] → x ∉ s.
Proof.
  intros (_ & _ & _ & H) Hx Hin. rewrite Forall_forall in H. by apply (H x).
Qed.

Ltac free Hn Ha :=
  repeat (rewrite not_elem_of_app || rewrite not_elem_of_cons); split_and?;
  first [ done | apply not_elem_of_nil
        | apply (plain_units _ _ Hn); repeat constructor
        | apply (plain_units _ _ Ha); repeat constructor ].

Lemma single_spaced_push a t :
  (is_space a = true → a = 32 ∧ ∀ b, head t = Some b → is_space b = false) →
  single_spaced t → single_spaced (a :: t).
Proof.
  intros Ha Ht [|b u] c v.
  - intros [= <- <-]. apply Ha.
  - intros [= <- ->]. by apply (Ht u c v).
Qed.

Lemma single_spaced_word mid t :
  Forall (λ c, is_space c = false) mid → single_spaced t →
  single_spaced (mid ++ t).
Proof.
  induction 1 as [|a mid Ha _ IH]; intros Ht; [done|]. cbn [app].
  apply single_spaced_push; [by rewrite Ha|by apply IH].
Qed.

(** Plain text, decided unit by unit. *)
Lemma plainb_plain s : plainb s = true → plain s.
Proof.
  unfold plainb. destruct s as [|a s]; [done|].
  intros [[[Hh Hl]%andb_true_iff Hs]%andb_true_iff Hu]%andb_true_iff.
  split_and!; [done| | |].
  - split; intros c Hc.
    + simpl in Hh, Hc. injection Hc as <-. by apply negb_true_iff.
    + rewrite Hc in Hl. by apply negb_true_iff.
  - revert Hs. generalize (a :: s). clear. intros s.
    induction s as [|c t IH]; intros H; [by intros [] ???|].
    cbn [spacedb] in H. apply andb_true_iff in H as [H1 H2].
    apply single_spaced_push; [|by apply IH].
    intros Hc. rewrite Hc in H1. simpl in H1.
    apply andb_true_iff in H1 as [->%N.eqb_eq Hd]. split; [done|].
    intros b Hb. rewrite Hb in Hd. by apply negb_true_iff.
  - apply Forall_forall. intros c Hc. rewrite forallb_forall in Hu.
    apply list_elem_of_In in Hc. apply Hu in Hc.
    by apply negb_true_iff, bool_decide_eq_false in Hc.
Qed.

(** A cell of a plain name, an arrow with one space on each side, and a
    plain address. *)
Lemma arrow_cell name mid address :
  plain name → plain address → mid ≠ [] →
  Forall (λ c, is_space c = false) mid → (60 ∉ mid) → (38 ∉ mid) →
  let raw := name ++ [32] ++ mid ++ [32] ++ address in
  raw ≠ [] ∧ trimmed raw ∧ single_spaced raw ∧ (60 ∉ raw) ∧ (38 ∉ raw).
Proof.
  intros Hn Ha Hm0 Hm Hlt Hamp raw.
  pose proof Hn as (Hn0 & [Hnh Hnl] & Hns & _).
  pose proof Ha as (Ha0 & [Hah Hal] & Has & _).
  split_and!.
  - unfold raw. by destruct name.
  - split; intros a; unfold raw.
    + rewrite head_app. destruct name as [|b name]; [done|]. apply Hnh.
    + rewrite !last_app. destruct (last address) eqn:E; [apply Hal|].
      by apply last_None in E.
  - unfold raw. apply single_spaced_app; [done| |done]. cbn [app].
    apply single_spaced_push.
    { intros _. split; [done|]. destruct Hm as [|b mid Hb _]; [done|].
      by intros ? [= <-]. }
    apply single_spaced_word; [done|]. by apply single_spaced_push.
  - unfold raw. free Hn Ha.
  - unfold raw. free Hn Ha.
Qed.

(** The cached server splits such a cell at the arrow, spelled [->] or
    U+2192. *)
Lemma parseOwner_arrow name mid address :
  plain name → plain address → mid = [45; 62] ∨ mid = [8594] →
  parseOwner (name ++ [32] ++ mid ++ [32] ++ address) = (name, address).
Proof.
  intros Hn Ha Hmid.
  pose proof Hn as (Hn0 & Hnt & _). pose proof Ha as (Ha0 & Hat & _).
  assert (62 ∉ address) as Hgt by free Hn Ha.
  assert (split arrowSplitRe (name ++ [32] ++ mid ++ [32] ++ address)
          = [name; address]) as Hsplit.
  { destruct Hat as [Hah _].
    assert (∃ c, match_here arrowSplitRe (([32] ++ mid ++ [32]) ++ address)
                 = Some ([32] ++ mid ++ [32], address, c)) as [c Hc].
    { destruct Hmid as [->| ->].
      - destruct (arrow_hyphen address Hah) as [l Hl]. exists None.
        change (([32] ++ [45; 62] ++ [32]) ++ address)
          with ([32; 45; 62; 32] ++ address) at 1.
        eapply match_here_head; [|done].
        unfold arrowSplitRe, insensitive. cbn [pattern ignoreCase].
        rewrite run_Alt, Hl. reflexivity.
      - destruct (arrow_unicode address Hgt Hah) as [l Hl]. exists None.
        by apply (match_here_head _ _ _ _ l). }
    replace (name ++ [32] ++ mid ++ [32] ++ address)
      with (name ++ (32 :: mid ++ [32]) ++ address)
      by (cbn [app]; by rewrite <- app_assoc).
    apply (split_one_arrow _ _ _ _ _ c); [done| |exact Hc|].
    - intros pre suf Hs Hne. apply (arrowSplitRe_plain name pre suf); [done..|].
      right. eexists. cbn [app]. reflexivity.
    - intros pre suf Hs Hne. apply (arrowSplitRe_plain address pre suf); auto. }
  destruct (arrow_cell name mid address) as (Hr0 & Hrt & Hrs & Hrl & Hra);
    [done|done|by destruct Hmid as [->| ->]| | | |].
  1-3: destruct Hmid as [->| ->]; (by repeat constructor) || free Hn Ha.
  unfold parseOwner. rewrite ownerParts_tag_free by done. cbv zeta.
  rewrite cleanText_id by done. rewrite Hsplit.
  unfold filter_nonempty. rewrite !filter_cons_True by done.
  rewrite filter_nil. cbn [join].
  by rewrite !trimmed_trim.
Qed.

(** The server without a cache leaves a cell with the arrow U+2192 whole. *)
Lemma nocache_parseOwner_arrow name address :
  plain name → plain address →
  NoCache.parseOwner (name ++ [32; 8594; 32] ++ address)
  = (name ++ [32; 8594; 32] ++ address, []).
Proof.
  intros Hn Ha.
  destruct (arrow_cell name [8594] address) as (Hr0 & Hrt & Hrs & Hrl & Hra);
    [done|done|done|by repeat constructor|free Hn Ha|free Hn Ha|].
  change ([32] ++ [8594] ++ [32] ++ address) with ([32; 8594; 32] ++ address) in *.
  unfold NoCache.parseOwner. rewrite ownerParts_tag_free by done. cbv zeta.
  rewrite cleanText_id by done.
  rewrite nocache_no_arrow; [|done|free Hn Ha|free Hn Ha|done].
  unfold filter_nonempty. rewrite filter_cons_True by done.
  rewrite filter_nil. by rewrite trimmed_trim.
Qed.

(** An owner cell that holds a plain name, an arrow and a plain address.
    With the arrow spelled [->] both servers give the name, the address
    and the two joined by a comma; with the arrow U+2192 the cached server
    does the same, and the server without a cache keeps the whole cell as
    the name and leaves the address empty. *)
Theorem parseDetail_owner_arrows (html name address : jsstring) :
  plain name → plain address →
  (match1 (cellRe ownerLabel) html = Some (name ++ str " -> " ++ address) →
     ownerName (parseDetail html) = name
     ∧ ownerAddress (parseDetail html) = address
     ∧ owner (parseDetail html) = name ++ str ", " ++ address
     ∧ NoCache.parseDetail html = parseDetail html)
  ∧ (match1 (cellRe ownerLabel) html = Some (name ++ [32; 8594; 32] ++ address) →
     ownerName (parseDetail html) = name
     ∧ ownerAddress (parseDetail html) = address
     ∧ owner (parseDetail html) = name ++ str ", " ++ address
     ∧ ownerName (NoCache.parseDetail html) = name ++ [32; 8594; 32] ++ address
     ∧ ownerAddress (NoCache.parseDetail html) = []
     ∧ owner (NoCache.parseDetail html) = name ++ [32; 8594; 32] ++ address).
Proof.
  intros Hn Ha. pose proof Ha as (Ha0 & _).
  pose proof (parseOwner_arrow name [45; 62] address Hn Ha (or_introl eq_refl)) as H1.
  pose proof (parseOwner_arrow name [8594] address Hn Ha (or_intror eq_refl)) as H2.
  pose proof (nocache_parseOwner_arrow name address Hn Ha) as H3.
  split; intros Hcell.
  - assert (NoCache.parseDetail html = parseDetail html) as Hsame.
    { unfold NoCache.parseDetail, parseDetail. rewrite Hcell.
      rewrite parseOwner_same; [done| |]; change (str " -> ") with [32; 45; 62; 32];
        free Hn Ha. }
    split_and!; [..|done]; unfold parseDetail; rewrite Hcell;
      change (str " -> " ++ address) with ([32] ++ [45; 62] ++ [32] ++ address);
      rewrite H1; cbn [ownerName ownerAddress owner]; [done|done|].
    by destruct address.
  - split_and!.
    1-3: unfold parseDetail; rewrite Hcell;
      change ([32; 8594; 32] ++ address) with ([32] ++ [8594] ++ [32] ++ address);
      rewrite H2; cbn [ownerName ownerAddress owner]; by destruct address.
    all: unfold NoCache.parseDetail; rewrite Hcell, H3; done.
Qed.

Lemma parseDetail_owner_arrows_witness :
  let html := str "<tr><th>Trademark Owner</th><td>Acme Pty Ltd " ++ [8594]
              ++ str " 1 Main St, Sydney</td></tr>" in
  let name := str "Acme Pty Ltd" in
  let address := str "1 Main St, Sydney" in
  match1 (cellRe ownerLabel) html = Some (name ++ [32; 8594; 32] ++ address)
  ∧ ownerName (parseDetail html) = name
  ∧ ownerAddress (parseDetail html) = address
  ∧ ownerName (NoCache.parseDetail html) = name ++ [32; 8594; 32] ++ address.
Proof.
  intros html name address.
  assert (match1 (cellRe ownerLabel) html
          = Some (name ++ [32; 8594; 32] ++ address)) as Hcell by by vm_compute.
  split; [exact Hcell|].
  destruct (parseDetail_owner_arrows html name address) as [_ H].
  - apply plainb_plain. by vm_compute.
  - apply plainb_plain. by vm_compute.
  - destruct (H Hcell) as (H1 & H2 & _ & H4 & _).
    split; [exact H1|]. split; [exact H2|exact H4].
Defined.

(** *** Where the scan finds its matches *)

Lemma scan_at_texts re s : ∀ skip k,
  snd <$> scan_at re s skip k = fst <$> scan re s skip.
Proof.
  induction s as [|a t IH]; intros skip k; cbn [scan_at scan].
  - destruct skip; [|done]. by destruct (match_here re []) as [[[??]?]|].
  - destruct skip as [|skip]; [|apply IH].
    destruct (match_here re (a :: t)) as [[[m ?] ?]|]; [|apply IH].
    cbn [fmap list_fmap fst snd]. f_equal. apply IH.
Qed.

Lemma scan_at_skip re x rest : ∀ k,
  scan_at re (x ++ rest) (length x) k = scan_at re rest 0 (k + length x).
Proof.
  induction x as [|a x IH]; intros k.
  - cbn [app length]. by rewrite Nat.add_0_r.
  - cbn [app length scan_at]. rewrite IH. f_equal. lia.
Qed.

Lemma scan_at_bound re s : ∀ skip k,
  Forall (λ a, (k ≤ a.1)%nat) (scan_at re s skip k).
Proof.
  induction s as [|a t IH]; intros skip k; cbn [scan_at].
  - destruct skip; [|constructor].
    destruct (match_here re []) as [[[m ?] ?]|]; repeat constructor.
  - assert (∀ skip', Forall (λ a, (k ≤ a.1)%nat) (scan_at re t skip' (S k))) as IH'.
    { intros skip'. eapply Forall_impl; [apply IH|]. simpl. lia. }
    destruct skip as [|skip]; [|apply IH'].
    destruct (match_here re (a :: t)) as [[[m ?] ?]|]; [|apply IH'].
    constructor; [simpl; lia|apply IH'].
Qed.

(** The matches are reported from left to right. *)
Lemma scan_at_increasing re s : ∀ skip k i j x y,
  scan_at re s skip k !! i = Some x → scan_at re s skip k !! j = Some y →
  (i < j)%nat → (x.1 < y.1)%nat.
Proof.
  induction s as [|a t IH]; intros skip k i j x y; cbn [scan_at].
  - destruct skip; [|done].
    destruct (match_here re []) as [[[m ?] ?]|]; [|done].
    destruct i, j; try done; lia.
  - destruct skip as [|skip]; [|apply IH].
    destruct (match_here re (a :: t)) as [[[m ?] ?]|]; [|apply IH].
    destruct i as [|i], j as [|j]; try lia; simpl.
    + intros [= <-] Hy _. simpl.
      pose proof (scan_at_bound re t (length m - 1) (S k)) as Hb.
      rewrite Forall_forall in Hb. apply list_elem_of_lookup_2, Hb in Hy. lia.
    + intros Hx Hy Hij. apply (IH _ _ i j x y Hx Hy). lia.
Qed.

(** *** The pattern at one place *)

Lemma run_Lit_chars l : ∀ w s c,
  canonicalize <$> w = canonicalize <$> l →
  run true (foldr (λ p r, Seq (One (Ch p)) r) Eps l) (w ++ s) c = [(s, c)].
Proof.
  induction l as [|p l IH]; intros w s c Hw.
  - by destruct w.
  - destruct w as [|a w]; [done|]. injection Hw as Ha Hw.
    cbn [foldr app run citem_mem]. rewrite Ha, N.eqb_refl. cbn [flat_map].
    rewrite app_nil_r. by apply IH.
Qed.

Lemma run_Lit (text : string) w s c :
  ci_equal w (str text) → run true (Lit text) (w ++ s) c = [(s, c)].
Proof. intros Hw. by apply run_Lit_chars. Qed.

Lemma slug_unit_spec a : slug_unit a = true ↔ a ∉ [34; 39; 62].
Proof.
  unfold slug_unit. change (chr "'") with (Ch 39). change (chr ">") with (Ch 62).
  cbn [existsb citem_mem]. rewrite !canonicalize_eqb_other by lia.
  rewrite !not_elem_of_cons.
  destruct (N.eqb_spec 34 a), (N.eqb_spec 39 a), (N.eqb_spec 62 a); simpl;
    (split; [try done|try (intros (? & ? & ? & ?); congruence)]); try done.
  intros _. repeat split; try congruence. apply not_elem_of_nil.
Qed.

Lemma slug_unit_false a : slug_unit a = false ↔ a ∈ [34; 39; 62].
Proof.
  destruct (slug_unit a) eqn:E.
  - apply slug_unit_spec in E. by split.
  - split; [intros _|done]. destruct (decide (a ∈ [34; 39; 62])) as [|Hn]; [done|].
    apply slug_unit_spec in Hn. congruence.
Qed.

(** At the start of a detail path the pattern matches, and first of all
    up to the next quote or [>]. *)
Lemma detailLinkRe_run pfx ds slug rest :
  ci_equal pfx (str "/australia/trademark/trademark-detail/") →
  ds ≠ [] → Forall (λ c, is_digit c = true) ds →
  slug ≠ [] → Forall (λ c, c ∉ [34; 39; 62]) slug →
  ∃ l, run true (pattern detailLinkRe) (pfx ++ ds ++ 47 :: slug ++ rest) None
       = (beyond slug_unit rest, None) :: l.
Proof.
  intros Hpfx Hds0 Hds Hsl0 Hsl.
  destruct ds as [|d0 ds']; [done|]. destruct slug as [|s0 slug']; [done|].
  apply Forall_cons in Hds as [Hd0 Hds]. apply Forall_cons in Hsl as [Hs0 Hsl].
  assert (Forall (λ c, slug_unit c = true) slug') as Hsl'.
  { eapply Forall_impl; [exact Hsl|]. intros a. apply slug_unit_spec. }
  apply slug_unit_spec in Hs0.
  unfold detailLinkRe, insensitive. cbn [pattern cat foldr].
  (* the last slash and what follows it *)
  destruct (run_Star_head true (Class true [Ch 34; chr "'"; chr ">"]) slug_unit
              (slug' ++ rest) None (char_step_Class true true _)) as [l1 H1].
  destruct (leading_app slug_unit slug' rest Hsl') as [_ E1]. rewrite E1 in H1.
  assert (run true (Class true [Ch 34; chr "'"; chr ">"]) ((s0 :: slug') ++ rest) None
          = [(slug' ++ rest, None)]) as H2.
  { rewrite (char_step_Class true true _). cbn [app]. fold (slug_unit s0).
    by rewrite Hs0. }
  destruct (run_Seq_head true _ _ _ _ _ _ [] _ _ _ H2 H1) as [l3 H3].
  destruct (run_Seq_head true (Plus (Class true [Ch 34; chr "'"; chr ">"])) Eps
              _ _ _ _ _ _ _ [] H3 eq_refl) as [l4 H4].
  pose proof (run_Lit "/" [47] ((s0 :: slug') ++ rest) None eq_refl) as H5.
  destruct (run_Seq_head true _ _ _ _ _ _ [] _ _ _ H5 H4) as [l6 H6].
  (* the digits *)
  destruct (run_Star_head true (One Digit) is_digit
              (ds' ++ [47] ++ (s0 :: slug') ++ rest) None (char_step_One true Digit))
    as [l7 H7].
  destruct (leading_app is_digit ds' ([47] ++ (s0 :: slug') ++ rest) Hds) as [_ E7].
  rewrite E7 in H7. cbn [app beyond is_digit] in H7.
  change ((48 <=? 47) && (47 <=? 57)) with false in H7. cbv iota in H7.
  assert (run true (One Digit) ((d0 :: ds') ++ [47] ++ (s0 :: slug') ++ rest) None
          = [(ds' ++ [47] ++ (s0 :: slug') ++ rest, None)]) as H8.
  { cbn [app run citem_mem]. by rewrite Hd0. }
  destruct (run_Seq_head true _ _ _ _ _ _ [] _ _ _ H8 H7) as [l9 H9].
  destruct (run_Seq_head true (Plus (One Digit)) _ _ _ _ _ _ _ _ _ H9 H6) as [l10 H10].
  pose proof (run_Lit "/australia/trademark/trademark-detail/" pfx
                ((d0 :: ds') ++ [47] ++ (s0 :: slug') ++ rest) None Hpfx) as H11.
  destruct (run_Seq_head true _ _ _ _ _ _ [] _ _ _ H11 H10) as [l12 H12].
  exists l12. exact H12.
Qed.

Lemma detailLinkRe_match_here w rest :
  detail_path w →
  match_here detailLinkRe (w ++ rest)
  = Some (w ++ leading slug_unit rest, beyond slug_unit rest, None).
Proof.
  intros (pfx & ds & slug & -> & Hpfx & Hds0 & Hds & Hsl0 & Hsl).
  destruct (detailLinkRe_run pfx ds slug rest Hpfx Hds0 Hds Hsl0 Hsl) as [l Hl].
  apply (match_here_head detailLinkRe _ _ _ l).
  - cbn [ignoreCase detailLinkRe insensitive]. rewrite <- Hl. f_equal.
    by rewrite <- !app_assoc.
  - rewrite <- (leading_beyond slug_unit rest) at 1. by rewrite <- !app_assoc.
Qed.

Lemma detail_path_units l :
  detail_path l → l ≠ [] ∧ Forall (λ c, c ∉ [34; 39; 62]) l.
Proof.
  intros (pfx & ds & slug & -> & Hpfx & Hds0 & Hds & Hsl0 & Hsl). split.
  { destruct pfx; [done|done]. }
  apply Forall_app. split; [|apply Forall_app; split; [|constructor; [|done]]].
  - apply Forall_forall. intros c Hc Hterm.
    assert (canonicalize c ∈ canonicalize <$> str "/australia/trademark/trademark-detail/")
      as Hin.
    { unfold ci_equal in Hpfx. rewrite <- Hpfx. apply list_elem_of_fmap. eauto. }
    assert (canonicalize c = c) as Hcc.
    { repeat (apply elem_of_cons in Hterm as [->|Hterm]; [done|]).
      by apply elem_of_nil in Hterm. }
    rewrite Hcc in Hin. revert Hin.
    repeat (apply elem_of_cons in Hterm as [->|Hterm];
            [apply (bool_decide_unpack _); by vm_compute|]).
    by apply elem_of_nil in Hterm.
  - eapply Forall_impl; [exact Hds|]. intros c Hc Hterm.
    repeat (apply elem_of_cons in Hterm as [->|Hterm]; [done|]).
    by apply elem_of_nil in Hterm.
  - intros Hterm. repeat (apply elem_of_cons in Hterm as [?|Hterm]; [done|]).
    by apply elem_of_nil in Hterm.
Qed.

(** *** Links by their place *)

Lemma link_at_zero s l :
  link_at s 0 l ↔
  ∃ post, s = l ++ post ∧ detail_path l ∧ ∀ c, head post = Some c → c ∈ [34; 39; 62].
Proof.
  split.
  - intros (pre & post & -> & Hp & Hl & Hpost). destruct pre; [|done]. by exists post.
  - intros (post & -> & Hl & Hpost). by exists [], post.
Qed.

Lemma link_at_cons a t q l : link_at (a :: t) (S q) l ↔ link_at t q l.
Proof.
  split.
  - intros (pre & post & Hs & Hp & Hl & Hpost). destruct pre as [|b pre]; [done|].
    injection Hs as -> ->. injection Hp as Hp. by exists pre, post.
  - intros (pre & post & -> & Hp & Hl & Hpost). exists (a :: pre), post.
    split; [done|]. split; [simpl; by rewrite Hp|done].
Qed.

Lemma link_at_app x rest q l :
  link_at (x ++ rest) (length x + q) l ↔ link_at rest q l.
Proof. induction x as [|a x IH]; [done|]. cbn [app length Nat.add]. by rewrite link_at_cons. Qed.

Lemma link_at_match s l post :
  s = l ++ post → detail_path l → (∀ c, head post = Some c → c ∈ [34; 39; 62]) →
  match_here detailLinkRe s = Some (l, post, None).
Proof.
  intros -> Hl Hpost. rewrite detailLinkRe_match_here by done.
  destruct (leading_stop slug_unit post) as [-> ->].
  { intros a Ha. by apply slug_unit_false, Hpost. }
  by rewrite app_nil_r.
Qed.

Lemma match_link_at s m rest c :
  match_here detailLinkRe s = Some (m, rest, c) → s = m ++ rest ∧ link_at s 0 m.
Proof.
  intros H. pose proof H as [-> L%detailLinkRe_lang]%match_here_Some.
  split; [done|]. apply link_at_zero. exists rest. split; [done|]. split; [done|].
  rewrite detailLinkRe_match_here in H by done. injection H as Hm Hrest _.
  apply (f_equal length) in Hm. rewrite length_app in Hm.
  assert (leading slug_unit rest = []) as Hnil by (apply nil_length_inv; lia).
  intros a Ha. apply slug_unit_false. destruct rest as [|b rest']; [done|].
  injection Ha as ->. simpl in Hnil. by destruct (slug_unit a).
Qed.

Lemma no_match_no_link s l : match_here detailLinkRe s = None → ¬ link_at s 0 l.
Proof.
  intros H (post & -> & Hl & _)%link_at_zero.
  by apply (match_here_None _ _ l post H eq_refl), detailLinkRe_lang.
Qed.

(** A link that begins inside another ends with it at the latest. *)
Lemma link_within m rest q l :
  link_at (m ++ rest) 0 m → link_at (m ++ rest) q l → (q < length m)%nat →
  (q + length l ≤ length m)%nat.
Proof.
  intros (post & Hs & Hm & Hpost)%link_at_zero (pre & post' & Hs' & Hq & Hl & _) Hlt.
  apply app_inv_head in Hs. subst post.
  destruct (Nat.le_gt_cases (q + length l) (length m)) as [|Hgt]; [done|]. exfalso.
  assert ((m ++ rest) !! length m = head rest) as H1.
  { rewrite lookup_app_r by lia. rewrite Nat.sub_diag. by destruct rest. }
  assert (∃ c, (m ++ rest) !! length m = Some c ∧ c ∈ l) as (c & H2 & Hc).
  { rewrite Hs'. rewrite lookup_app_r by lia. rewrite lookup_app_l by lia.
    destruct (l !! (length m - length pre)%nat) as [c|] eqn:E.
    - exists c. split; [done|]. by eapply list_elem_of_lookup_2.
    - apply lookup_ge_None in E. lia. }
  rewrite H1 in H2. apply Hpost in H2.
  destruct (detail_path_units l Hl) as [_ Hunits]. rewrite Forall_forall in Hunits.
  by apply (Hunits c).
Qed.

Lemma inside_link_cons a t p : inside_link t p → inside_link (a :: t) (S p).
Proof.
  intros (q & l & Hl & Hq). exists (S q), l. split; [by apply link_at_cons|lia].
Qed.

Lemma inside_link_app x rest p :
  inside_link rest p → inside_link (x ++ rest) (length x + p).
Proof.
  intros (q & l & Hl & Hq). exists (length x + q)%nat, l.
  split; [by apply link_at_app|lia].
Qed.

Lemma link_found_skip a t q l :
  match_here detailLinkRe (a :: t) = None →
  link_found (a :: t) q l ↔ ∃ q', q = S q' ∧ link_found t q' l.
Proof.
  intros Hnone. split.
  - intros [Hat Hout]. destruct q as [|q']; [by apply no_match_no_link in Hat|].
    exists q'. split; [done|]. split; [by apply link_at_cons in Hat|].
    intros Hin. by apply Hout, inside_link_cons.
  - intros (q' & -> & Hat & Hout). split; [by apply link_at_cons|].
    intros (q0 & l0 & Hl0 & Hq0). destruct q0 as [|q0].
    + by apply no_match_no_link in Hl0.
    + apply Hout. exists q0, l0. split; [by apply link_at_cons in Hl0|lia].
Qed.

Lemma link_found_match m rest q l :
  link_at (m ++ rest) 0 m →
  link_found (m ++ rest) q l ↔
  (q = 0%nat ∧ l = m) ∨ (∃ q', q = (length m + q')%nat ∧ link_found rest q' l).
Proof.
  intros Hm. pose proof Hm as (post & Hs & Hpath & Hpost)%link_at_zero.
  apply app_inv_head in Hs. subst post. split.
  - intros [Hat Hout]. destruct (decide (q = 0%nat)) as [->|Hq0].
    + left. split; [done|]. apply link_at_zero in Hat as (post' & Hs' & Hl & Hpost').
      pose proof (link_at_match _ _ _ Hs' Hl Hpost') as H1.
      pose proof (link_at_match _ _ _ eq_refl Hpath Hpost) as H2.
      rewrite H1 in H2. by injection H2.
    + destruct (Nat.lt_ge_cases q (length m)) as [Hlt|Hge].
      { destruct Hout. exists 0%nat, m. split; [done|lia]. }
      right. exists (q - length m)%nat. split; [lia|].
      replace q with (length m + (q - length m))%nat in Hat, Hout by lia.
      split; [by apply link_at_app in Hat|].
      intros Hin. by apply Hout, inside_link_app.
  - intros [[-> ->]|(q' & -> & Hat & Hout)].
    + split; [done|]. intros (q0 & l0 & _ & Hq0). lia.
    + split; [by apply link_at_app|].
      intros (q0 & l0 & Hl0 & Hq0).
      destruct (Nat.lt_ge_cases q0 (length m)) as [Hlt|Hge].
      * pose proof (link_within m rest q0 l0 Hm Hl0 Hlt). lia.
      * apply Hout. exists (q0 - length m)%nat, l0. split; [|lia].
        replace q0 with (length m + (q0 - length m))%nat in Hl0 by lia.
        by apply link_at_app in Hl0.
Qed.

(** The scan reports exactly the links found, each at its place. *)
Lemma scan_at_found n : ∀ s k p l,
  (length s ≤ n)%nat →
  (p, l) ∈ scan_at detailLinkRe s 0 k ↔ ∃ q, p = (k + q)%nat ∧ link_found s q l.
Proof.
  induction n as [|n IH]; intros s k p l Hn.
  - destruct s; [|simpl in Hn; lia]. split.
    + by intros ?%elem_of_nil.
    + intros (q & _ & (pre & post & Hs & _ & Hl & _) & _).
      destruct (detail_path_units l Hl) as [Hne _].
      symmetry in Hs. apply app_eq_nil in Hs as [_ Hs]. by apply app_eq_nil in Hs as [-> _].
  - destruct s as [|a t].
    { split; [by intros ?%elem_of_nil|].
      intros (q & _ & (pre & post & Hs & _ & Hl & _) & _).
      destruct (detail_path_units l Hl) as [Hne _].
      symmetry in Hs. apply app_eq_nil in Hs as [_ Hs]. by apply app_eq_nil in Hs as [-> _]. }
    cbn [scan_at]. destruct (match_here detailLinkRe (a :: t)) as [[[m rest] c]|] eqn:E.
    + pose proof E as [Hs Hm]%match_link_at.
      assert (∃ m', m = a :: m' ∧ t = m' ++ rest) as (m' & -> & ->).
      { apply link_at_zero in Hm as (_ & _ & Hpath & _).
        destruct (detail_path_units m Hpath) as [Hne _].
        destruct m as [|b m']; [done|]. injection Hs as -> ->. by exists m'. }
      cbn [length]. rewrite Nat.sub_succ, Nat.sub_0_r, scan_at_skip.
      change ((a :: m') ++ rest) with (a :: m' ++ rest) in Hm.
      rewrite elem_of_cons, IH by (simpl in Hn; rewrite length_app in Hn; lia).
      rewrite Hs in Hm.
      split.
      * intros [[= -> ->]|(q & -> & Hq)].
        -- exists 0%nat. split; [lia|]. apply (link_found_match _ _ _ _ Hm). by left.
        -- exists (length (a :: m') + q)%nat. split; [simpl; lia|].
           apply (link_found_match _ _ _ _ Hm). right. by exists q.
      * intros (q & -> & [[-> ->]|(q' & -> & Hq')]%(link_found_match _ _ _ _ Hm)).
        -- left. f_equal. lia.
        -- right. exists q'. split; [simpl; lia|done].
    + rewrite IH by (simpl in Hn; lia). split.
      * intros (q & -> & Hq). exists (S q). split; [lia|].
        apply link_found_skip; [done|]. by exists q.
      * intros (q & -> & (q' & -> & Hq')%link_found_skip); [|done].
        exists q'. split; [lia|done].
Qed.

Lemma found_lookup html i l :
  matchAll detailLinkRe html !! i = Some l →
  ∃ p, scan_at detailLinkRe html 0 0 !! i = Some (p, l).
Proof.
  unfold matchAll. rewrite <- (scan_at_texts _ _ 0 0), list_lookup_fmap.
  destruct (scan_at detailLinkRe html 0 0 !! i) as [[p l']|]; [|done].
  intros [= <-]. by exists p.
Qed.

(** A link that begins inside another is part of it: the pattern takes
    every unit up to the quote. *)
Lemma extractDetailLinks_nested :
  extractDetailLinks
    (str "<a href='/australia/trademark/trademark-detail/1/a/australia/trademark/trademark-detail/2/b'>")
  = [str "/australia/trademark/trademark-detail/1/a/australia/trademark/trademark-detail/2/b"].
Proof. by vm_compute. Qed.

(** C4. [extractDetailLinks] returns, each once, exactly the links found
    in the markup: the texts that begin with the fixed path, in any letter
    case, digits and a slash, and run to the next quote or [>], a link
    that begins inside another being part of it. They are ordered by
    their first place in the markup: of two returned links, the earlier
    one is found at a place before every place of the later one. The
    result is the empty list, never an error, exactly when no part of the
    markup has the shape of a detail path, and so for the empty markup. *)
Theorem extractDetailLinks_first_occurrence (html : jsstring) :
  let links := extractDetailLinks html in
  NoDup links
  ∧ (∀ l, l ∈ links ↔ ∃ p, link_found html p l)
  ∧ (∀ i j l1 l2, links !! i = Some l1 → links !! j = Some l2 → (i < j)%nat →
       ∃ p1, link_found html p1 l1
             ∧ ∀ p2, link_found html p2 l2 → (p1 < p2)%nat)
  ∧ (∀ l, l ∈ links → detail_path l ∧ occurs_in l html)
  ∧ (links = [] ↔ ∀ p, occurs_in p html → ¬ detail_path p)
  ∧ extractDetailLinks [] = [].
Proof.
  intros links. set (found := matchAll detailLinkRe html).
  assert (links = first_occurrences found) as Hl
    by apply set_from_first_occurrences.
  assert (∀ p l, (p, l) ∈ scan_at detailLinkRe html 0 0 ↔ link_found html p l) as Hat.
  { intros p l. rewrite (scan_at_found (length html)) by done.
    split; [by intros (q & -> & Hq)|]. intros Hq. by exists p. }
  assert (∀ l, l ∈ found ↔ ∃ p, link_found html p l) as Hfound.
  { intros l. unfold found, matchAll. rewrite <- (scan_at_texts _ _ 0 0).
    rewrite list_elem_of_fmap. split.
    - intros ([p l'] & -> & Hin). exists p. by apply Hat.
    - intros (p & Hp). exists (p, l). split; [done|]. by apply Hat. }
  split; [rewrite Hl; apply first_occurrences_NoDup|].
  split; [intros l; by rewrite Hl, first_occurrences_elem|].
  split.
  { intros i j l1 l2 Hi Hj Hij. rewrite Hl in Hi, Hj.
    destruct (first_occurrences_order found i j l1 l2 Hi Hj Hij)
      as (a & b & [Ha _] & [_ Hb] & Hab).
    apply found_lookup in Ha as [p1 Ha]. exists p1.
    split; [by eapply Hat, list_elem_of_lookup_2|].
    intros p2 (b' & Hb')%Hat%list_elem_of_lookup_1.
    assert (b ≤ b')%nat as Hbb.
    { destruct (Nat.le_gt_cases b b') as [|Hlt]; [done|].
      destruct (Hb b' l2); [|done|done]. unfold found, matchAll.
      by rewrite <- (scan_at_texts _ _ 0 0), list_lookup_fmap, Hb'. }
    apply (scan_at_increasing detailLinkRe html 0 0 a b' (p1, l1) (p2, l2));
      [done|done|lia]. }
  split.
  { intros l. rewrite Hl, first_occurrences_elem.
    intros [L Hocc]%matchAll_elem. split; [by apply detailLinkRe_lang|done]. }
  split; [|done].
  transitivity (found = []).
  - rewrite Hl. split; [|by intros ->].
    destruct found; [done|]. simpl. done.
  - unfold found. rewrite matchAll_nil. apply forall_proper. intros p.
    by rewrite detailLinkRe_lang.
Qed.

(** *** Where the score is not the specified one *)

(** C1 fails on the code. A cached live record whose [classes] is the text
    [x041y] makes the score Red, by the substring search of
    [String.prototype.includes], though no record has a classes list that
    contains 009, 028 or 041: the specified score is Yellow. And a cached
    live record without [classes] leaves the name without any score. *)
Theorem processName_score_diverges :
  let run := processName (str "acme toys") textSite in
  (∃ res,
     run.1 = Ok res
     ∧ (score res, explanation res)
       = (str "Red", str "At least one live filing lists classes 009, 028 or 041.")
     ∧ existsb is_live (result_details res) = true
     ∧ existsb (λ d, is_live d && has_flagged_class d) (result_details res) = false
     ∧ spec_summary (result_details res)
       = (str "Yellow", str "Live filings exist, but none contain 009, 028 or 041."))
  ∧ ∃ msg, (processName (str "acme toys") staleSite).1 = Throw msg.
Proof.
  intros run. split.
  - eexists. split; [by vm_compute|]. split_and!; by vm_compute.
  - eexists. by vm_compute.
Qed.

(** C3 fails on the code. A set of records with a live record in class
    028 and a live record without [classes] is not classified as Red: in
    every order the risk block throws at the record without [classes].
    Such a set is what [processName] assembles from a cache file that
    holds the two records. *)
Theorem classify_flagged_set_throws :
  let ds := [liveToy; staleRecord] in
  Exists (λ d, is_live d = true ∧ has_flagged_class d = true) ds
  ∧ (∀ ds', ds ≡ₚ ds' → ∃ msg, classify ds' = Throw msg)
  ∧ (processName (str "acme toys") mixedSite).1
    = Throw (str "Cannot read properties of undefined (reading 'includes')").
Proof.
  intros ds. split; [apply Exists_cons_hd; by vm_compute|]. split; [|by vm_compute].
  intros ds' Hperm. destruct (classify ds') as [r|msg] eqn:E; [|by exists msg].
  apply classify_Ok in E as [Hok _]. rewrite Forall_forall in Hok.
  destruct (Hok staleRecord) as [lr Hlr]; [|by vm_compute in Hlr].
  rewrite <- Hperm. unfold ds. apply elem_of_cons. right. by left.
Qed.

(** C7 fails on the code. The fetch of the first detail page fails and
    the second link has a cached live record without [classes]: the error
    record of the first link is pushed, then the TypeError of the second
    ends the call. The name gets an error entry and no [details], so the
    record of the failed link is not surfaced, and the cache file is not
    written. *)
Theorem detail_failure_lost :
  let run := processName (str "acme toys") lostSite in
  extractDetailLinks demoSearch
  = [str "/australia/trademark/trademark-detail/1/a";
     str "/australia/trademark/trademark-detail/2/b"]
  ∧ run.1 = Throw (str "Cannot read properties of undefined (reading 'includes')")
  ∧ (nameEntry (str "acme toys") lostSite).1
    = Ok (JObj [(str "error",
            JStr (str "Cannot read properties of undefined (reading 'includes')"))])
  ∧ log run.2
    = [Fetch (searchUrl (str "acme%20toys"));
       ExistsFile (str "acme%20toys.json"); ReadFile (str "acme%20toys.json");
       Fetch (linkUrl (str "/australia/trademark/trademark-detail/1/a"))]
  ∧ files run.2 !! str "acme%20toys.json"
    = files lostSite !! str "acme%20toys.json".
Proof.
  intros run. split; [by vm_compute|]. split; [by vm_compute|].
  split; [by vm_compute|]. split; [by vm_compute|]. by vm_compute.
Qed.

(** *** A cached number that is not written back *)

(** Without the condition of C2 a second call can differ: the infinity
    cached under the first link is reused by the first call, which is
    Green, and written as [null]; the second call fetches the page and is
    Red. *)
Lemma processName_again_infinity :
  let first := processName (str "acme toys") infiniteSite in
  let second := processName (str "acme toys") first.2 in
  (∃ r1 r2, first.1 = Ok r1 ∧ second.1 = Ok r2
            ∧ score r1 = str "Green" ∧ score r2 = str "Red")
  ∧ log first.2
    = [Fetch (searchUrl (str "acme%20toys"));
       ExistsFile (str "acme%20toys.json"); ReadFile (str "acme%20toys.json");
       Fetch (linkUrl (str "/australia/trademark/trademark-detail/2/b"));
       WriteFile (str "acme%20toys.json")]
  ∧ drop (length (log first.2)) (log second.2)
    = [Fetch (searchUrl (str "acme%20toys"));
       ExistsFile (str "acme%20toys.json"); ReadFile (str "acme%20toys.json");
       Fetch (linkUrl (str "/australia/trademark/trademark-detail/1/a"));
       Fetch (linkUrl (str "/australia/trademark/trademark-detail/2/b"));
       WriteFile (str "acme%20toys.json")].
Proof.
  intros first second. split_and!.
  - eexists _, _. split; [by vm_compute|]. split; [by vm_compute|].
    split; by vm_compute.
  - by vm_compute.
  - by vm_compute.
Qed.
